(** * Chart configuration manager and radar chart renderer

    A shallow embedding of two pieces of the portfolio site:

    - [ChartConfigManager] (chart-config.js): the layered configuration
      object, its deep merge, its persistence in [localStorage] and the
      listener registry;
    - the radar chart closure of [setupCoreAbilityRadarChart] (script.js):
      axis angles, the entry animation and hover hit-testing.

    Configuration values are JSON trees whose numbers are integers, NaN or
    an infinity: every number of the compiled-in defaults is an integer,
    and the settings panel feeds [parseInt] results, NaN for an emptied
    input.  [JSON.parse(JSON.stringify(x))] turns NaN and the infinities
    into null.  Properties holding [undefined] or a function are no
    configuration data: [JSON.parse] yields none and no script of the site
    passes one.  An object is the list of its own properties in the order
    [for ... in] and [JSON.stringify] visit them in: array-index keys
    first, in ascending order, then the other keys in the order they were
    added.  The class body is strict-mode code, so a property write on a
    primitive raises [TypeError].

    A few calls take the source outside JSON trees: storing a named
    property on an Array, enumerating the index keys of an Array or String
    source, and merging into a member inherited from [Object.prototype].
    These end in the completion [Untracked], about which nothing is
    stated.

    Canvas arithmetic is carried out over the real numbers: [Math.PI],
    [Math.cos], [Math.sin] and [Math.sqrt] are read as [PI], [cos], [sin]
    and [sqrt]. *)

From Stdlib Require Import String Ascii List ZArith Bool Lia.
From Stdlib Require Import Decimal DecimalString.
From Stdlib Require Import Reals Lra Rgeom Sorted.
Import ListNotations.

Open Scope string_scope.
Open Scope Z_scope.

(* ================================================================= *)
(** * JSON values *)

Module Json.

#[local] Unset Elimination Schemes.
Inductive json : Type :=
| JNull
| JBool (b : bool)
| JNum (n : Z)
| JNaN
| JInfinity (negative : bool)
| JStr (s : string)
| JArr (items : list json)
| JObj (props : list (string * json)).
#[local] Set Elimination Schemes.

(** The exceptions that occur. *)
Inductive error : Type :=
| TypeError
| QuotaExceededError
| SyntaxError
| Raised (what : string).

(** What a call ends in: a result, an exception, or a state that is no
    JSON tree any more. *)
Inductive completion (A : Type) : Type :=
| Normal (a : A)
| Throw (e : error)
| Untracked.

Arguments Normal {A} a.
Arguments Throw {A} e.
Arguments Untracked {A}.

Definition bind {A B : Type} (c : completion A) (k : A -> completion B)
  : completion B :=
  match c with
  | Normal a => k a
  | Throw e => Throw e
  | Untracked => Untracked
  end.

(** [if (v)]: null, false, 0, NaN and the empty string are falsy. *)
Definition truthy (v : json) : bool :=
  match v with
  | JNull => false
  | JBool b => b
  | JNum n => negb (n =? 0)
  | JNaN => false
  | JInfinity _ => true
  | JStr s => negb (s =? EmptyString)%string
  | JArr _ => true
  | JObj _ => true
  end.

(** [v && typeof v === 'object' && !Array.isArray(v)] *)
Definition is_record (v : json) : bool :=
  match v with
  | JObj _ => true
  | _ => false
  end.

(** Own properties of an object. *)
Fixpoint get (ps : list (string * json)) (key : string) : option json :=
  match ps with
  | [] => None
  | (k, v) :: rest => if (k =? key)%string then Some v else get rest key
  end.

Fixpoint has_key (ps : list (string * json)) (key : string) : bool :=
  match ps with
  | [] => false
  | (k, _) :: rest => (k =? key)%string || has_key rest key
  end.

(* ----------------------------------------------------------------- *)
(** ** Property order *)

(** The value of a decimal digit. *)
Definition digit (c : ascii) : option N :=
  let n := N_of_ascii c in
  if ((48 <=? n) && (n <=? 57))%N then Some (n - 48)%N else None.

Fixpoint digits (s : string) (acc : N) : option N :=
  match s with
  | EmptyString => Some acc
  | String c rest =>
      match digit c with
      | Some d => digits rest (10 * acc + d)%N
      | None => None
      end
  end.

(** A key is an array index when it is the decimal form, without leading
    zeros, of an integer from 0 to 2^32 - 2. *)
Definition array_index (key : string) : option N :=
  match key with
  | EmptyString => None
  | String c rest =>
      if (Ascii.eqb c "0" && negb (rest =? EmptyString)%string)%bool then None
      else
        match digits key 0 with
        | Some n => if (n <=? 4294967294)%N then Some n else None
        | None => None
        end
  end.

(** [before key k]: a new property [key] is enumerated ahead of the
    property [k].  Array indices come first, in ascending order; the other
    keys follow in the order they were added. *)
Definition before (key k : string) : bool :=
  match array_index key, array_index k with
  | Some n, Some m => (n <? m)%N
  | Some _, None => true
  | None, _ => false
  end.

(** [obj[key] = v] for a property the object has: it keeps its place. *)
Fixpoint overwrite (ps : list (string * json)) (key : string) (v : json)
  : list (string * json) :=
  match ps with
  | [] => []
  | (k, w) :: rest =>
      if (k =? key)%string then (k, v) :: rest
      else (k, w) :: overwrite rest key v
  end.

(** [obj[key] = v] for a property the object does not have yet. *)
Fixpoint insert (ps : list (string * json)) (key : string) (v : json)
  : list (string * json) :=
  match ps with
  | [] => [(key, v)]
  | (k, w) :: rest =>
      if before key k then (key, v) :: (k, w) :: rest
      else (k, w) :: insert rest key v
  end.

(** [obj[key] = v] *)
Definition put (ps : list (string * json)) (key : string) (v : json)
  : list (string * json) :=
  if has_key ps key then overwrite ps key v else insert ps key v.

(** [v[key]] read as data: the own property of an object, [None]
    ([undefined]) elsewhere. *)
Definition prop (v : json) (key : string) : option json :=
  match v with
  | JObj ps => get ps key
  | _ => None
  end.

Fixpoint path (v : json) (keys : list string) : option json :=
  match keys with
  | [] => Some v
  | k :: rest =>
      match prop v k with
      | Some child => path child rest
      | None => None
      end
  end.

(** The members every plain object inherits from [Object.prototype]. *)
Definition object_prototype_members : list string :=
  [ "constructor"; "__defineGetter__"; "__defineSetter__"; "hasOwnProperty";
    "__lookupGetter__"; "__lookupSetter__"; "isPrototypeOf";
    "propertyIsEnumerable"; "toString"; "valueOf"; "__proto__";
    "toLocaleString" ].

Definition inherited (key : string) : bool :=
  existsb (String.eqb key) object_prototype_members.

(** Object keys are pairwise distinct, at every depth. *)
Fixpoint unique_keys (v : json) : bool :=
  match v with
  | JArr items =>
      (fix all (l : list json) : bool :=
         match l with
         | [] => true
         | x :: rest => unique_keys x && all rest
         end) items
  | JObj ps =>
      (fix all (l : list (string * json)) : bool :=
         match l with
         | [] => true
         | (k, x) :: rest => negb (has_key rest k) && unique_keys x && all rest
         end) ps
  | _ => true
  end.

(* ----------------------------------------------------------------- *)
(** ** JSON.stringify and the clone idiom *)

Definition quote : ascii := ascii_of_nat 34.
Definition backslash : ascii := ascii_of_nat 92.

Definition hex_digit (n : nat) : ascii :=
  if Nat.ltb n 10 then ascii_of_nat (48 + n) else ascii_of_nat (87 + n).

Definition escape_char (c : ascii) : string :=
  let n := nat_of_ascii c in
  if Nat.eqb n 34 then String backslash (String quote EmptyString)
  else if Nat.eqb n 92 then String backslash (String backslash EmptyString)
  else if Nat.eqb n 8 then String backslash "b"
  else if Nat.eqb n 9 then String backslash "t"
  else if Nat.eqb n 10 then String backslash "n"
  else if Nat.eqb n 12 then String backslash "f"
  else if Nat.eqb n 13 then String backslash "r"
  else if Nat.ltb n 32 then
    String backslash
      ("u00" ++ String (hex_digit (Nat.div n 16))
                  (String (hex_digit (Nat.modulo n 16)) EmptyString))
  else String c EmptyString.

Fixpoint escape (s : string) : string :=
  match s with
  | EmptyString => EmptyString
  | String c rest => escape_char c ++ escape rest
  end.

Definition quoted (s : string) : string :=
  String quote (escape s ++ String quote EmptyString).

(** The decimal form of an integer.  (From 10^21 on the engine writes an
    exponent; no number of that size occurs.) *)
Definition number_text (n : Z) : string :=
  NilZero.string_of_int (Z.to_int n).

Fixpoint JSON_stringify (v : json) : string :=
  match v with
  | JNull => "null"
  | JBool true => "true"
  | JBool false => "false"
  | JNum n => number_text n
  | JNaN | JInfinity _ => "null"
  | JStr s => quoted s
  | JArr items =>
      "[" ++
      (fix join (l : list json) : string :=
         match l with
         | [] => EmptyString
         | [x] => JSON_stringify x
         | x :: rest => JSON_stringify x ++ "," ++ join rest
         end) items ++ "]"
  | JObj ps =>
      "{" ++
      (fix join (l : list (string * json)) : string :=
         match l with
         | [] => EmptyString
         | [(k, x)] => quoted k ++ ":" ++ JSON_stringify x
         | (k, x) :: rest =>
             quoted k ++ ":" ++ JSON_stringify x ++ "," ++ join rest
         end) ps ++ "}"
  end.

(** [JSON.parse(JSON.stringify(v))]: a fresh tree with the same content,
    but for NaN and the infinities, which are written as [null]. *)
Fixpoint JSON_clone (v : json) : json :=
  match v with
  | JNaN | JInfinity _ => JNull
  | JArr items => JArr (map JSON_clone items)
  | JObj ps =>
      JObj ((fix copy (l : list (string * json)) : list (string * json) :=
               match l with
               | [] => []
               | (k, x) :: rest => (k, JSON_clone x) :: copy rest
               end) ps)
  | _ => v
  end.

(** The properties of the copy of an object. *)
Definition clone_props : list (string * json) -> list (string * json) :=
  fix copy (l : list (string * json)) : list (string * json) :=
    match l with
    | [] => []
    | (k, x) :: rest => (k, JSON_clone x) :: copy rest
    end.

(** No NaN and no infinity anywhere in the value: what JSON can hold. *)
Fixpoint finite (v : json) : bool :=
  match v with
  | JNaN | JInfinity _ => false
  | JArr items =>
      (fix all (l : list json) : bool :=
         match l with
         | [] => true
         | x :: rest => finite x && all rest
         end) items
  | JObj ps =>
      (fix all (l : list (string * json)) : bool :=
         match l with
         | [] => true
         | (_, x) :: rest => finite x && all rest
         end) ps
  | _ => true
  end.

(* ----------------------------------------------------------------- *)
(** ** mergeConfig *)

(** One round of the [for (const key in src)] loop of [merge], for the
    property [key] of [src] with value [v].  [into child] is the recursive
    call [merge(child, v)].

    [obj[key]] reads the own property; where there is none and [key] names
    a member of [Object.prototype], the source would merge into that shared
    member ([Untracked]), and a write to a missing [__proto__] goes to the
    prototype setter ([Untracked]).  Writing a property on an Array is
    [Untracked]; on null or a primitive (a truthy string or number, an
    infinity, true) it raises. *)
Definition assign_key (into : json -> completion json)
  (obj : json) (key : string) (v : json) : completion json :=
  match obj with
  | JObj ps =>
      if is_record v then
        match get ps key with
        | Some cur =>
            bind (into (if truthy cur then cur else JObj []))
                 (fun child => Normal (JObj (put ps key child)))
        | None =>
            if inherited key then Untracked
            else bind (into (JObj []))
                      (fun child => Normal (JObj (put ps key child)))
        end
      else
        match get ps key with
        | Some _ => Normal (JObj (put ps key v))
        | None =>
            if (key =? "__proto__")%string then Untracked
            else Normal (JObj (put ps key v))
        end
  | JArr _ => Untracked
  | _ => Throw TypeError
  end.

(** The inner function [merge(obj, src)].  The source mutates [obj] in
    place; here the updated object is returned.  null, booleans, numbers
    (NaN and the infinities among them), the empty string and the empty
    array have nothing to enumerate. *)
Fixpoint merge (obj src : json) {struct src} : completion json :=
  match src with
  | JObj ps =>
      (fix each (l : list (string * json)) (obj : json) {struct l}
         : completion json :=
         match l with
         | [] => Normal obj
         | (key, v) :: rest =>
             bind (assign_key (fun child => merge child v) obj key v)
                  (each rest)
         end) ps obj
  | JArr [] => Normal obj
  | JArr (_ :: _) => Untracked
  | JStr EmptyString => Normal obj
  | JStr (String _ _) => Untracked
  | JNull | JBool _ | JNum _ | JNaN | JInfinity _ => Normal obj
  end.

(** The loop of [merge] over the properties [l] of an object source. *)
Definition merge_props : list (string * json) -> json -> completion json :=
  fix each (l : list (string * json)) (obj : json) {struct l}
    : completion json :=
    match l with
    | [] => Normal obj
    | (key, v) :: rest =>
        bind (assign_key (fun child => merge child v) obj key v) (each rest)
    end.

Definition mergeConfig (target source : json) : completion json :=
  merge (JSON_clone target) source.

(** The object a recursive merge writes into: [obj[key] || {}]. *)
Definition merge_target (cur : option json) : json :=
  match cur with
  | Some v => if truthy v then v else JObj []
  | None => JObj []
  end.

(** What a deep merge of [src] into [obj] leaves under [key] in the result
    [res]: an object of the source is merged into what was there, anything
    else replaces it, and a key the source does not name is untouched. *)
Definition merged_at (obj src res : list (string * json)) (key : string)
  : Prop :=
  match get src key with
  | None => get res key = get obj key
  | Some (JObj sub) =>
      exists child,
        get res key = Some child /\
        merge (merge_target (get obj key)) (JObj sub) = Normal child
  | Some v => get res key = Some v
  end.

End Json.

(* ================================================================= *)
(** * ChartConfigManager *)

Module ChartConfig.
Import Json.

Definition DEFAULT_CHART_CONFIG : json :=
  JObj
    [ ("chart", JObj
        [ ("width", JNum 400);
          ("height", JNum 400);
          ("backgroundColor", JStr "transparent");
          ("padding", JNum 40);
          ("animationDuration", JNum 1000);
          ("animationEasing", JStr "easeOutQuart") ]);
      ("radar", JObj
        [ ("levels", JNum 5);
          ("levelStep", JNum 20);
          ("maxValue", JNum 100);
          ("showGrid", JBool true);
          ("showAxes", JBool true);
          ("showLabels", JBool true);
          ("showValues", JBool true);
          ("gridColor", JStr "rgba(255, 255, 255, 0.1)");
          ("axisColor", JStr "rgba(255, 255, 255, 0.2)");
          ("labelColor", JStr "#94a3b8");
          ("valueColor", JStr "#06b6d4") ]);
      ("series", JArr
        [ JObj
            [ ("name", JStr "当前能力");
              ("color", JStr "#06b6d4");
              ("fillColor", JStr "rgba(6, 182, 212, 0.2)");
              ("strokeWidth", JNum 2);
              ("pointRadius", JNum 4);
              ("pointColor", JStr "#06b6d4");
              ("showPoints", JBool true);
              ("showFill", JBool true) ];
          JObj
            [ ("name", JStr "目标能力");
              ("color", JStr "#8b5cf6");
              ("fillColor", JStr "rgba(139, 92, 246, 0.1)");
              ("strokeWidth", JNum 2);
              ("pointRadius", JNum 3);
              ("pointColor", JStr "#8b5cf6");
              ("showPoints", JBool true);
              ("showFill", JBool false) ] ]);
      ("labels", JArr
        [ JStr "前端开发"; JStr "后端开发"; JStr "移动开发";
          JStr "数据分析"; JStr "项目管理"; JStr "UI/UX设计" ]);
      ("interaction", JObj
        [ ("enableHover", JBool true);
          ("enableClick", JBool true);
          ("enableTooltip", JBool true);
          ("hoverRadius", JNum 8);
          ("hoverColor", JStr "#ffffff");
          ("tooltipBackground", JStr "rgba(0, 0, 0, 0.8)");
          ("tooltipTextColor", JStr "#ffffff");
          ("tooltipBorderRadius", JNum 8);
          ("tooltipPadding", JNum 12) ]);
      ("animation", JObj
        [ ("enableEntryAnimation", JBool true);
          ("enableHoverAnimation", JBool true);
          ("enableUpdateAnimation", JBool true);
          ("entryDelay", JNum 100);
          ("hoverDuration", JNum 200);
          ("updateDuration", JNum 800) ]);
      ("responsive", JObj
        [ ("enabled", JBool true);
          ("breakpoints", JObj
            [ ("mobile", JNum 480);
              ("tablet", JNum 768);
              ("desktop", JNum 1024) ]);
          ("mobileConfig", JObj
            [ ("chart", JObj
                [ ("width", JNum 280);
                  ("height", JNum 280);
                  ("padding", JNum 30) ]);
              ("radar", JObj [ ("levels", JNum 4) ]) ]);
          ("tabletConfig", JObj
            [ ("chart", JObj
                [ ("width", JNum 350);
                  ("height", JNum 350);
                  ("padding", JNum 35) ]) ]) ]);
      ("themes", JObj
        [ ("dark", JObj
            [ ("chart", JObj [ ("backgroundColor", JStr "transparent") ]);
              ("radar", JObj
                [ ("gridColor", JStr "rgba(255, 255, 255, 0.1)");
                  ("axisColor", JStr "rgba(255, 255, 255, 0.2)");
                  ("labelColor", JStr "#94a3b8") ]) ]);
          ("light", JObj
            [ ("chart", JObj [ ("backgroundColor", JStr "#ffffff") ]);
              ("radar", JObj
                [ ("gridColor", JStr "rgba(0, 0, 0, 0.1)");
                  ("axisColor", JStr "rgba(0, 0, 0, 0.2)");
                  ("labelColor", JStr "#64748b") ]) ]) ]) ].

(* ----------------------------------------------------------------- *)
(** ** The browser side: localStorage and the console *)

(** [localStorage] holds strings under string keys and refuses a write
    that would take it over its quota (it raises, and the value is not
    stored). *)
Record Storage : Type := mkStorage
  { items : list (string * string);
    quota : N }.

Fixpoint lookup (l : list (string * string)) (key : string) : option string :=
  match l with
  | [] => None
  | (k, v) :: rest => if (k =? key)%string then Some v else lookup rest key
  end.

Fixpoint store (l : list (string * string)) (key value : string)
  : list (string * string) :=
  match l with
  | [] => [(key, value)]
  | (k, v) :: rest =>
      if (k =? key)%string then (k, value) :: rest
      else (k, v) :: store rest key value
  end.

Fixpoint used (l : list (string * string)) : N :=
  match l with
  | [] => 0%N
  | (k, v) :: rest =>
      (N.of_nat (String.length k) + N.of_nat (String.length v) + used rest)%N
  end.

Definition getItem (s : Storage) (key : string) : option string :=
  lookup (items s) key.

(** [None]: the write raised [QuotaExceededError]. *)
Definition setItem (s : Storage) (key value : string) : option Storage :=
  let l := store (items s) key value in
  if (used l <=? quota s)%N then Some (mkStorage l (quota s)) else None.

Inductive level : Type := Warn | Error.

Record console_entry : Type := mkEntry
  { severity : level;
    message : string;
    detail : error }.

(* ----------------------------------------------------------------- *)
(** ** Listeners *)

(** A registered callback.  [lid] is the identity of the function object
    ([indexOf] compares by identity); [react event data] is [Some e] when
    the call raises [e].  Callbacks observe: they do not call back into the
    manager while a notification is running. *)
Record listener : Type := mkListener
  { lid : nat;
    react : string -> json -> option error }.

(** One call [listener(event, data)]. *)
Record delivery : Type := mkDelivery
  { receiver : nat;
    event : string;
    data : json }.

(** The manager ([this.config], [this.listeners]) together with the parts
    of the page it acts on. [delivered] is the history of listener calls,
    oldest first. *)
Record state : Type := mkState
  { config : json;
    listeners : list listener;
    localStorage : Storage;
    console : list console_entry;
    delivered : list delivery }.

Definition set_config (w : state) (c : json) : state :=
  mkState c (listeners w) (localStorage w) (console w) (delivered w).

Definition set_listeners (w : state) (ls : list listener) : state :=
  mkState (config w) ls (localStorage w) (console w) (delivered w).

Definition set_localStorage (w : state) (s : Storage) : state :=
  mkState (config w) (listeners w) s (console w) (delivered w).

Definition log (lv : level) (msg : string) (e : error) (w : state) : state :=
  mkState (config w) (listeners w) (localStorage w)
          (console w ++ [mkEntry lv msg e]) (delivered w).

Definition record_call (l : listener) (ev : string) (d : json) (w : state)
  : state :=
  mkState (config w) (listeners w) (localStorage w) (console w)
          (delivered w ++ [mkDelivery (lid l) ev d]).

(* ----------------------------------------------------------------- *)
(** ** Methods *)

Definition storage_key : string := "abilityChartConfig".

(** The body of the [forEach] callback of [notifyListeners]. *)
Definition call_listener (ev : string) (d : json) (w : state) (l : listener)
  : state :=
  let w1 := record_call l ev d w in
  match react l ev d with
  | None => w1
  | Some e => log Error "配置监听器执行失败:" e w1
  end.

Definition notifyListeners (ev : string) (d : json) (w : state) : state :=
  fold_left (call_listener ev d) (listeners w) w.

Definition saveConfig (w : state) : state :=
  match setItem (localStorage w) storage_key (JSON_stringify (config w)) with
  | Some s => notifyListeners "configSaved" (config w) (set_localStorage w s)
  | None => log Error "保存图表配置失败:" QuotaExceededError w
  end.

Definition getConfig (w : state) : json := JSON_clone (config w).

Definition updateConfig (newConfig : json) (w : state) : completion state :=
  bind (mergeConfig (config w) newConfig) (fun c =>
    let w1 := saveConfig (set_config w c) in
    Normal (notifyListeners "configUpdated" (config w1) w1)).

Definition resetConfig (w : state) : state :=
  let w1 := saveConfig (set_config w (JSON_clone DEFAULT_CHART_CONFIG)) in
  notifyListeners "configReset" (config w1) w1.

Definition theme_payload (themeName : string) (c : json) : json :=
  JObj [ ("theme", JStr themeName); ("config", c) ].

(** [mergeConfig], [saveConfig] and the notification of [applyTheme], once
    [theme] is known to be truthy. *)
Definition apply_overrides (themeName : string) (theme : json) (w : state)
  : completion state :=
  bind (mergeConfig (config w) theme) (fun c =>
    let w1 := saveConfig (set_config w c) in
    Normal (notifyListeners "themeApplied"
              (theme_payload themeName (config w1)) w1)).

(** [this.config.themes[themeName]] raises when [themes] is missing or
    null.  A name that is no own key of [themes] but a member of
    [Object.prototype] reads as that member: truthy, and without any
    enumerable property, so that the merge copies the config as it is. *)
Definition applyTheme (themeName : string) (w : state) : completion state :=
  match config w with
  | JObj ps =>
      match get ps "themes" with
      | Some (JObj themes) =>
          match get themes themeName with
          | Some theme =>
              if truthy theme then apply_overrides themeName theme w
              else Normal w
          | None =>
              if inherited themeName then apply_overrides themeName JNull w
              else Normal w
          end
      | Some JNull | None => Throw TypeError
      | Some _ => Untracked
      end
  | _ => Throw TypeError
  end.

Definition addListener (l : listener) (w : state) : state :=
  set_listeners w (listeners w ++ [l]).

Fixpoint remove_first (l : listener) (ls : list listener) : list listener :=
  match ls with
  | [] => []
  | x :: rest => if Nat.eqb (lid x) (lid l) then rest
                 else x :: remove_first l rest
  end.

Definition removeListener (l : listener) (w : state) : state :=
  set_listeners w (remove_first l (listeners w)).

Section Importing.

(** [JSON.parse], [None] when it raises [SyntaxError]. *)
Variable JSON_parse : string -> option json.

Definition importConfig (configJson : string) (w : state)
  : completion (state * bool) :=
  match JSON_parse configJson with
  | None => Normal (log Error "导入配置失败:" SyntaxError w, false)
  | Some importedConfig =>
      match updateConfig importedConfig w with
      | Normal w1 => Normal (w1, true)
      | Throw e => Normal (log Error "导入配置失败:" e w, false)
      | Untracked => Untracked
      end
  end.

(** The mutating calls a page script can make, and a script as a sequence
    of them.  A call that throws hands the exception to the script and
    leaves the manager as it found it. *)
Inductive mutation : Type :=
| Update (newConfig : json)
| ApplyTheme (themeName : string)
| ImportText (configJson : string).

Definition perform (m : mutation) (w : state) : completion state :=
  match m with
  | Update newConfig => updateConfig newConfig w
  | ApplyTheme themeName => applyTheme themeName w
  | ImportText configJson =>
      bind (importConfig configJson w) (fun r => Normal (fst r))
  end.

Fixpoint run (ms : list mutation) (w : state) : completion state :=
  match ms with
  | [] => Normal w
  | m :: rest =>
      match perform m w with
      | Normal w1 => run rest w1
      | Throw _ => run rest w
      | Untracked => Untracked
      end
  end.

End Importing.

(** The calls a notification makes: every listener once, in the order of
    the registry. *)
Definition fan_out (ev : string) (d : json) (ls : list listener)
  : list delivery :=
  map (fun l => mkDelivery (lid l) ev d) ls.

(** The console lines a notification leaves: one per listener that
    raised. *)
Definition complaints (ev : string) (d : json) (ls : list listener)
  : list console_entry :=
  flat_map (fun l => match react l ev d with
                     | Some e => [mkEntry Error "配置监听器执行失败:" e]
                     | None => []
                     end) ls.

(** The partial configuration [{radar: {levels: 3}}]. *)
Definition three_levels : json :=
  JObj [ ("radar", JObj [ ("levels", JNum 3) ]) ].

End ChartConfig.

(* ================================================================= *)
(** * The radar chart of setupCoreAbilityRadarChart *)

Module Radar.

Local Open Scope R_scope.

(** The part of the chart configuration the closure reads. [labels] is
    [None] when [config.labels] is missing or not an array. *)
Record chart_config : Type := mkChartConfig
  { labels : option (list string);
    enableEntryAnimation : bool;
    updateDuration : R }.

Record ability : Type := mkAbility
  { name : string;
    value : R }.

Definition fallback_labels : list string :=
  [ "技术架构"; "团队协作"; "项目管理"; "创新思维"; "学习能力"; "业务理解" ]%string.

Definition defaultValues : list R := [92; 88; 85; 90; 95; 82].

Definition indexed {A : Type} (l : list A) : list (nat * A) :=
  combine (seq 0 (length l)) l.

(** [config.labels.map((label, index) => ({ name: label,
    value: defaultValues[index] || 80, ... }))]; the [description] text is
    only shown in the tooltip and is left out. *)
Definition abilities (config : chart_config) : list ability :=
  let ls := match labels config with
            | Some l => l
            | None => fallback_labels
            end in
  map (fun '(index, label) => mkAbility label (nth index defaultValues 80))
      (indexed ls).

(** The canvas as [initCanvas] leaves it. *)
Record canvas : Type := mkCanvas
  { width : R;
    height : R;
    devicePixelRatio : R }.

(** [window.devicePixelRatio || 1] *)
Definition dpr (c : canvas) : R :=
  if Req_dec_T (devicePixelRatio c) 0 then 1 else devicePixelRatio c.

Definition centerX (c : canvas) : R := width c / dpr c / 2.
Definition centerY (c : canvas) : R := height c / dpr c / 2.
Definition radius (c : canvas) : R := Rmin (centerX c) (centerY c) - 60.

(** [(index * 2 * Math.PI) / abilities.length - Math.PI / 2] *)
Definition angle (n index : nat) : R :=
  (INR index * 2 * PI) / INR n - PI / 2.

Definition polar (cx cy a dist : R) : R * R :=
  (cx + cos a * dist, cy + sin a * dist).

(** What [drawAxes] strokes and writes for one ability: the spoke from the
    centre to [tip], and the label at [label_at]. *)
Record axis : Type := mkAxis
  { direction : R;
    hub : R * R;
    tip : R * R;
    label_at : R * R;
    text : string }.

Definition drawAxes (abs : list ability) (cx cy r : R) : list axis :=
  map (fun '(index, a) =>
         let ang := angle (length abs) index in
         mkAxis ang (cx, cy) (polar cx cy ang r) (polar cx cy ang (r + 25))
                (name a))
      (indexed abs).

(** The polygons of [drawGrid], innermost first: ring [i] joins the points
    at distance [(radius / levels) * i] along every axis direction. *)
Definition drawGrid (abs : list ability) (levels : nat) (cx cy r : R)
  : list (list (R * R)) :=
  map (fun i =>
         let levelRadius := (r / INR levels) * INR i in
         map (fun j => polar cx cy (angle (length abs) j) levelRadius)
             (seq 0 (length abs)))
      (seq 1 levels).

Definition degrees (a : R) : R := a * 180 / PI.

(* ----------------------------------------------------------------- *)
(** ** Entry animation *)

(** The variables the frame callback [animate] reads and writes:
    [animationProgress] and [isAnimating] of the enclosing closure,
    [animationSpeed] and [lastTime] of [startAnimation]. *)
Record animation : Type := mkAnimation
  { animationProgress : R;
    isAnimating : bool;
    animationSpeed : R;
    lastTime : R }.

(** [config.animation?.updateDuration || 2000] *)
Definition duration (config : chart_config) : R :=
  if Req_dec_T (updateDuration config) 0 then 2000 else updateDuration config.

Definition easeOutCubic (t : R) : R := 1 - (1 - t) ^ 3.

(** [startAnimation], called at time [now] ([performance.now()]) while
    [isAnimating] is [animating].  [None]: the guard returned without
    starting anything. *)
Definition startAnimation (config : chart_config) (now : R)
  (animating : bool) : option animation :=
  if animating || negb (enableEntryAnimation config) then None
  else Some (mkAnimation 0 true (1 / (duration config * 60 / 1000)) now).

(** What one call of [animate] did: it either asked for the next frame
    without touching anything, or drew the chart with the eased progress. *)
Inductive frame : Type :=
| Skipped
| Drew (shown : R).

Definition animate (currentTime : R) (s : animation) : animation * frame :=
  let deltaTime := currentTime - lastTime s in
  if Rlt_dec deltaTime 16.67 then (s, Skipped)
  else
    let p := animationProgress s + animationSpeed s * (deltaTime / 16.67) in
    if Rge_dec p 1
    then (mkAnimation 1 false (animationSpeed s) currentTime,
          Drew (easeOutCubic 1))
    else (mkAnimation p (isAnimating s) (animationSpeed s) currentTime,
          Drew (easeOutCubic p)).

(** Does [animate] request another frame? *)
Definition rescheduled (s : animation) (f : frame) : bool :=
  match f with
  | Skipped => true
  | Drew _ => isAnimating s
  end.

(** The frame callbacks of one animation, fed the timestamps [ts] in turn,
    for as long as a next frame is requested. *)
Fixpoint frames (ts : list R) (s : animation) : list (animation * frame) :=
  match ts with
  | [] => []
  | t :: rest =>
      let (s1, f) := animate t s in
      (s1, f) :: (if rescheduled s1 f then frames rest s1 else [])
  end.

(** What holds of the animation whenever a frame callback is due. *)
Definition in_flight (s : animation) : Prop :=
  0 < animationSpeed s /\ 0 <= animationProgress s < 1 /\ isAnimating s = true.

(* ----------------------------------------------------------------- *)
(** ** Hover hit-testing *)

Definition vertex (c : canvas) (n index : nat) (a : ability) : R * R :=
  polar (centerX c) (centerY c) (angle n index) ((value a / 100) * radius c).

Definition distance (p q : R * R) : R :=
  sqrt ((fst p - fst q) ^ 2 + (snd p - snd q) ^ 2).

(** The callback of the [forEach] of [detectHover]: a vertex within 15px
    overwrites [newHoveredIndex]. *)
Definition hit (c : canvas) (n : nat) (mousePos : R * R) (acc : Z)
  (ia : nat * ability) : Z :=
  if Rle_dec (distance mousePos (vertex c n (fst ia) (snd ia))) 15
  then Z.of_nat (fst ia) else acc.

Definition newHoveredIndex (c : canvas) (abs : list ability)
  (mousePos : R * R) : Z :=
  fold_left (hit c (length abs) mousePos) (indexed abs) (-1)%Z.

(** [detectHover]: the new [hoveredIndex], and whether the chart was
    redrawn and the tooltip updated. *)
Definition detectHover (c : canvas) (abs : list ability)
  (mousePos : R * R) (hoveredIndex : Z) : Z * bool :=
  let new := newHoveredIndex c abs mousePos in
  if (new =? hoveredIndex)%Z then (hoveredIndex, false) else (new, true).

End Radar.

(* ================================================================= *)
(** * Sample pages *)

Module Scenarios.
Import Json ChartConfig.

(** A browser with the usual 5MB of local storage, and one that refuses
    every write. *)
Definition roomy : Storage := mkStorage [] 5242880.
Definition exhausted : Storage := mkStorage [] 0.

Definition quiet : listener := mkListener 1 (fun _ _ => None).
Definition faulty : listener :=
  mkListener 2 (fun _ _ => Some (Raised "listener failed")).

(** A manager holding the defaults, with a listener that raises registered
    ahead of one that does not. *)
Definition page (s : Storage) : state :=
  mkState (JSON_clone DEFAULT_CHART_CONFIG) [faulty; quiet] s [] [].

(** A 400 by 400 canvas at device pixel ratio 1, and a chart with two
    abilities: its vertices sit straight above and straight below the
    centre. *)
Definition square : Radar.canvas := Radar.mkCanvas 400 400 1.

Definition two_abilities : list Radar.ability :=
  [ Radar.mkAbility "A" 92; Radar.mkAbility "B" 88 ].

End Scenarios.

(* ================================================================= *)
(** * The rest of the manager, and the settings panel *)

Module ManagerExtras.
Import Json ChartConfig.

(* ----------------------------------------------------------------- *)
(** ** Shapes of merge sources *)

(** The keys of one object are pairwise distinct. *)
Fixpoint distinct (ps : list (string * json)) : bool :=
  match ps with
  | [] => true
  | (k, _) :: rest => negb (has_key rest k) && distinct rest
  end.

(** A round of the merge loop for [key] stores [v] itself when the target
    holds [cur] under [key]: an object [v] must absorb what is there. *)
Definition absorbed (cur : option json) (key : string) (v : json) : Prop :=
  match v with
  | JObj _ =>
      (cur = None -> inherited key = false) /\
      merge (merge_target cur) v = Normal v
  | _ => cur = None -> key <> "__proto__"
  end.


(* ----------------------------------------------------------------- *)
(** ** exportConfig *)

Definition newline : string := String (ascii_of_nat 10) EmptyString.

(** [JSON.stringify(v, null, 2)] at the indentation [stepback]. *)
Fixpoint JSON_stringify_indented (stepback : string) (v : json) : string :=
  let indent := stepback ++ "  " in
  match v with
  | JArr [] => "[]"
  | JArr items =>
      "[" ++ newline ++
      (fix join (l : list json) : string :=
         match l with
         | [] => EmptyString
         | [x] => indent ++ JSON_stringify_indented indent x
         | x :: rest =>
             indent ++ JSON_stringify_indented indent x ++ "," ++ newline
             ++ join rest
         end) items ++ newline ++ stepback ++ "]"
  | JObj [] => "{}"
  | JObj ps =>
      "{" ++ newline ++
      (fix join (l : list (string * json)) : string :=
         match l with
         | [] => EmptyString
         | [(k, x)] =>
             indent ++ quoted k ++ ": " ++ JSON_stringify_indented indent x
         | (k, x) :: rest =>
             indent ++ quoted k ++ ": " ++ JSON_stringify_indented indent x
             ++ "," ++ newline ++ join rest
         end) ps ++ newline ++ stepback ++ "}"
  | _ => JSON_stringify v
  end.

Definition exportConfig (w : state) : string :=
  JSON_stringify_indented EmptyString (config w).

(* ----------------------------------------------------------------- *)
(** ** loadConfig and the constructor *)

Section Loading.

(** [JSON.parse], [None] when it raises [SyntaxError]. *)
Variable JSON_parse : string -> option json.

(** [loadConfig()]: the config to start with, and the console after it.
    Whatever is raised inside the [try] is caught, reported with
    [console.warn] and answered with a copy of the defaults. *)
Definition loadConfig (s : Storage) (out : list console_entry)
  : completion (json * list console_entry) :=
  let fallback e :=
    Normal (JSON_clone DEFAULT_CHART_CONFIG,
            (out ++ [mkEntry Warn "加载图表配置失败，使用默认配置:" e])%list) in
  match getItem s storage_key with
  | None => Normal (JSON_clone DEFAULT_CHART_CONFIG, out)
  | Some savedConfig =>
      if (savedConfig =? EmptyString)%string
      then Normal (JSON_clone DEFAULT_CHART_CONFIG, out)
      else
        match JSON_parse savedConfig with
        | None => fallback SyntaxError
        | Some saved =>
            match mergeConfig DEFAULT_CHART_CONFIG saved with
            | Normal c => Normal (c, out)
            | Throw e => fallback e
            | Untracked => Untracked
            end
        end
  end.

(** [new ChartConfigManager()] in a page with storage [s], console [out]
    and listener history [calls]. *)
Definition new_manager (s : Storage) (out : list console_entry)
  (calls : list delivery) : completion state :=
  bind (loadConfig s out) (fun r => Normal (mkState (fst r) [] s (snd r) calls)).

End Loading.

(* ----------------------------------------------------------------- *)
(** ** getResponsiveConfig *)

(** [screenWidth <= v] for a window width and a stored breakpoint [v]:
    [undefined] and objects compare as NaN, which no width is below, null
    as 0, true as 1.  Strings and arrays would have to be read as numbers
    first. *)
Definition at_most (screenWidth : Z) (v : option json) : completion bool :=
  match v with
  | None => Normal false
  | Some JNull => Normal (screenWidth <=? 0)
  | Some (JBool b) => Normal (screenWidth <=? (if b then 1 else 0))
  | Some (JNum n) => Normal (screenWidth <=? n)
  | Some JNaN => Normal false
  | Some (JInfinity negative) => Normal (negb negative)
  | Some (JObj _) => Normal false
  | Some (JStr _) | Some (JArr _) => Untracked
  end.

(** [v || {}] *)
Definition or_empty (v : option json) : json :=
  match v with
  | Some x => if truthy x then x else JObj []
  | None => JObj []
  end.

(** [base.key] for one of the literal keys of the source: reading a
    property of [undefined] or null raises. *)
Definition member (base : option json) (key : string)
  : completion (option json) :=
  match base with
  | None | Some JNull => Throw TypeError
  | Some v => Normal (prop v key)
  end.

(** The override [getResponsiveConfig] picks for a window width. *)
Definition responsive_override (screenWidth : Z) (c : json)
  : completion json :=
  bind (member (Some c) "responsive") (fun responsive =>
  bind (member responsive "breakpoints") (fun breakpoints =>
  bind (member breakpoints "mobile") (fun mobile =>
  bind (at_most screenWidth mobile) (fun narrow =>
    if narrow
    then bind (member responsive "mobileConfig") (fun mobileConfig =>
           Normal (or_empty mobileConfig))
    else
      bind (member breakpoints "tablet") (fun tablet =>
      bind (at_most screenWidth tablet) (fun medium =>
        if medium
        then bind (member responsive "tabletConfig") (fun tabletConfig =>
               Normal (or_empty tabletConfig))
        else Normal (JObj []))))))).

Definition getResponsiveConfig (screenWidth : Z) (w : state)
  : completion json :=
  bind (responsive_override screenWidth (config w)) (fun responsiveConfig =>
    mergeConfig (config w) responsiveConfig).

(* ----------------------------------------------------------------- *)
(** ** validateConfig *)

(** [v && typeof v === 'object'] fails, i.e. [!v || typeof v !== 'object']
    holds: arrays count as objects, null does not. *)
Definition not_an_object (v : option json) : bool :=
  match v with
  | Some (JObj _) | Some (JArr _) => false
  | _ => true
  end.

(** [!Array.isArray(v)] *)
Definition not_an_array (v : option json) : bool :=
  match v with
  | Some (JArr _) => false
  | _ => true
  end.

(** [x && (x < 200 || x > 800)]: falsy values (NaN among them) pass, true
    compares as 1, an object as NaN, and an infinity is out of range. *)
Definition out_of_range (x : option json) : completion bool :=
  match x with
  | None | Some JNull => Normal false
  | Some (JBool b) => Normal b
  | Some (JNum n) => Normal (negb (n =? 0) && ((n <? 200) || (800 <? n)))
  | Some JNaN => Normal false
  | Some (JInfinity _) => Normal true
  | Some (JObj _) => Normal false
  | Some (JStr EmptyString) => Normal false
  | Some (JStr (String _ _)) | Some (JArr _) => Untracked
  end.

Definition when (b : bool) (msg : string) : list string :=
  if b then [msg] else [].

Record validation : Type := mkValidation
  { isValid : bool;
    errors : list string }.

Definition validateConfig (c : json) : completion validation :=
  match c with
  | JNull => Throw TypeError
  | _ =>
      let chart := prop c "chart" in
      let structure :=
        (when (not_an_object chart) "缺少chart配置"
         ++ when (not_an_object (prop c "radar")) "缺少radar配置"
         ++ when (not_an_array (prop c "series")) "series必须是数组"
         ++ when (not_an_array (prop c "labels")) "labels必须是数组")%list in
      let finish (es : list string) :=
        Normal (mkValidation (match es with [] => true | _ => false end) es) in
      match chart with
      | Some ch =>
          if truthy ch then
            bind (out_of_range (prop ch "width")) (fun wide =>
            bind (out_of_range (prop ch "height")) (fun tall =>
              finish (structure
                      ++ when wide "图表宽度必须在200-800之间"
                      ++ when tall "图表高度必须在200-800之间")%list))
          else finish structure
      | None => finish structure
      end
  end.

(** What [validateConfig] accepts: [chart] and [radar] are objects (or
    arrays), [series] and [labels] are arrays, and neither dimension of
    the chart is out of range. *)
Definition accepted (c : json) : Prop :=
  exists ch ra se la,
    prop c "chart" = Some ch /\ not_an_object (Some ch) = false /\
    prop c "radar" = Some ra /\ not_an_object (Some ra) = false /\
    prop c "series" = Some (JArr se) /\
    prop c "labels" = Some (JArr la) /\
    out_of_range (prop ch "width") = Normal false /\
    out_of_range (prop ch "height") = Normal false.

(* ----------------------------------------------------------------- *)
(** ** The settings panel's updateConfig(path, value) *)

(** [path.split('.')]: never empty, so it is given as its first element
    and the rest. *)
Fixpoint split_dots (s : string) : string * list string :=
  match s with
  | EmptyString => (EmptyString, [])
  | String c rest =>
      let (first, others) := split_dots rest in
      if Ascii.eqb c "."%char then (EmptyString, first :: others)
      else (String c first, others)
  end.

(** [current[key] = value] on the copy the panel edits.  The write goes to
    an object; null raises, and what a write on an array or a primitive
    does is not followed. *)
Definition write_key (current : json) (key : string) (value : json)
  : completion json :=
  match current with
  | JObj ps =>
      match get ps key with
      | Some _ => Normal (JObj (put ps key value))
      | None =>
          if (key =? "__proto__")%string then Untracked
          else Normal (JObj (put ps key value))
      end
  | JNull => Throw TypeError
  | _ => Untracked
  end.

(** The loop [current = current[pathArray[i]]] followed by the write
    through the last element.  The source mutates the copy in place; here
    the edited copy is returned. *)
Fixpoint assign_path (current : json) (key : string) (rest : list string)
  (value : json) {struct rest} : completion json :=
  match rest with
  | [] => write_key current key value
  | next :: rest' =>
      match current with
      | JObj ps =>
          match get ps key with
          | Some child =>
              bind (assign_path child next rest' value)
                   (fun child' => Normal (JObj (put ps key child')))
          | None => if inherited key then Untracked else Throw TypeError
          end
      | JNull => Throw TypeError
      | _ => Untracked
      end
  end.

Definition panel_updateConfig (path : string) (value : json) (w : state)
  : completion state :=
  let (key, rest) := split_dots path in
  bind (assign_path (getConfig w) key rest value) (fun edited =>
    updateConfig edited w).

(* ----------------------------------------------------------------- *)
(** ** The label list of the settings panel *)

(** [labels.filter((_, i) => i !== index)] *)
Definition without (index : nat) (labels : list json) : list json :=
  map snd (filter (fun il => negb (Nat.eqb (fst il) index))
                  (combine (seq 0 (length labels)) labels)).

(** The click handler [initDataSettings(config)] binds to the remove
    buttons, for the button with [data-index] [index].  [config] is the
    copy [initConfigPanel] took with [getConfig()] when the panel was set
    up; the handlers never take a new one.  [config.labels.filter] raises
    unless [config.labels] is an array. *)
Definition remove_label (config : json) (index : nat) (w : state)
  : completion state :=
  match prop config "labels" with
  | Some (JArr labels) =>
      panel_updateConfig "labels" (JArr (without index labels)) w
  | _ => Throw TypeError
  end.

End ManagerExtras.

(* ================================================================= *)
(** * The rest of the chart script *)

Module RadarExtras.
Import Radar.

Local Open Scope R_scope.

(** [Math.min(containerRect.width - 40, 400)] *)
Definition canvas_size (containerWidth : R) : R :=
  Rmin (containerWidth - 40) 400.

(** [window.devicePixelRatio || 1] *)
Definition pixel_ratio (ratio : R) : R :=
  if Req_dec_T ratio 0 then 1 else ratio.

(** The number dropped of its fraction, towards zero. *)
Definition truncate (x : R) : Z :=
  if Rle_dec 0 x then Int_part x else (- Int_part (- x))%Z.

(** Assigning the number [x] to [canvas.width] or [canvas.height]: the
    attributes are unsigned long, so the number is truncated and taken
    modulo 2^32, and a result above 2147483647 gives way to the
    attribute's default (300 for the width, 150 for the height). *)
Definition unsigned_long (default : Z) (x : R) : R :=
  let n := (truncate x mod 2 ^ 32)%Z in
  IZR (if (n <=? 2147483647)%Z then n else default).

(** [initCanvas]: the square canvas for a container [containerWidth] wide
    ([getBoundingClientRect().width]) on a screen with the given
    [window.devicePixelRatio]. *)
Definition initCanvas (containerWidth ratio : R) : canvas :=
  let size := canvas_size containerWidth in
  let dpr := pixel_ratio ratio in
  mkCanvas (unsigned_long 300 (size * dpr)) (unsigned_long 150 (size * dpr))
           ratio.

(** The point [drawData] and [drawDataPoints] compute for one ability while
    [animationProgress] is [progress]. *)
Definition data_point (c : canvas) (n index : nat) (a : ability)
  (progress : R) : R * R :=
  polar (centerX c) (centerY c) (angle n index)
        ((value a / 100) * radius c * progress).

(** The corners of the polygon [drawData] strokes and fills. *)
Definition drawData (c : canvas) (abs : list ability) (progress : R)
  : list (R * R) :=
  map (fun ia : nat * ability =>
         data_point c (length abs) (fst ia) (snd ia) progress)
      (indexed abs).

(** The markers of [drawDataPoints]: where each one is, and whether it is
    drawn highlighted ([hoveredIndex === index]). *)
Definition drawDataPoints (c : canvas) (abs : list ability) (progress : R)
  (hoveredIndex : Z) : list ((R * R) * bool) :=
  map (fun ia : nat * ability =>
         (data_point c (length abs) (fst ia) (snd ia) progress,
          (hoveredIndex =? Z.of_nat (fst ia))%Z))
      (indexed abs).

(** The progress values the chart was drawn with, frame after frame. *)
Fixpoint shown_values (l : list (animation * frame)) : list R :=
  match l with
  | [] => []
  | (_, Skipped) :: rest => shown_values rest
  | (_, Drew shown) :: rest => shown :: shown_values rest
  end.

(* ----------------------------------------------------------------- *)
(** ** animateNumber *)

Definition easeOutQuart (t : R) : R := 1 - (1 - t) ^ 4.

(** [Math.round]: the nearest integer, halves going up. *)
Definition round (x : R) : Z := Int_part (x + / 2).

(** One call of the frame callback [update(currentTime)] of
    [animateNumber(element, start, end, duration)]: the number written to
    the element, and whether another frame is requested. *)
Definition update (start finish : Z) (duration startTime currentTime : R)
  : Z * bool :=
  let elapsed := currentTime - startTime in
  let progress := Rmin (elapsed / duration) 1 in
  let easeProgress := easeOutQuart progress in
  let current := round (IZR start + (IZR finish - IZR start) * easeProgress) in
  (current, if Rlt_dec progress 1 then true else false).

(* ----------------------------------------------------------------- *)
(** ** throttle *)

(** What happens to a throttled function: it is called with some
    arguments, or the timer it set with [setTimeout] expires. *)
Inductive happening (A : Type) : Type :=
| Called (args : A)
| Expired.

Arguments Called {A} args.
Arguments Expired {A}.

(** The wrapper [throttle] returns, run over a sequence of happenings from
    the flag [inThrottle]: the arguments [func] was applied to, in order,
    and the flag afterwards. *)
Fixpoint throttle {A : Type} (l : list (happening A)) (inThrottle : bool)
  : list A * bool :=
  match l with
  | [] => ([], inThrottle)
  | Called args :: rest =>
      if inThrottle then throttle rest inThrottle
      else let (ran, flag) := throttle rest true in (args :: ran, flag)
  | Expired :: rest => throttle rest false
  end.

(** How often the timer expired. *)
Fixpoint expirations {A : Type} (l : list (happening A)) : nat :=
  match l with
  | [] => 0
  | Called _ :: rest => expirations rest
  | Expired :: rest => S (expirations rest)
  end.

(* ----------------------------------------------------------------- *)
(** ** debounce *)

(** The wrapper [debounce] returns, run over a sequence of happenings.
    [pending] holds the arguments of the call whose timer is running:
    every call clears that timer and sets a new one, and the timer applies
    [func] when it expires. *)
Fixpoint debounce {A : Type} (l : list (happening A)) (pending : option A)
  : list A * option A :=
  match l with
  | [] => ([], pending)
  | Called args :: rest => debounce rest (Some args)
  | Expired :: rest =>
      match pending with
      | Some args => let (ran, p) := debounce rest None in (args :: ran, p)
      | None => debounce rest None
      end
  end.

(* ----------------------------------------------------------------- *)
(** ** What reaches the canvas *)

(** The calls on the 2D context that build and paint paths. *)
Inductive call : Type :=
| beginPath
| moveTo (p : R * R)
| lineTo (p : R * R)
| arc (centre : R * R) (r : R)
| closePath
| stroke
| fill
| save
| restore.

(** The pieces of a path.  [arc] is only ever called for a full circle. *)
Inductive piece : Type :=
| Start (p : R * R)
| Line (p : R * R)
| Circle (centre : R * R) (r : R)
| Close.

Inductive paint : Type := Stroked | Filled.

(** The context: its current path, and what has been painted, oldest
    first.  The current path is no part of the state [save] and [restore]
    keep. *)
Record context : Type := mkContext
  { current : list piece;
    painted : list (paint * list piece) }.

Definition issue (ctx : context) (c : call) : context :=
  match c with
  | beginPath => mkContext [] (painted ctx)
  | moveTo p => mkContext (current ctx ++ [Start p])%list (painted ctx)
  | lineTo p =>
      mkContext (current ctx
                 ++ [match current ctx with [] => Start p | _ => Line p end])%list
                (painted ctx)
  | arc centre r => mkContext (current ctx ++ [Circle centre r])%list
                              (painted ctx)
  | closePath => mkContext (current ctx ++ [Close])%list (painted ctx)
  | stroke =>
      mkContext (current ctx) (painted ctx ++ [(Stroked, current ctx)])%list
  | fill =>
      mkContext (current ctx) (painted ctx ++ [(Filled, current ctx)])%list
  | save | restore => ctx
  end.

Definition draw (calls : list call) (ctx : context) : context :=
  fold_left issue calls ctx.

(** [moveTo] for the first point, [lineTo] for the others. *)
Definition join (index : nat) (p : R * R) : call :=
  if Nat.eqb index 0 then moveTo p else lineTo p.

(** The path calls of [drawData] of the core ability chart. *)
Definition drawData_calls (c : canvas) (abs : list ability) (progress : R)
  : list call :=
  ([beginPath]
   ++ map (fun ia : nat * ability =>
             join (fst ia)
                  (data_point c (length abs) (fst ia) (snd ia) progress))
          (indexed abs)
   ++ [closePath; stroke; fill])%list.

(** The closed polygon through the given corners. *)
Definition polygon (corners : list (R * R)) : list piece :=
  match corners with
  | [] => [Close]
  | first :: others => (Start first :: map Line others ++ [Close])%list
  end.

End RadarExtras.

(* ================================================================= *)
(** * The skills chart *)

Module SkillsRadar.
Import Radar RadarExtras.

Local Open Scope R_scope.

Definition radius : R := 150.

Definition skills : list ability :=
  [ mkAbility "Java开发" 95;
    mkAbility "架构设计" 90;
    mkAbility "大数据" 85;
    mkAbility "性能优化" 88;
    mkAbility "AI/ML" 75;
    mkAbility "团队管理" 80 ].

(** The point of one skill: its share of the radius along its axis. *)
Definition skill_point (centerX centerY : R) (n index : nat) (skill : ability)
  : R * R :=
  polar centerX centerY (angle n index) ((value skill / 100) * radius).

(** The calls the callback of the [forEach] of [drawData] makes for one
    skill: the corner of the polygon, then the marker. *)
Definition mark (centerX centerY : R) (n : nat) (entry : nat * ability)
  : list call :=
  let p := skill_point centerX centerY n (fst entry) (snd entry) in
  [ join (fst entry) p; save; beginPath; arc p 4; fill; restore ].

(** The path calls of [drawData], for the chart of the given skills. *)
Definition drawData (skills : list ability) (centerX centerY : R)
  : list call :=
  ([beginPath]
   ++ flat_map (mark centerX centerY (length skills)) (indexed skills)
   ++ [closePath; stroke; fill])%list.

End SkillsRadar.

(* ================================================================= *)
(** * Properties of the JSON operations *)

Module JsonFacts.
Import Json.

Local Open Scope list_scope.

Lemma json_ind (P : json -> Prop)
  (HNull : P JNull)
  (HBool : forall b, P (JBool b))
  (HNum : forall n, P (JNum n))
  (HNaN : P JNaN)
  (HInfinity : forall negative, P (JInfinity negative))
  (HStr : forall s, P (JStr s))
  (HArr : forall items, Forall P items -> P (JArr items))
  (HObj : forall ps, Forall (fun kv => P (snd kv)) ps -> P (JObj ps)) :
  forall v, P v.
Proof.
  fix IH 1. intros [ | b | n | | negative | s | items | ps ].
  - exact HNull.
  - apply HBool.
  - apply HNum.
  - exact HNaN.
  - apply HInfinity.
  - apply HStr.
  - apply HArr. induction items as [ | x rest IHrest ]; constructor.
    + apply IH.
    + exact IHrest.
  - apply HObj. induction ps as [ | [k x] rest IHrest ]; constructor.
    + apply IH.
    + exact IHrest.
Qed.

(* ----------------------------------------------------------------- *)
(** ** Reading and writing properties *)

Lemma has_key_get ps key : has_key ps key = false <-> get ps key = None.
Proof.
  induction ps as [ | [k w] rest IH ]; simpl; [ tauto | ].
  destruct (k =? key)%string; simpl; [ | exact IH ].
  split; discriminate.
Qed.

Lemma has_key_some ps key :
  has_key ps key = true <-> exists v, get ps key = Some v.
Proof.
  destruct (has_key ps key) eqn:E.
  - split; [ intros _ | reflexivity ].
    destruct (get ps key) as [ v | ] eqn:G; [ eauto | ].
    apply has_key_get in G. congruence.
  - apply has_key_get in E. rewrite E.
    split; [ discriminate | intros (v & H); discriminate H ].
Qed.

Lemma overwrite_cons k w rest key v :
  overwrite ((k, w) :: rest) key v
  = if (k =? key)%string then (k, v) :: rest
    else (k, w) :: overwrite rest key v.
Proof. reflexivity. Qed.

Lemma insert_cons k w rest key v :
  insert ((k, w) :: rest) key v
  = if before key k then (key, v) :: (k, w) :: rest
    else (k, w) :: insert rest key v.
Proof. reflexivity. Qed.

Lemma get_cons k w rest key :
  get ((k, w) :: rest) key = if (k =? key)%string then Some w else get rest key.
Proof. reflexivity. Qed.

Lemma has_key_cons k w rest key :
  has_key ((k, w) :: rest) key = ((k =? key)%string || has_key rest key)%bool.
Proof. reflexivity. Qed.

Lemma eqb_differ k k' : k <> k' -> (k =? k')%string = false.
Proof. apply String.eqb_neq. Qed.

Lemma get_overwrite_same ps key v :
  has_key ps key = true -> get (overwrite ps key v) key = Some v.
Proof.
  induction ps as [ | [k w] rest IH ]; [ discriminate | ].
  rewrite has_key_cons, overwrite_cons.
  destruct (k =? key)%string eqn:E; rewrite get_cons, E;
    [ reflexivity | exact IH ].
Qed.

Lemma get_overwrite_other ps key key' v :
  key <> key' -> get (overwrite ps key v) key' = get ps key'.
Proof.
  intros Hne. induction ps as [ | [k w] rest IH ]; [ reflexivity | ].
  rewrite overwrite_cons.
  destruct (String.eqb_spec k key) as [ -> | _ ]; rewrite !get_cons.
  - now rewrite (eqb_differ _ _ Hne).
  - now rewrite IH.
Qed.

Lemma get_insert_same ps key v :
  has_key ps key = false -> get (insert ps key v) key = Some v.
Proof.
  induction ps as [ | [k w] rest IH ].
  - intros _. simpl. now rewrite String.eqb_refl.
  - rewrite has_key_cons, insert_cons. intros H.
    apply Bool.orb_false_iff in H as [Hk Hrest].
    destruct (before key k); rewrite get_cons.
    + now rewrite String.eqb_refl.
    + rewrite Hk. now apply IH.
Qed.

Lemma get_insert_other ps key key' v :
  key <> key' -> get (insert ps key v) key' = get ps key'.
Proof.
  intros Hne. induction ps as [ | [k w] rest IH ].
  - simpl. now rewrite (eqb_differ _ _ Hne).
  - rewrite insert_cons.
    destruct (before key k); rewrite !get_cons.
    + now rewrite (eqb_differ _ _ Hne).
    + now rewrite IH.
Qed.

Lemma get_put_same ps key v : get (put ps key v) key = Some v.
Proof.
  unfold put. destruct (has_key ps key) eqn:E.
  - now apply get_overwrite_same.
  - now apply get_insert_same.
Qed.

Lemma get_put_other ps key key' v :
  key <> key' -> get (put ps key v) key' = get ps key'.
Proof.
  intros Hne. unfold put. destruct (has_key ps key).
  - now apply get_overwrite_other.
  - now apply get_insert_other.
Qed.

Lemma overwrite_get_same ps key v :
  get ps key = Some v -> overwrite ps key v = ps.
Proof.
  induction ps as [ | [k w] rest IH ]; [ reflexivity | ].
  rewrite get_cons, overwrite_cons.
  destruct (k =? key)%string.
  - now intros [= ->].
  - intros H. now rewrite IH.
Qed.

Lemma put_get_same ps key v : get ps key = Some v -> put ps key v = ps.
Proof.
  intros H. unfold put.
  assert (has_key ps key = true) as -> by (apply has_key_some; eauto).
  now apply overwrite_get_same.
Qed.

Lemma has_key_overwrite ps key v key' :
  has_key (overwrite ps key v) key' = has_key ps key'.
Proof.
  induction ps as [ | [k w] rest IH ]; [ reflexivity | ].
  rewrite overwrite_cons.
  destruct (k =? key)%string; rewrite !has_key_cons;
    [ reflexivity | now rewrite IH ].
Qed.

Lemma has_key_insert ps key v key' :
  has_key (insert ps key v) key'
  = (has_key ps key' || (key =? key')%string)%bool.
Proof.
  induction ps as [ | [k w] rest IH ].
  - simpl. now rewrite Bool.orb_false_r.
  - rewrite insert_cons.
    destruct (before key k); rewrite !has_key_cons.
    + now rewrite Bool.orb_comm.
    + now rewrite IH, Bool.orb_assoc.
Qed.

Lemma has_key_put ps key v key' :
  has_key (put ps key v) key'
  = (has_key ps key' || (key =? key')%string)%bool.
Proof.
  unfold put. destruct (has_key ps key) eqn:E.
  - rewrite has_key_overwrite.
    destruct (String.eqb_spec key key') as [ <- | _ ].
    + now rewrite E.
    + now rewrite Bool.orb_false_r.
  - apply has_key_insert.
Qed.

Lemma overwrite_overwrite ps key x y :
  overwrite (overwrite ps key x) key y = overwrite ps key y.
Proof.
  induction ps as [ | [k w] rest IH ]; [ reflexivity | ].
  rewrite !overwrite_cons.
  destruct (k =? key)%string eqn:E; rewrite overwrite_cons, E;
    [ reflexivity | now rewrite IH ].
Qed.

Lemma overwrite_insert ps key x y :
  has_key ps key = false ->
  overwrite (insert ps key x) key y = insert ps key y.
Proof.
  induction ps as [ | [k w] rest IH ].
  - intros _. simpl. now rewrite String.eqb_refl.
  - rewrite has_key_cons, !insert_cons. intros H.
    apply Bool.orb_false_iff in H as [Hk Hrest].
    destruct (before key k); rewrite overwrite_cons.
    + now rewrite String.eqb_refl.
    + rewrite Hk. now rewrite IH.
Qed.

(** Writing twice under one key: the last write counts. *)
Lemma put_put ps key x y : put (put ps key x) key y = put ps key y.
Proof.
  unfold put at 1. rewrite has_key_put, String.eqb_refl, Bool.orb_true_r.
  unfold put. destruct (has_key ps key) eqn:E.
  - apply overwrite_overwrite.
  - now apply overwrite_insert.
Qed.

Lemma overwrite_comm ps key key' x y :
  key <> key' ->
  overwrite (overwrite ps key x) key' y = overwrite (overwrite ps key' y) key x.
Proof.
  intros Hne. induction ps as [ | [k w] rest IH ]; [ reflexivity | ].
  rewrite !overwrite_cons.
  destruct (String.eqb_spec k key) as [ -> | Hk ].
  - rewrite (eqb_differ _ _ Hne), !overwrite_cons.
    now rewrite (eqb_differ _ _ Hne), String.eqb_refl.
  - destruct (String.eqb_spec k key') as [ -> | Hk' ]; rewrite !overwrite_cons.
    + now rewrite String.eqb_refl, (eqb_differ _ _ Hk).
    + now rewrite (eqb_differ _ _ Hk), (eqb_differ _ _ Hk'), IH.
Qed.

Lemma insert_overwrite ps key key' x y :
  key <> key' ->
  insert (overwrite ps key x) key' y = overwrite (insert ps key' y) key x.
Proof.
  intros Hne. induction ps as [ | [k w] rest IH ].
  - simpl. now rewrite (eqb_differ _ _ (not_eq_sym Hne)).
  - rewrite overwrite_cons, insert_cons.
    destruct (k =? key)%string eqn:Hk;
      rewrite insert_cons; destruct (before key' k);
      rewrite !overwrite_cons, ?Hk, ?(eqb_differ _ _ (not_eq_sym Hne)),
        ?IH; reflexivity.
Qed.

(** A write to a property the object has commutes with a write to any
    other property. *)
Lemma put_comm ps key key' x y :
  key <> key' -> has_key ps key = true ->
  put (put ps key x) key' y = put (put ps key' y) key x.
Proof.
  intros Hne Hk. unfold put at 1 3.
  rewrite !has_key_put, Hk, (eqb_differ _ _ Hne).
  rewrite Bool.orb_false_r, Bool.orb_true_l.
  unfold put. rewrite Hk. destruct (has_key ps key').
  - now apply overwrite_comm.
  - now apply insert_overwrite.
Qed.

Lemma put_swap ps key key' x y :
  key <> key' -> has_key ps key = true \/ has_key ps key' = true ->
  put (put ps key x) key' y = put (put ps key' y) key x.
Proof.
  intros Hne [ H | H ]; [ now apply put_comm | ].
  symmetry. apply put_comm; [ now apply not_eq_sym | exact H ].
Qed.

(* ----------------------------------------------------------------- *)
(** ** The copy *)

Lemma JSON_clone_obj ps : JSON_clone (JObj ps) = JObj (clone_props ps).
Proof. reflexivity. Qed.

Lemma clone_props_cons k x rest :
  clone_props ((k, x) :: rest) = (k, JSON_clone x) :: clone_props rest.
Proof. reflexivity. Qed.

Lemma get_clone ps key :
  get (clone_props ps) key = option_map JSON_clone (get ps key).
Proof.
  induction ps as [ | [k x] rest IH ]; [ reflexivity | ].
  rewrite clone_props_cons, !get_cons.
  destruct (k =? key)%string; [ reflexivity | exact IH ].
Qed.

Lemma has_key_clone ps key : has_key (clone_props ps) key = has_key ps key.
Proof.
  induction ps as [ | [k x] rest IH ]; [ reflexivity | ].
  rewrite clone_props_cons, !has_key_cons. now rewrite IH.
Qed.


Lemma clone_overwrite ps key x :
  clone_props (overwrite ps key x)
  = overwrite (clone_props ps) key (JSON_clone x).
Proof.
  induction ps as [ | [k w] rest IH ]; [ reflexivity | ].
  rewrite overwrite_cons, clone_props_cons, overwrite_cons.
  destruct (k =? key)%string; rewrite clone_props_cons;
    [ reflexivity | now rewrite IH ].
Qed.

Lemma clone_insert ps key x :
  clone_props (insert ps key x) = insert (clone_props ps) key (JSON_clone x).
Proof.
  induction ps as [ | [k w] rest IH ]; [ reflexivity | ].
  rewrite insert_cons, clone_props_cons, insert_cons.
  destruct (before key k); rewrite !clone_props_cons;
    [ reflexivity | now rewrite IH ].
Qed.

Lemma clone_put ps key x :
  clone_props (put ps key x) = put (clone_props ps) key (JSON_clone x).
Proof.
  unfold put. rewrite has_key_clone. destruct (has_key ps key).
  - apply clone_overwrite.
  - apply clone_insert.
Qed.

Lemma prop_clone v key :
  prop (JSON_clone v) key = option_map JSON_clone (prop v key).
Proof.
  destruct v as [ | b | n | | negative | s | items | ps ]; try reflexivity.
  apply get_clone.
Qed.

Lemma path_clone keys :
  forall v, path (JSON_clone v) keys = option_map JSON_clone (path v keys).
Proof.
  induction keys as [ | k rest IH ]; intros v; [ reflexivity | ].
  cbn [path]. rewrite prop_clone.
  destruct (prop v k) as [ child | ]; [ apply IH | reflexivity ].
Qed.

Lemma is_record_clone v : is_record (JSON_clone v) = is_record v.
Proof. now destruct v. Qed.

(** The copy of a falsy value is falsy; only an infinity turns from truthy
    to falsy. *)
Lemma truthy_clone v :
  truthy (JSON_clone v)
  = match v with JInfinity _ => false | _ => truthy v end.
Proof. now destruct v. Qed.

(** A value that holds no NaN and no infinity is its own copy, and every
    copy is such a value. *)
Lemma finite_clone v : finite v = true -> JSON_clone v = v.
Proof.
  induction v as [ | | | | | | items IH | ps IH ] using json_ind;
    try reflexivity; try discriminate.
  - intros H. simpl. f_equal.
    induction IH as [ | x rest Hx _ IHrest ]; [ reflexivity | ].
    change (finite x && finite (JArr rest) = true) in H.
    apply Bool.andb_true_iff in H as [H1 H2].
    simpl. now rewrite Hx, IHrest.
  - intros H. rewrite JSON_clone_obj. f_equal.
    induction IH as [ | [k x] rest Hx _ IHrest ]; [ reflexivity | ].
    change (finite x && finite (JObj rest) = true) in H.
    apply Bool.andb_true_iff in H as [H1 H2].
    rewrite clone_props_cons. cbn [snd] in Hx. now rewrite Hx, IHrest.
Qed.

Lemma clone_finite v : finite (JSON_clone v) = true.
Proof.
  induction v as [ | | | | | | items IH | ps IH ] using json_ind;
    try reflexivity.
  - simpl. induction IH as [ | x rest Hx _ IHrest ]; [ reflexivity | ].
    simpl. now rewrite Hx.
  - rewrite JSON_clone_obj.
    induction IH as [ | [k x] rest Hx _ IHrest ]; [ reflexivity | ].
    rewrite clone_props_cons.
    change (finite (JSON_clone x) && finite (JObj (clone_props rest)) = true).
    cbn [snd] in Hx. now rewrite Hx.
Qed.

Lemma clone_clone v : JSON_clone (JSON_clone v) = JSON_clone v.
Proof. apply finite_clone, clone_finite. Qed.

Lemma finite_get ps key v :
  finite (JObj ps) = true -> get ps key = Some v -> finite v = true.
Proof.
  induction ps as [ | [k x] rest IH ]; [ discriminate | ].
  intros H. change (finite x && finite (JObj rest) = true) in H.
  apply Bool.andb_true_iff in H as [H1 H2].
  rewrite get_cons. destruct (k =? key)%string.
  - now intros [= <-].
  - now apply IH.
Qed.

Lemma unique_keys_clone v : unique_keys (JSON_clone v) = unique_keys v.
Proof.
  induction v as [ | | | | | | items IH | ps IH ] using json_ind;
    try reflexivity.
  - simpl. induction IH as [ | x rest Hx _ IHrest ]; [ reflexivity | ].
    simpl. now rewrite Hx, IHrest.
  - rewrite JSON_clone_obj.
    induction IH as [ | [k x] rest Hx _ IHrest ]; [ reflexivity | ].
    rewrite clone_props_cons.
    change (negb (has_key (clone_props rest) k) && unique_keys (JSON_clone x)
            && unique_keys (JObj (clone_props rest))
            = negb (has_key rest k) && unique_keys x
              && unique_keys (JObj rest)).
    cbn [snd] in Hx. now rewrite has_key_clone, Hx, IHrest.
Qed.

(* ----------------------------------------------------------------- *)
(** ** The merge *)

Lemma merge_obj obj ps : merge obj (JObj ps) = merge_props ps obj.
Proof. reflexivity. Qed.

Lemma merge_props_cons key v rest obj :
  merge_props ((key, v) :: rest) obj
  = bind (assign_key (fun child => merge child v) obj key v)
         (merge_props rest).
Proof. reflexivity. Qed.

Lemma bind_normal {A B} (c : completion A) (k : A -> completion B) (b : B) :
  bind c k = Normal b -> exists a, c = Normal a /\ k a = Normal b.
Proof.
  destruct c as [ a | e | ]; simpl; try discriminate. intros H. now exists a.
Qed.

Lemma merge_props_app ps qs obj :
  merge_props (ps ++ qs) obj = bind (merge_props ps obj) (merge_props qs).
Proof.
  revert obj. induction ps as [ | [k v] rest IH ]; intros obj;
    [ reflexivity | ].
  rewrite <- app_comm_cons, !merge_props_cons.
  destruct (assign_key _ obj k v) as [ obj1 | e | ]; simpl;
    [ apply IH | reflexivity | reflexivity ].
Qed.

(** A source that is no object leaves the target as it is, when the merge
    completes. *)
Lemma merge_leaf src obj r :
  is_record src = false -> merge obj src = Normal r -> r = obj.
Proof.
  destruct src as [ | b | n | | negative | s | items | ps ];
    try discriminate; intros _; simpl.
  1-5: now intros [= <-].
  - destruct s; [ now intros [= <-] | discriminate ].
  - destruct items; [ now intros [= <-] | discriminate ].
Qed.

(** What one round of the loop does when it completes. *)
Lemma assign_key_normal into obj key v r :
  assign_key into obj key v = Normal r ->
  exists o x,
    obj = JObj o /\ r = JObj (put o key x) /\
    (if is_record v then into (merge_target (get o key)) = Normal x
     else x = v).
Proof.
  unfold assign_key.
  destruct obj as [ | | | | | | | o ]; try discriminate.
  intros H. exists o.
  destruct (is_record v); destruct (get o key) as [ cur | ]; simpl.
  - apply bind_normal in H as (x & Hx & [= <-]). eauto.
  - destruct (inherited key); [ discriminate | ].
    apply bind_normal in H as (x & Hx & [= <-]). eauto.
  - injection H as <-. eauto.
  - destruct (key =? "__proto__")%string; [ discriminate | ].
    injection H as <-. eauto.
Qed.

(** A merge that completes either had nothing to write or wrote into an
    object. *)
Lemma merge_shape src obj r :
  merge obj src = Normal r ->
  r = obj \/ exists ps ps', obj = JObj ps /\ r = JObj ps'.
Proof.
  destruct (is_record src) eqn:Hrec;
    [ | intros H; left; exact (merge_leaf _ _ _ Hrec H) ].
  destruct src as [ | | | | | | | ps ]; try discriminate.
  clear Hrec. rewrite merge_obj. revert obj.
  induction ps as [ | [k v] rest IH ]; intros obj.
  - intros [= <-]. now left.
  - rewrite merge_props_cons. intros H.
    apply bind_normal in H as (obj1 & H1 & H2).
    apply assign_key_normal in H1 as (o & x & -> & -> & _).
    right. exists o.
    destruct (IH _ H2) as [ -> | (? & ps' & [= <-] & ->) ]; eauto.
Qed.

Lemma merge_truthy src obj r :
  merge obj src = Normal r -> truthy obj = true -> truthy r = true.
Proof.
  intros H Ht. destruct (merge_shape _ _ _ H) as [ -> | (? & ? & _ & ->) ];
    [ exact Ht | reflexivity ].
Qed.

Lemma merge_target_truthy cur : truthy (merge_target cur) = true.
Proof.
  unfold merge_target. destruct cur as [ v | ]; [ | reflexivity ].
  destruct (truthy v) eqn:E; [ exact E | reflexivity ].
Qed.

(** The loop leaves alone every property the source does not name. *)
Lemma merge_props_frame ps o r :
  merge_props ps (JObj o) = Normal r ->
  exists o', r = JObj o' /\
    forall key, has_key ps key = false -> get o' key = get o key.
Proof.
  revert o. induction ps as [ | [k v] rest IH ]; intros o.
  - intros [= <-]. eauto.
  - rewrite merge_props_cons. intros H.
    apply bind_normal in H as (obj1 & H1 & H2).
    apply assign_key_normal in H1 as (o0 & x & [= <-] & -> & _).
    destruct (IH _ H2) as (o' & -> & Hframe).
    exists o'. split; [ reflexivity | ].
    intros key Hkey. rewrite has_key_cons in Hkey.
    apply Bool.orb_false_iff in Hkey as [Hk Hrest].
    rewrite (Hframe _ Hrest). apply get_put_other.
    intros ->. now rewrite String.eqb_refl in Hk.
Qed.

(** The loop adds the keys of the source to those of the target. *)
Lemma merge_props_has_key ps :
  forall o r key,
    merge_props ps (JObj o) = Normal (JObj r) ->
    has_key r key = (has_key o key || has_key ps key)%bool.
Proof.
  induction ps as [ | [k v] rest IH ]; intros o r key.
  - intros [= <-]. simpl. now rewrite Bool.orb_false_r.
  - rewrite merge_props_cons. intros H.
    apply bind_normal in H as (obj1 & H1 & H2).
    apply assign_key_normal in H1 as (o0 & x & [= <-] & -> & _).
    rewrite (IH _ _ _ H2), has_key_put, has_key_cons.
    now rewrite Bool.orb_assoc.
Qed.

Lemma unique_keys_cons k v rest :
  unique_keys (JObj ((k, v) :: rest)) = true ->
  has_key rest k = false /\ unique_keys v = true /\
  unique_keys (JObj rest) = true.
Proof.
  intros H.
  change (negb (has_key rest k) && unique_keys v && unique_keys (JObj rest)
          = true) in H.
  apply Bool.andb_true_iff in H as [H Hrest].
  apply Bool.andb_true_iff in H as [Hk Hv].
  apply Bool.negb_true_iff in Hk. auto.
Qed.

Lemma has_key_app l1 l2 key :
  has_key (l1 ++ l2) key = (has_key l1 key || has_key l2 key)%bool.
Proof.
  induction l1 as [ | [k v] rest IH ]; [ reflexivity | ].
  rewrite <- app_comm_cons, !has_key_cons. now rewrite IH, Bool.orb_assoc.
Qed.

Lemma unique_keys_snoc ps k v :
  unique_keys (JObj (ps ++ [(k, v)])) = true ->
  has_key ps k = false /\ unique_keys v = true /\
  unique_keys (JObj ps) = true.
Proof.
  induction ps as [ | [k0 x] rest IH ].
  - intros H. apply unique_keys_cons in H as (_ & Hv & _). auto.
  - rewrite <- app_comm_cons. intros H.
    apply unique_keys_cons in H as (Hk0 & Hx & Hrest).
    destruct (IH Hrest) as (Hk & Hv & Hu).
    rewrite has_key_app in Hk0.
    apply Bool.orb_false_iff in Hk0 as [Hk0 Hlast].
    simpl in Hlast. rewrite Bool.orb_false_r in Hlast.
    split; [ | split; [ exact Hv | ] ].
    + rewrite has_key_cons, Hk. rewrite String.eqb_sym in Hlast.
      now rewrite Hlast.
    + change (negb (has_key rest k0) && unique_keys x
              && unique_keys (JObj rest) = true).
      now rewrite Hk0, Hx, Hu.
Qed.

(** Once the loop has run, running one of its rounds again changes
    nothing. *)
Lemma merge_props_settled ps :
  Forall (fun kv => forall obj r,
            unique_keys (snd kv) = true ->
            merge obj (snd kv) = Normal r -> merge r (snd kv) = Normal r) ps ->
  forall obj r,
    unique_keys (JObj ps) = true ->
    merge_props ps obj = Normal r ->
    Forall (fun kv =>
              assign_key (fun child => merge child (snd kv)) r (fst kv) (snd kv)
              = Normal r) ps.
Proof.
  induction 1 as [ | [k v] rest Hv _ IH ]; intros obj r Hu Hm.
  - constructor.
  - apply unique_keys_cons in Hu as (Hk & Huv & Hur).
    rewrite merge_props_cons in Hm.
    apply bind_normal in Hm as (obj1 & H1 & H2).
    constructor; [ | now apply (IH obj1) ].
    cbn [fst snd] in *.
    apply assign_key_normal in H1 as (o & x & -> & -> & Hx).
    destruct (merge_props_frame _ _ _ H2) as (o' & -> & Hframe).
    assert (Hget : get o' k = Some x).
    { rewrite (Hframe _ Hk). apply get_put_same. }
    unfold assign_key. rewrite Hget.
    destruct (is_record v).
    + assert (Htx : truthy x = true)
        by exact (merge_truthy _ _ _ Hx (merge_target_truthy _)).
      rewrite Htx, (Hv _ _ Huv Hx). simpl.
      now rewrite (put_get_same _ _ _ Hget).
    + subst x. now rewrite (put_get_same _ _ _ Hget).
Qed.

Lemma merge_props_fixed ps r :
  Forall (fun kv =>
            assign_key (fun child => merge child (snd kv)) r (fst kv) (snd kv)
            = Normal r) ps ->
  merge_props ps r = Normal r.
Proof.
  induction 1 as [ | [k v] rest Hkv _ IH ]; [ reflexivity | ].
  rewrite merge_props_cons. cbn [fst snd] in Hkv. rewrite Hkv. exact IH.
Qed.

(** Merging the same source into the result once more changes nothing. *)
Lemma merge_idempotent src :
  forall obj r,
    unique_keys src = true ->
    merge obj src = Normal r -> merge r src = Normal r.
Proof.
  induction src as [ | b | n | | negative | s | items _ | ps IH ]
    using json_ind; intros obj r Hu Hm.
  1-5: exact eq_refl.
  - destruct s; [ reflexivity | discriminate Hm ].
  - destruct items; [ reflexivity | discriminate Hm ].
  - rewrite merge_obj in *.
    apply merge_props_fixed.
    exact (merge_props_settled ps IH obj r Hu Hm).
Qed.

(** The loop computes the deep merge, key by key. *)
Lemma merge_props_merged ps :
  forall o r,
    unique_keys (JObj ps) = true ->
    merge_props ps (JObj o) = Normal r ->
    exists o', r = JObj o' /\ forall key, merged_at o ps o' key.
Proof.
  induction ps as [ | [k v] rest IH ]; intros o r Hu Hm.
  - injection Hm as <-. exists o. split; [ reflexivity | ].
    intros key. reflexivity.
  - apply unique_keys_cons in Hu as (Hk & _ & Hur).
    rewrite merge_props_cons in Hm.
    apply bind_normal in Hm as (obj1 & H1 & H2).
    apply assign_key_normal in H1 as (o0 & x & [= <-] & -> & Hx).
    destruct (IH _ _ Hur H2) as (o' & -> & Hrest).
    destruct (merge_props_frame _ _ _ H2) as (o'' & [= <-] & Hframe).
    exists o'. split; [ reflexivity | ].
    intros key. unfold merged_at. rewrite get_cons.
    destruct (k =? key)%string eqn:E.
    + apply String.eqb_eq in E. subst key.
      assert (Hget : get o' k = Some x).
      { rewrite (Hframe _ Hk). apply get_put_same. }
      destruct v; cbn [is_record] in Hx; subst; try exact Hget.
      exists x. split; assumption.
    + specialize (Hrest key). unfold merged_at in Hrest.
      assert (Hne : k <> key).
      { intros ->. now rewrite String.eqb_refl in E. }
      rewrite (get_put_other _ _ _ _ Hne) in Hrest. exact Hrest.
Qed.

Lemma merged_at_other obj k v res key :
  k <> key -> merged_at obj [(k, v)] res key -> get res key = get obj key.
Proof.
  intros Hne. unfold merged_at. cbn [get].
  now rewrite (eqb_differ _ _ Hne).
Qed.

Lemma merged_at_record obj k sub res :
  merged_at obj [(k, JObj sub)] res k ->
  exists child,
    get res k = Some child /\
    merge (merge_target (get obj k)) (JObj sub) = Normal child.
Proof. unfold merged_at. cbn [get]. now rewrite String.eqb_refl. Qed.

Lemma merged_at_number obj k n res :
  merged_at obj [(k, JNum n)] res k -> get res k = Some (JNum n).
Proof. unfold merged_at. cbn [get]. now rewrite String.eqb_refl. Qed.

(* ----------------------------------------------------------------- *)
(** ** Merging into the copy of a result *)

(** One round of the loop on an object that differs under another key. *)
Lemma assign_key_past_put into o key v x k y :
  k <> key -> has_key o k = true \/ has_key o key = true ->
  assign_key into (JObj o) key v = Normal (JObj x) ->
  assign_key into (JObj (put o k y)) key v = Normal (JObj (put x k y)).
Proof.
  intros Hne Hk H. unfold assign_key in *.
  rewrite (get_put_other _ _ _ _ Hne).
  assert (Hswap : forall z, put (put o k y) key z = put (put o key z) k y)
    by (intros z; now apply put_swap).
  destruct (is_record v); destruct (get o key) as [ cur | ].
  - apply bind_normal in H as (z & Hz & [= <-]). rewrite Hz. simpl.
    now rewrite Hswap.
  - destruct (inherited key); [ discriminate | ].
    apply bind_normal in H as (z & Hz & [= <-]). rewrite Hz. simpl.
    now rewrite Hswap.
  - injection H as <-. now rewrite Hswap.
  - destruct (key =? "__proto__")%string; [ discriminate | ].
    injection H as <-. now rewrite Hswap.
Qed.

(** When the target has every key of the source, a write under a key the
    source does not name can be made before the loop or after it. *)
Lemma merge_props_past_put ps :
  forall o r k y,
    has_key ps k = false ->
    (forall key, has_key ps key = true -> has_key o key = true) ->
    merge_props ps (JObj o) = Normal (JObj r) ->
    merge_props ps (JObj (put o k y)) = Normal (JObj (put r k y)).
Proof.
  induction ps as [ | [key v] rest IH ]; intros o r k y Hps Hall.
  - now intros [= <-].
  - rewrite has_key_cons in Hps.
    apply Bool.orb_false_iff in Hps as [Hne Hrest].
    assert (Hdiff : k <> key).
    { intros ->. now rewrite String.eqb_refl in Hne. }
    assert (Hkey : has_key o key = true).
    { apply Hall. rewrite has_key_cons. now rewrite String.eqb_refl. }
    rewrite !merge_props_cons. intros H.
    apply bind_normal in H as (obj1 & H1 & H2).
    destruct (assign_key_normal _ _ _ _ _ H1) as (o0 & x & [= <-] & -> & _).
    rewrite (assign_key_past_put _ _ _ _ _ _ y Hdiff (or_intror Hkey) H1).
    simpl. apply IH; [ exact Hrest | | exact H2 ].
    intros key' Hin. rewrite has_key_put, Hall; [ reflexivity | ].
    rewrite has_key_cons, Hin. apply Bool.orb_true_r.
Qed.

(** The loop run on the copy of its own result restores the result, when
    it started from a value that holds no NaN and no infinity. *)
Lemma merge_props_restores ps :
  Forall (fun kv => forall obj r,
            unique_keys (snd kv) = true -> finite obj = true ->
            merge obj (snd kv) = Normal r ->
            merge (JSON_clone r) (snd kv) = Normal r) ps ->
  forall o r,
    unique_keys (JObj ps) = true ->
    finite (JObj o) = true ->
    merge_props ps (JObj o) = Normal (JObj r) ->
    merge_props ps (JObj (clone_props r)) = Normal (JObj r).
Proof.
  induction ps as [ | [k v] ps' IH ] using rev_ind; intros Hall o r Hu Ho Hm.
  - injection Hm as <-.
    change (Normal (JSON_clone (JObj o)) = Normal (JObj o)).
    now rewrite finite_clone.
  - apply Forall_app in Hall as [Hall' Hv].
    inversion Hv as [ | ? ? Hkv _ ]. subst. cbn [snd] in Hkv.
    apply unique_keys_snoc in Hu as (Hk & Huv & Hu').
    rewrite merge_props_app in Hm |- *.
    apply bind_normal in Hm as (obj1 & H1 & H2).
    destruct (merge_props_frame _ _ _ H1) as (r' & -> & Hframe).
    specialize (IH Hall' o r' Hu' Ho H1).
    rewrite merge_props_cons in H2.
    apply bind_normal in H2 as (obj2 & H2 & H3).
    injection H3 as ->.
    destruct (assign_key_normal _ _ _ _ _ H2) as (o0 & x & [= <-] & [= ->] & Hx).
    rewrite clone_put.
    rewrite (merge_props_past_put ps' (clone_props r') r' k (JSON_clone x));
      [ | exact Hk | | exact IH ].
    + cbn [bind]. rewrite merge_props_cons.
      unfold assign_key. rewrite get_put_same.
      destruct (is_record v).
      * assert (Hfinite : finite (merge_target (get r' k)) = true).
        { unfold merge_target. rewrite (Hframe _ Hk).
          destruct (get o k) as [ cur | ] eqn:E; [ | reflexivity ].
          destruct (truthy cur); [ | reflexivity ].
          exact (finite_get _ _ _ Ho E). }
        assert (Htruthy : truthy (JSON_clone x) = true).
        { destruct (merge_shape _ _ _ Hx) as [ -> | (? & ? & _ & ->) ];
            [ | reflexivity ].
          rewrite finite_clone by exact Hfinite.
          apply merge_target_truthy. }
        rewrite Htruthy, (Hkv _ _ Huv Hfinite Hx). cbn [bind merge_props].
        now rewrite put_put.
      * subst x. cbn [bind merge_props]. now rewrite put_put.
    + intros key Hin. rewrite has_key_clone.
      rewrite (merge_props_has_key _ _ _ key H1), Hin.
      apply Bool.orb_true_r.
Qed.

(** Merging the source into the copy of the result gives the result
    again. *)
Lemma merge_restores src :
  forall obj r,
    unique_keys src = true -> finite obj = true ->
    merge obj src = Normal r -> merge (JSON_clone r) src = Normal r.
Proof.
  induction src as [ | b | n | | negative | s | items _ | ps IH ]
    using json_ind; intros obj r Hu Ho Hm.
  1-7: assert (E : r = obj) by (apply (merge_leaf _ _ _) in Hm; trivial);
       subst r; now rewrite (finite_clone _ Ho).
  destruct (merge_shape _ _ _ Hm) as [ -> | (o & r' & -> & ->) ];
    [ now rewrite (finite_clone _ Ho) | ].
  rewrite JSON_clone_obj, merge_obj. rewrite merge_obj in Hm.
  exact (merge_props_restores ps IH o r' Hu Ho Hm).
Qed.

Lemma mergeConfig_idempotent target source r :
  unique_keys source = true ->
  mergeConfig target source = Normal r -> mergeConfig r source = Normal r.
Proof.
  unfold mergeConfig. intros Hu Hm.
  exact (merge_restores source _ r Hu (clone_finite target) Hm).
Qed.

(** The merge on small inputs. *)
Example merge_descends_into_objects :
  mergeConfig
    (JObj [ ("a", JNum 1); ("b", JObj [ ("c", JNum 2) ]) ])
    (JObj [ ("b", JObj [ ("d", JNum 3) ]); ("e", JArr [ JNum 1 ]) ])
  = Normal (JObj [ ("a", JNum 1);
                   ("b", JObj [ ("c", JNum 2); ("d", JNum 3) ]);
                   ("e", JArr [ JNum 1 ]) ]).
Proof. reflexivity. Qed.

Example merge_replaces_arrays_and_null :
  mergeConfig
    (JObj [ ("a", JArr [ JNum 1; JNum 2 ]); ("b", JObj [ ("c", JNum 2) ]) ])
    (JObj [ ("a", JArr [ JNum 9 ]); ("b", JNull) ])
  = Normal (JObj [ ("a", JArr [ JNum 9 ]); ("b", JNull) ]).
Proof. reflexivity. Qed.

Example merge_replaces_falsy_target :
  mergeConfig (JObj [ ("a", JNum 0) ]) (JObj [ ("a", JObj [ ("d", JNum 3) ]) ])
  = Normal (JObj [ ("a", JObj [ ("d", JNum 3) ]) ]).
Proof. reflexivity. Qed.

Example merge_into_number_raises :
  mergeConfig (JObj [ ("a", JNum 1) ]) (JObj [ ("a", JObj [ ("d", JNum 3) ]) ])
  = Throw TypeError.
Proof. reflexivity. Qed.

Example merge_empty_object_keeps_number :
  mergeConfig (JObj [ ("a", JNum 1) ]) (JObj [ ("a", JObj []) ])
  = Normal (JObj [ ("a", JNum 1) ]).
Proof. reflexivity. Qed.

(** The copy of the target loses NaN; the values of the source are stored
    as they are. *)
Example merge_copies_the_target :
  mergeConfig (JObj [ ("a", JNaN); ("b", JInfinity false) ])
              (JObj [ ("c", JNaN) ])
  = Normal (JObj [ ("a", JNull); ("b", JNull); ("c", JNaN) ]).
Proof. reflexivity. Qed.

(** A new array-index key goes ahead of the other keys. *)
Example merge_orders_index_keys :
  mergeConfig (JObj [ ("a", JNum 1); ("b", JNum 2) ])
              (JObj [ ("c", JNum 3); ("7", JNum 4); ("0", JNum 5);
                      ("01", JNum 6) ])
  = Normal (JObj [ ("0", JNum 5); ("7", JNum 4); ("a", JNum 1);
                   ("b", JNum 2); ("c", JNum 3); ("01", JNum 6) ]).
Proof. reflexivity. Qed.

Example stringify_sample :
  JSON_stringify
    (JArr [ JNum 1; JNum (-2); JNull; JBool true; JObj []; JNaN ])
  = "[1,-2,null,true,{},null]".
Proof. reflexivity. Qed.

End JsonFacts.

(* ================================================================= *)
(** * Properties of the configuration manager *)

Module ConfigProperties.
Import Json ChartConfig JsonFacts Scenarios.

Local Open Scope list_scope.

(** The compiled-in defaults hold nothing a copy would change. *)
Lemma clone_defaults : JSON_clone DEFAULT_CHART_CONFIG = DEFAULT_CHART_CONFIG.
Proof. reflexivity. Qed.

Lemma notify_fold ev d ls :
  forall w,
    fold_left (call_listener ev d) ls w
    = mkState (config w) (listeners w) (localStorage w)
              (console w ++ complaints ev d ls)
              (delivered w ++ fan_out ev d ls).
Proof.
  induction ls as [ | l rest IH ]; intros w; simpl.
  - rewrite !app_nil_r. now destruct w.
  - rewrite IH. unfold call_listener.
    destruct (react l ev d) as [ e | ]; simpl;
      now rewrite <- !app_assoc.
Qed.

Lemma notifyListeners_eq ev d w :
  notifyListeners ev d w
  = mkState (config w) (listeners w) (localStorage w)
            (console w ++ complaints ev d (listeners w))
            (delivered w ++ fan_out ev d (listeners w)).
Proof. apply notify_fold. Qed.

Lemma lookup_store_same l key value :
  lookup (store l key value) key = Some value.
Proof.
  induction l as [ | [k v] rest IH ]; simpl.
  - now rewrite String.eqb_refl.
  - destruct (k =? key)%string eqn:E; simpl; rewrite E;
      [ reflexivity | exact IH ].
Qed.

Lemma setItem_getItem s key value s' :
  setItem s key value = Some s' -> getItem s' key = Some value.
Proof.
  unfold setItem, getItem.
  destruct (used (store (items s) key value) <=? quota s)%N; [ | discriminate ].
  intros [= <-]. apply lookup_store_same.
Qed.

(** [saveConfig] when the browser takes the write, and when it does not. *)
Lemma saveConfig_stored w s :
  setItem (localStorage w) storage_key (JSON_stringify (config w)) = Some s ->
  saveConfig w
  = mkState (config w) (listeners w) s
            (console w ++ complaints "configSaved" (config w) (listeners w))
            (delivered w ++ fan_out "configSaved" (config w) (listeners w)).
Proof.
  intros H. unfold saveConfig. rewrite H. now rewrite notifyListeners_eq.
Qed.

Lemma saveConfig_refused w :
  setItem (localStorage w) storage_key (JSON_stringify (config w)) = None ->
  saveConfig w
  = mkState (config w) (listeners w) (localStorage w)
            (console w ++ [mkEntry Error "保存图表配置失败:" QuotaExceededError])
            (delivered w).
Proof. intros H. unfold saveConfig. now rewrite H. Qed.

Lemma saveConfig_config w : config (saveConfig w) = config w.
Proof.
  unfold saveConfig.
  destruct (setItem _ _ _); [ now rewrite notifyListeners_eq | reflexivity ].
Qed.

Lemma saveConfig_listeners w : listeners (saveConfig w) = listeners w.
Proof.
  unfold saveConfig.
  destruct (setItem _ _ _); [ now rewrite notifyListeners_eq | reflexivity ].
Qed.

(** [updateConfig] once the merge has produced [c]. *)
Lemma updateConfig_normal newConfig w c :
  mergeConfig (config w) newConfig = Normal c ->
  updateConfig newConfig w
  = Normal (notifyListeners "configUpdated" c (saveConfig (set_config w c))).
Proof.
  intros H. unfold updateConfig. rewrite H. simpl.
  now rewrite saveConfig_config.
Qed.

Lemma updateConfig_config newConfig w w' :
  updateConfig newConfig w = Normal w' ->
  mergeConfig (config w) newConfig = Normal (config w').
Proof.
  unfold updateConfig. intros H.
  apply bind_normal in H as (c & Hc & [= <-]).
  now rewrite notifyListeners_eq, saveConfig_config.
Qed.

(** C5.  [notifyListeners(event, data)] calls every registered listener
    exactly once, in registration order, whether or not earlier listeners
    raised: the calls made are the whole registry in order, and a listener
    added with [addListener] is called after those registered before it.
    Each exception is caught and logged with [console.error] (one line per
    raising listener, in order), and nothing else of the manager
    changes. *)
Theorem notifyListeners_calls_every_listener ev d w :
  delivered (notifyListeners ev d w)
  = delivered w ++ fan_out ev d (listeners w) /\
  console (notifyListeners ev d w)
  = console w ++ complaints ev d (listeners w) /\
  config (notifyListeners ev d w) = config w /\
  listeners (notifyListeners ev d w) = listeners w /\
  localStorage (notifyListeners ev d w) = localStorage w /\
  forall l,
    delivered (notifyListeners ev d (addListener l w))
    = delivered w ++ fan_out ev d (listeners w) ++ [mkDelivery (lid l) ev d].
Proof.
  rewrite notifyListeners_eq. simpl. repeat split.
  intros l. rewrite notifyListeners_eq. simpl.
  unfold fan_out. now rewrite map_app.
Qed.



(** C1, as the code has it.  For a config object [c] and a partial object
    [p] whose merge completes, [updateConfig(p)] makes the deep merge of
    the copy [JSON.parse(JSON.stringify(c))] and [p] the current config:
    under every key, an object of [p] is merged recursively into what the
    copy holds there (or into [{}]), any other value of [p] replaces the
    old one, and a key [p] does not name keeps the copy of its value, which
    is the value itself unless it holds NaN or an infinity.  When local
    storage takes the write, the serialised result is stored under
    ['abilityChartConfig'] and every listener is called with
    ["configSaved"] and then with ["configUpdated"]; when the write raises,
    the failure is logged, storage stays as it was, and every listener is
    still called with ["configUpdated"].  Both events carry the merged
    config. *)
Theorem updateConfig_deep_merge :
  forall w cf pf r,
    config w = JObj cf ->
    unique_keys (JObj pf) = true ->
    mergeConfig (JObj cf) (JObj pf) = Normal r ->
    exists w' rf,
      updateConfig (JObj pf) w = Normal w' /\
      config w' = r /\ r = JObj rf /\
      (forall key, merged_at (clone_props cf) pf rf key) /\
      (forall key,
          has_key pf key = false ->
          get rf key = option_map JSON_clone (get cf key)) /\
      (forall key v,
          has_key pf key = false -> get cf key = Some v -> finite v = true ->
          get rf key = Some v) /\
      match setItem (localStorage w) storage_key (JSON_stringify r) with
      | Some s =>
          localStorage w' = s /\
          getItem (localStorage w') storage_key = Some (JSON_stringify r) /\
          delivered w'
          = delivered w ++ fan_out "configSaved" r (listeners w)
                        ++ fan_out "configUpdated" r (listeners w)
      | None =>
          localStorage w' = localStorage w /\
          In (mkEntry Error "保存图表配置失败:" QuotaExceededError)
             (console w') /\
          delivered w'
          = delivered w ++ fan_out "configUpdated" r (listeners w)
      end.
Proof.
  intros w cf pf r Hc Hu Hm.
  assert (Hspec := Hm). unfold mergeConfig in Hspec.
  rewrite JSON_clone_obj, merge_obj in Hspec.
  destruct (merge_props_frame _ _ _ Hspec) as (rf & -> & Hframe).
  apply merge_props_merged in Hspec as (rf' & [= <-] & Hrf); [ | exact Hu ].
  assert (Hkept : forall key,
             has_key pf key = false ->
             get rf key = option_map JSON_clone (get cf key)).
  { intros key Hkey. now rewrite (Hframe _ Hkey), get_clone. }
  rewrite <- Hc in Hm.
  exists (notifyListeners "configUpdated" (JObj rf)
            (saveConfig (set_config w (JObj rf)))), rf.
  split; [ now apply updateConfig_normal | ].
  split; [ now rewrite notifyListeners_eq, saveConfig_config | ].
  split; [ reflexivity | ]. split; [ exact Hrf | ].
  split; [ exact Hkept | ].
  split.
  { intros key v Hkey Hv Hfinite.
    rewrite (Hkept _ Hkey), Hv. cbn [option_map].
    now rewrite finite_clone. }
  rewrite notifyListeners_eq.
  destruct (setItem (localStorage w) storage_key (JSON_stringify (JObj rf)))
    as [ s | ] eqn:Hs.
  - rewrite (saveConfig_stored _ s) by exact Hs. simpl.
    split; [ reflexivity | ].
    split; [ exact (setItem_getItem _ _ _ _ Hs) | ].
    now rewrite <- app_assoc.
  - rewrite saveConfig_refused by exact Hs. simpl.
    split; [ reflexivity | ]. split; [ | reflexivity ].
    apply in_or_app. left. apply in_or_app. right. now left.
Qed.

Lemma updateConfig_deep_merge_witness :
  exists w',
    updateConfig three_levels (page roomy) = Normal w' /\
    path (config w') ["radar"; "levels"] = Some (JNum 3) /\
    getItem (localStorage w') storage_key = Some (JSON_stringify (config w')).
Proof.
  destruct (updateConfig_deep_merge
              (page roomy) _ [ ("radar", JObj [ ("levels", JNum 3) ]) ] _
              eq_refl eq_refl eq_refl)
    as (w' & rf & Hw & Hc & _ & _ & _ & _ & Hst).
  exists w'. split; [ exact Hw | ].
  match type of Hst with
  | match ?X with _ => _ end => destruct X eqn:E
  end.
  - destruct Hst as (_ & Hget & _). rewrite Hc.
    split; [ reflexivity | exact Hget ].
  - vm_compute in E. discriminate E.
Defined.

(** C1 does not hold as the specification words it: a browser that refuses the
    write leaves nothing under ['abilityChartConfig'] although the config
    was updated. *)
Lemma updateConfig_not_always_persisted :
  exists w',
    updateConfig three_levels (page exhausted) = Normal w' /\
    path (config w') ["radar"; "levels"] = Some (JNum 3) /\
    getItem (localStorage w') storage_key = None.
Proof.
  eexists. split; [ vm_compute; reflexivity | ]. split; reflexivity.
Qed.

(** C2.  [updateConfig] is idempotent: after [updateConfig(p)] has
    completed, a second [updateConfig(p)] completes too and leaves the
    same config; at the level of the merge,
    [mergeConfig(mergeConfig(c, p), p) = mergeConfig(c, p)]. *)
Theorem updateConfig_idempotent p w w1 :
  unique_keys p = true ->
  updateConfig p w = Normal w1 ->
  (exists r,
      mergeConfig (config w) p = Normal r /\ config w1 = r /\
      mergeConfig r p = Normal r) /\
  exists w2, updateConfig p w1 = Normal w2 /\ config w2 = config w1.
Proof.
  intros Hu H1. apply updateConfig_config in H1.
  assert (H2 := mergeConfig_idempotent _ _ _ Hu H1).
  split; [ now exists (config w1) | ].
  eexists. split; [ apply updateConfig_normal; exact H2 | ].
  now rewrite notifyListeners_eq, saveConfig_config.
Qed.

Lemma updateConfig_idempotent_witness :
  exists w1 w2,
    updateConfig three_levels (page roomy) = Normal w1 /\
    updateConfig three_levels w1 = Normal w2 /\
    config w2 = config w1.
Proof.
  eexists.
  destruct (updateConfig_idempotent three_levels (page roomy) _
              eq_refl eq_refl) as (_ & w2 & H2 & Hc).
  exists w2. split; [ reflexivity | ]. split; [ exact H2 | exact Hc ].
Defined.

(** C3, as the code has it.  [updateConfig({radar: {levels: 3}})] works
    on the copy [JSON.parse(JSON.stringify(c))] of the config: every
    top-level key other than [radar] (so [chart], and with it
    [chart.width]) and every field of the [radar] object other than
    [levels] hold the copy of the value they had, which is the value itself
    whenever it holds no NaN and no infinity, and has null in their place
    otherwise; [radar.levels] is 3.  The call completes on every config
    object whose [radar] is an object, missing or falsy. *)
Theorem updateConfig_keeps_untouched_keys :
  (forall w w',
      updateConfig three_levels w = Normal w' ->
      path (config w') ["chart"; "width"]
      = option_map JSON_clone (path (config w) ["chart"; "width"]) /\
      (forall key, key <> "radar" ->
                   prop (config w') key
                   = option_map JSON_clone (prop (config w) key)) /\
      (forall fields key,
          prop (config w) "radar" = Some (JObj fields) -> key <> "levels" ->
          path (config w') ["radar"; key]
          = option_map JSON_clone (get fields key)) /\
      path (config w') ["radar"; "levels"] = Some (JNum 3) /\
      (forall keys v,
          hd_error keys <> Some "radar" -> keys <> [] ->
          path (config w) keys = Some v -> finite v = true ->
          path (config w') keys = Some v)) /\
  (forall w cf,
      config w = JObj cf ->
      match get cf "radar" with
      | Some (JObj _) | None => true
      | Some v => negb (truthy v)
      end = true ->
      exists w', updateConfig three_levels w = Normal w').
Proof.
  split.
  - intros w w' H. apply updateConfig_config in H.
    unfold mergeConfig in H. unfold three_levels in H.
    rewrite merge_obj in H.
    destruct (config w) as [ | | | | | | | cf ] eqn:Hc; try discriminate H.
    rewrite JSON_clone_obj in H.
    apply merge_props_merged in H as (rf & -> & Hat); [ | reflexivity ].
    assert (Hother : forall key,
               key <> "radar" ->
               get rf key = option_map JSON_clone (get cf key)).
    { intros key Hne. rewrite <- get_clone.
      exact (merged_at_other _ _ _ _ _ (not_eq_sym Hne) (Hat key)). }
    destruct (merged_at_record _ _ _ _ (Hat "radar")) as (child & Hchild & Hm).
    rewrite merge_obj in Hm.
    destruct (merge_target (get (clone_props cf) "radar"))
      as [ | | | | | | | o ] eqn:Ht; try discriminate Hm.
    apply merge_props_merged in Hm as (o' & -> & Hin); [ | reflexivity ].
    assert (Hlevels : get o' "levels" = Some (JNum 3)).
    { exact (merged_at_number _ _ _ _ (Hin "levels")). }
    assert (Hfields : forall key, key <> "levels" -> get o' key = get o key).
    { intros key Hne.
      exact (merged_at_other _ _ _ _ _ (not_eq_sym Hne) (Hin key)). }
    assert (Hwidth : forall keys,
               hd_error keys <> Some "radar" -> keys <> [] ->
               path (JObj rf) keys = option_map JSON_clone (path (JObj cf) keys)).
    { intros [ | key rest ] Hhd Hnil; [ contradiction | ].
      cbn [path prop]. rewrite Hother by (intros ->; now apply Hhd).
      destruct (get cf key) as [ x | ]; [ apply path_clone | reflexivity ]. }
    split; [ apply Hwidth; discriminate | ].
    split; [ exact Hother | ]. split; [ | split ].
    + intros fields key Hr Hne. cbn [path prop]. rewrite Hchild. cbn [prop].
      cbn [prop] in Hr. rewrite get_clone, Hr in Ht.
      cbn [option_map merge_target JSON_clone truthy] in Ht.
      injection Ht as <-. rewrite (Hfields _ Hne), get_clone.
      now destruct (get fields key).
    + cbn [path prop]. rewrite Hchild. cbn [prop]. now rewrite Hlevels.
    + intros keys v Hhd Hnil Hv Hfinite.
      rewrite (Hwidth keys Hhd Hnil), Hv. cbn [option_map].
      now rewrite finite_clone.
  - intros w cf Hc Hr.
    assert (Hinner : forall o, exists child,
               merge (JObj o) (JObj [ ("levels", JNum 3) ]) = Normal child).
    { intros o. rewrite merge_obj, merge_props_cons.
      unfold assign_key. cbn [is_record].
      destruct (get o "levels"); eexists; reflexivity. }
    assert (Hmerge : exists c, mergeConfig (config w) three_levels = Normal c).
    { unfold mergeConfig. rewrite Hc, JSON_clone_obj.
      unfold three_levels. rewrite merge_obj, merge_props_cons.
      unfold assign_key at 1. cbn [is_record]. rewrite get_clone.
      destruct (get cf "radar") as [ v | ]; cbn [option_map].
      - assert (Ht : exists o,
                   (if truthy (JSON_clone v) then JSON_clone v else JObj [])
                   = JObj o).
        { destruct v; cbn [truthy negb JSON_clone] in Hr |- *;
            try discriminate Hr;
            try (apply Bool.negb_true_iff in Hr; rewrite Hr);
            eexists; reflexivity. }
        destruct Ht as (o & ->). destruct (Hinner o) as (child & ->).
        eexists. reflexivity.
      - change (inherited "radar") with false. cbv iota.
        destruct (Hinner []) as (child & ->). eexists. reflexivity. }
    destruct Hmerge as (c & Hm). eexists. exact (updateConfig_normal _ _ _ Hm).
Qed.

Lemma updateConfig_keeps_untouched_keys_witness :
  exists w',
    updateConfig three_levels (page roomy) = Normal w' /\
    path (config w') ["chart"; "width"] = Some (JNum 400) /\
    path (config w') ["radar"; "maxValue"] = Some (JNum 100) /\
    path (config w') ["radar"; "levels"] = Some (JNum 3).
Proof.
  destruct updateConfig_keeps_untouched_keys as (Hframe & Htotal).
  destruct (Htotal (page roomy) _ eq_refl eq_refl) as (w' & Hw).
  destruct (Hframe _ _ Hw) as (Hwidth & _ & Hradar & Hlevels & _).
  exists w'. split; [ exact Hw | ].
  split; [ rewrite Hwidth; reflexivity | ].
  split; [ | exact Hlevels ].
  rewrite (Hradar _ "maxValue" eq_refl); [ reflexivity | discriminate ].
Defined.

(** C3 does not hold as the specification words it: a config that holds NaN
    under [chart.width] (what the settings panel stores for an emptied
    width field) has null there after
    [updateConfig({radar: {levels: 3}})]. *)
Lemma updateConfig_turns_NaN_into_null :
  exists w w',
    updateConfig (JObj [ ("chart", JObj [ ("width", JNaN) ]) ]) (page roomy)
    = Normal w /\
    path (config w) ["chart"; "width"] = Some JNaN /\
    updateConfig three_levels w = Normal w' /\
    path (config w') ["chart"; "width"] = Some JNull.
Proof.
  eexists. eexists.
  split; [ vm_compute; reflexivity | ].
  split; [ reflexivity | ].
  split; [ vm_compute; reflexivity | reflexivity ].
Qed.

(** C4, as the code has it.  After any sequence of [updateConfig],
    [applyTheme] and [importConfig] calls, [resetConfig()] leaves the
    current config equal to [DEFAULT_CHART_CONFIG] and calls every listener
    with ["configReset"] and the defaults.  When local storage takes the
    write, the serialised defaults are stored under ['abilityChartConfig']
    (and every listener is called with ["configSaved"] first); when the
    write raises, the failure is logged and storage stays as it was. *)
Theorem resetConfig_restores_defaults JSON_parse ms w0 w :
  run JSON_parse ms w0 = Normal w ->
  config (resetConfig w) = DEFAULT_CHART_CONFIG /\
  listeners (resetConfig w) = listeners w /\
  match setItem (localStorage w) storage_key
          (JSON_stringify DEFAULT_CHART_CONFIG) with
  | Some s =>
      localStorage (resetConfig w) = s /\
      getItem (localStorage (resetConfig w)) storage_key
      = Some (JSON_stringify DEFAULT_CHART_CONFIG) /\
      delivered (resetConfig w)
      = delivered w
          ++ fan_out "configSaved" DEFAULT_CHART_CONFIG (listeners w)
          ++ fan_out "configReset" DEFAULT_CHART_CONFIG (listeners w)
  | None =>
      localStorage (resetConfig w) = localStorage w /\
      In (mkEntry Error "保存图表配置失败:" QuotaExceededError)
         (console (resetConfig w)) /\
      delivered (resetConfig w)
      = delivered w
          ++ fan_out "configReset" DEFAULT_CHART_CONFIG (listeners w)
  end.
Proof.
  intros _.
  unfold resetConfig. rewrite clone_defaults, notifyListeners_eq.
  rewrite saveConfig_config, saveConfig_listeners.
  split; [ reflexivity | ]. split; [ reflexivity | ].
  destruct (setItem (localStorage w) storage_key
              (JSON_stringify DEFAULT_CHART_CONFIG)) as [ s | ] eqn:Hs.
  - rewrite (saveConfig_stored _ s) by exact Hs. simpl.
    split; [ reflexivity | ].
    split; [ exact (setItem_getItem _ _ _ _ Hs) | ].
    now rewrite <- app_assoc.
  - rewrite saveConfig_refused by exact Hs. simpl.
    split; [ reflexivity | ]. split; [ | reflexivity ].
    apply in_or_app. left. apply in_or_app. right. now left.
Qed.

Lemma resetConfig_restores_defaults_witness :
  exists w,
    run (fun _ => None)
        [ Update three_levels; ApplyTheme "light"; ImportText "{" ]
        (page roomy) = Normal w /\
    path (config w) ["radar"; "levels"] = Some (JNum 3) /\
    config (resetConfig w) = DEFAULT_CHART_CONFIG.
Proof.
  eexists. split; [ vm_compute; reflexivity | ].
  split; [ reflexivity | ].
  eapply (resetConfig_restores_defaults (fun _ => None)
            [ Update three_levels; ApplyTheme "light"; ImportText "{" ]
            (page roomy)).
  vm_compute. reflexivity.
Defined.

(** C4 does not hold as the specification words it: in a browser that refuses the
    write, [resetConfig] restores the defaults in memory but persists
    nothing. *)
Lemma resetConfig_not_always_persisted :
  config (resetConfig (page exhausted)) = DEFAULT_CHART_CONFIG /\
  getItem (localStorage (resetConfig (page exhausted))) storage_key = None.
Proof. split; reflexivity. Qed.

(** C6, as the code has it.  For a theme name that is neither a key of
    [config.themes] nor a member inherited from [Object.prototype],
    [applyTheme(name)] does nothing at all: the config, local storage, the
    listener history and the console are as before, so no warning is
    written.  For a key of [config.themes] with a truthy value, the theme
    is deep-merged into the current config. *)
Theorem applyTheme_unknown_changes_nothing :
  (forall themeName w ps themes,
      config w = JObj ps ->
      get ps "themes" = Some (JObj themes) ->
      get themes themeName = None ->
      inherited themeName = false ->
      applyTheme themeName w = Normal w) /\
  (forall themeName w ps themes theme c,
      config w = JObj ps ->
      get ps "themes" = Some (JObj themes) ->
      get themes themeName = Some theme ->
      truthy theme = true ->
      mergeConfig (config w) theme = Normal c ->
      exists w', applyTheme themeName w = Normal w' /\ config w' = c).
Proof.
  split.
  - intros themeName w ps themes Hc Ht Hn Hi.
    unfold applyTheme. now rewrite Hc, Ht, Hn, Hi.
  - intros themeName w ps themes theme c Hc Ht Hn Htr Hm.
    unfold applyTheme. rewrite Hc, Ht, Hn, Htr.
    unfold apply_overrides. rewrite Hm. simpl.
    eexists. split; [ reflexivity | ].
    now rewrite notifyListeners_eq, saveConfig_config.
Qed.

Lemma applyTheme_unknown_changes_nothing_witness :
  applyTheme "neon" (page roomy) = Normal (page roomy) /\
  exists w',
    applyTheme "light" (page roomy) = Normal w' /\
    path (config w') ["chart"; "backgroundColor"] = Some (JStr "#ffffff").
Proof.
  destruct applyTheme_unknown_changes_nothing as (Hunknown & Hknown).
  split.
  - exact (Hunknown "neon" (page roomy) _ _ eq_refl eq_refl eq_refl eq_refl).
  - destruct (Hknown "light" (page roomy) _ _ _ _
                eq_refl eq_refl eq_refl eq_refl eq_refl) as (w' & Hw & Hc).
    exists w'. split; [ exact Hw | ]. rewrite Hc. reflexivity.
Defined.

(** C6 does not hold as the specification words it: applying an unknown theme
    writes nothing to the console. *)
Lemma applyTheme_unknown_no_warning :
  exists w',
    applyTheme "neon" (page roomy) = Normal w' /\
    console w' = console (page roomy) /\ console w' = [].
Proof. eexists. split; [ reflexivity | ]. split; reflexivity. Qed.

End ConfigProperties.

(* ================================================================= *)
(** * Properties of the radar chart *)

Module RadarProperties.
Import Radar Scenarios.

Local Open Scope R_scope.
Local Open Scope list_scope.

(** [forEach((x, index) => ...)] visits the indices 0, 1, ... in order. *)
Lemma map_indexed_from {A B : Type} (g : nat -> B) (l : list A) :
  forall start,
    map (fun ia : nat * A => g (fst ia)) (combine (seq start (length l)) l)
    = map g (seq start (length l)).
Proof.
  induction l as [ | x rest IH ]; intros start; simpl; [ reflexivity | ].
  now rewrite IH.
Qed.

Lemma indexed_length {A : Type} (l : list A) : length (indexed l) = length l.
Proof.
  unfold indexed. rewrite length_combine, length_seq. apply Nat.min_id.
Qed.

Lemma abilities_length config :
  length (abilities config)
  = length (match labels config with Some l => l | None => fallback_labels end).
Proof. unfold abilities. now rewrite length_map, indexed_length. Qed.

Lemma drawAxes_directions abs cx cy r :
  map direction (drawAxes abs cx cy r)
  = map (angle (length abs)) (seq 0 (length abs)).
Proof.
  unfold drawAxes, indexed. rewrite map_map.
  rewrite <- (map_indexed_from (angle (length abs)) abs 0).
  apply map_ext. now intros [index a].
Qed.

Lemma drawAxes_tips abs cx cy r :
  map tip (drawAxes abs cx cy r)
  = map (fun i => polar cx cy (angle (length abs) i) r) (seq 0 (length abs)).
Proof.
  unfold drawAxes, indexed. rewrite map_map.
  rewrite <- (map_indexed_from
                (fun i => polar cx cy (angle (length abs) i) r) abs 0).
  apply map_ext. now intros [index a].
Qed.

Lemma angle_step n i :
  (0 < n)%nat -> angle n (S i) - angle n i = 2 * PI / INR n.
Proof.
  intros Hn. unfold angle. rewrite S_INR.
  assert (INR n <> 0) by (apply not_0_INR; lia).
  field. assumption.
Qed.

(** C7.  The chart draws one spoke per ability, from the centre to the
    point at distance [radius] in direction [i * 2π/n − π/2] for the
    [i]-th of [n] abilities, and the grid polygons have their corners on
    the same directions.  Consecutive directions differ by exactly [2π/n].
    With three labels there are exactly three spokes, at −90°, 30° and
    150°. *)
Theorem axes_evenly_spaced :
  (forall abs cx cy r,
      map direction (drawAxes abs cx cy r)
      = map (fun i => INR i * (2 * PI / INR (length abs)) - PI / 2)
            (seq 0 (length abs)) /\
      map tip (drawAxes abs cx cy r)
      = map (fun i => polar cx cy (angle (length abs) i) r)
            (seq 0 (length abs)) /\
      forall levels ring,
        In ring (drawGrid abs levels cx cy r) ->
        exists dist,
          ring = map (fun j => polar cx cy (angle (length abs) j) dist)
                     (seq 0 (length abs))) /\
  (forall n i, (0 < n)%nat -> angle n (S i) - angle n i = 2 * PI / INR n) /\
  (forall config a b c cx cy r,
      labels config = Some [a; b; c] ->
      map (fun ax => degrees (direction ax))
          (drawAxes (abilities config) cx cy r)
      = [-90; 30; 150]).
Proof.
  split; [ | split ].
  - intros abs cx cy r. split; [ | split ].
    + rewrite drawAxes_directions. apply map_ext. intros i.
      unfold angle, Rdiv. ring.
    + apply drawAxes_tips.
    + intros levels ring Hin. unfold drawGrid in Hin.
      apply in_map_iff in Hin as (i & <- & _). eexists. reflexivity.
  - exact angle_step.
  - intros config a b c cx cy r Hl.
    rewrite <- map_map, drawAxes_directions, abilities_length, Hl.
    simpl. unfold degrees, angle. simpl INR.
    repeat f_equal; field; apply PI_neq0.
Qed.

Lemma axes_evenly_spaced_witness :
  angle 6 1 - angle 6 0 = 2 * PI / INR 6 /\
  map (fun ax => degrees (direction ax))
      (drawAxes (abilities (mkChartConfig (Some ["A"; "B"; "C"]%string)
                                          true 2000))
                200 200 140)
  = [-90; 30; 150].
Proof.
  destruct axes_evenly_spaced as (_ & Hstep & Hthree).
  split.
  - apply Hstep. lia.
  - exact (Hthree (mkChartConfig (Some ["A"; "B"; "C"]%string) true 2000)
                  _ _ _ 200 200 140 eq_refl).
Defined.

(* ----------------------------------------------------------------- *)
(** ** Entry animation *)

Lemma easeOutCubic_unit t : 0 <= t <= 1 -> 0 <= easeOutCubic t <= 1.
Proof.
  intros Ht. unfold easeOutCubic.
  assert (H0 : 0 <= (1 - t) ^ 3) by (apply pow_le; lra).
  assert (H1 : (1 - t) ^ 3 <= 1 ^ 3) by (apply pow_incr; lra).
  rewrite pow1 in H1. lra.
Qed.

(** One frame callback: the progress does not go down, stays within
    [0, 1], is exactly 1 as soon as the animation is over, and the next
    frame is requested only while it is not over. *)
Lemma animate_in_flight t s :
  in_flight s ->
  animationProgress s <= animationProgress (fst (animate t s)) <= 1 /\
  (isAnimating (fst (animate t s)) = false ->
   animationProgress (fst (animate t s)) = 1) /\
  match snd (animate t s) with
  | Drew shown => 0 <= shown <= 1
  | Skipped => True
  end /\
  (rescheduled (fst (animate t s)) (snd (animate t s)) = true ->
   in_flight (fst (animate t s))).
Proof.
  intros (Hspeed & Hp & Hanim). unfold animate, in_flight.
  destruct (Rlt_dec (t - lastTime s) 16.67) as [ Hskip | Hdraw ]; simpl.
  - repeat split; try lra; try assumption. congruence.
  - assert (Hstep : 0 < animationSpeed s * ((t - lastTime s) / 16.67)).
    { apply Rmult_lt_0_compat; [ exact Hspeed | lra ]. }
    destruct (Rge_dec
                (animationProgress s
                 + animationSpeed s * ((t - lastTime s) / 16.67)) 1)
      as [ Hdone | Hmore ]; simpl.
    + repeat split; try lra; try discriminate;
        apply easeOutCubic_unit; lra.
    + repeat split; try lra; try assumption; try congruence;
        apply easeOutCubic_unit; lra.
Qed.

Lemma frames_cons t rest s :
  frames (t :: rest) s
  = animate t s
      :: (if rescheduled (fst (animate t s)) (snd (animate t s))
          then frames rest (fst (animate t s)) else []).
Proof. simpl. now destruct (animate t s). Qed.

Lemma frames_in_flight ts :
  forall s,
    in_flight s ->
    Sorted Rle (animationProgress s
                :: map (fun sf => animationProgress (fst sf)) (frames ts s)) /\
    Forall (fun sf =>
              0 <= animationProgress (fst sf) <= 1 /\
              (isAnimating (fst sf) = false ->
               animationProgress (fst sf) = 1) /\
              match snd sf with
              | Drew shown => 0 <= shown <= 1
              | Skipped => True
              end) (frames ts s).
Proof.
  induction ts as [ | t rest IH ]; intros s Hs.
  - split; [ | apply Forall_nil ].
    apply Sorted_cons; [ apply Sorted_nil | apply HdRel_nil ].
  - rewrite frames_cons.
    destruct (animate_in_flight t s Hs) as (Hle & Hend & Hshown & Hnext).
    assert (Hp : 0 <= animationProgress s) by (destruct Hs as (_ & ? & _); lra).
    destruct (rescheduled (fst (animate t s)) (snd (animate t s))).
    + destruct (IH _ (Hnext eq_refl)) as (Hsorted & Hall).
      split.
      * cbn [map]. apply Sorted_cons; [ exact Hsorted | ].
        apply HdRel_cons. apply Hle.
      * apply Forall_cons; [ | exact Hall ].
        split; [ lra | ]. split; assumption.
    + split.
      * cbn [map]. apply Sorted_cons.
        -- apply Sorted_cons; [ apply Sorted_nil | apply HdRel_nil ].
        -- apply HdRel_cons. apply Hle.
      * apply Forall_cons; [ | apply Forall_nil ].
        split; [ lra | ]. split; assumption.
Qed.

Lemma startAnimation_in_flight config now start :
  0 < updateDuration config ->
  startAnimation config now false = Some start ->
  in_flight start /\ animationProgress start = 0.
Proof.
  intros Hd. unfold startAnimation.
  destruct (false || negb (enableEntryAnimation config)); [ discriminate | ].
  intros [= <-]. unfold in_flight. simpl.
  assert (Hduration : duration config = updateDuration config).
  { unfold duration. destruct (Req_dec_T (updateDuration config) 0); lra. }
  rewrite Hduration. repeat split; try lra.
  apply Rdiv_lt_0_compat; lra.
Qed.

(** C8.  With a positive configured duration, [animationProgress] starts
    at 0 and, from one frame callback of the animation to the next, never
    goes down and never exceeds 1; the progress the chart is drawn with
    stays within [0, 1] as well.  A frame whose increment takes the
    progress to 1 or beyond sets it to exactly 1 and ends the animation,
    and an animation that has ended stands at exactly 1. *)
Theorem animation_progress_monotone :
  (forall config now start ts,
      0 < updateDuration config ->
      startAnimation config now false = Some start ->
      animationProgress start = 0 /\
      Sorted Rle (animationProgress start
                  :: map (fun sf => animationProgress (fst sf))
                         (frames ts start)) /\
      Forall (fun sf =>
                0 <= animationProgress (fst sf) <= 1 /\
                (isAnimating (fst sf) = false ->
                 animationProgress (fst sf) = 1) /\
                match snd sf with
                | Drew shown => 0 <= shown <= 1
                | Skipped => True
                end) (frames ts start)) /\
  (forall t s,
      ~ t - lastTime s < 16.67 ->
      animationProgress s + animationSpeed s * ((t - lastTime s) / 16.67)
      >= 1 ->
      animationProgress (fst (animate t s)) = 1 /\
      isAnimating (fst (animate t s)) = false /\
      rescheduled (fst (animate t s)) (snd (animate t s)) = false).
Proof.
  split.
  - intros config now start ts Hd Hstart.
    destruct (startAnimation_in_flight _ _ _ Hd Hstart) as (Hs & H0).
    split; [ exact H0 | ]. now apply frames_in_flight.
  - intros t s Hdraw Hdone. unfold animate.
    destruct (Rlt_dec (t - lastTime s) 16.67); [ contradiction | ].
    destruct (Rge_dec _ 1); [ | contradiction ].
    simpl. auto.
Qed.

Lemma animation_progress_monotone_witness :
  Sorted Rle
    (0 :: map (fun sf => animationProgress (fst sf))
              (frames [10; 20; 1000; 3000]
                      (mkAnimation 0 true (1 / (2000 * 60 / 1000)) 0))) /\
  animationProgress (fst (animate 20 (mkAnimation 0.99 true 1 0))) = 1.
Proof.
  destruct animation_progress_monotone as (Hrun & Hclamp).
  split.
  - destruct (Hrun (mkChartConfig None true 2000) 0
                   (mkAnimation 0 true (1 / (2000 * 60 / 1000)) 0)
                   [10; 20; 1000; 3000]) as (_ & Hsorted & _).
    + simpl. lra.
    + unfold startAnimation, duration. simpl.
      destruct (Req_dec_T 2000 0); [ lra | reflexivity ].
    + exact Hsorted.
  - apply (Hclamp 20 (mkAnimation 0.99 true 1 0)); simpl; lra.
Defined.

(* ----------------------------------------------------------------- *)
(** ** Hover hit-testing *)

Lemma distance_dist_euc p q :
  distance p q = dist_euc (fst p) (snd p) (fst q) (snd q).
Proof. unfold distance, dist_euc, Rsqr. f_equal. ring. Qed.

Lemma distance_triangle p q r : distance p q <= distance p r + distance r q.
Proof. rewrite !distance_dist_euc. apply triangle. Qed.

Lemma distance_sym p q : distance p q = distance q p.
Proof. rewrite !distance_dist_euc. apply distance_symm. Qed.

Lemma in_indexed_from {A : Type} (l : list A) :
  forall start i a,
    In (i, a) (combine (seq start (length l)) l)
    <-> (start <= i)%nat /\ nth_error l (i - start) = Some a.
Proof.
  induction l as [ | x rest IH ]; intros start i a; simpl.
  - split; [ contradiction | ]. intros (_ & H).
    now destruct (i - start)%nat.
  - rewrite IH. split.
    + intros [ [= <- <-] | (Hle & Hnth) ].
      * rewrite Nat.sub_diag. split; [ lia | reflexivity ].
      * split; [ lia | ].
        replace (i - start)%nat with (S (i - S start)) by lia. exact Hnth.
    + intros (Hle & Hnth).
      destruct (i - start)%nat as [ | k ] eqn:E.
      * left. injection Hnth as <-. f_equal. lia.
      * right. split; [ lia | ].
        replace (i - S start)%nat with k by lia. exact Hnth.
Qed.

Lemma in_indexed {A : Type} (l : list A) i a :
  In (i, a) (indexed l) <-> nth_error l i = Some a.
Proof.
  unfold indexed. rewrite in_indexed_from, Nat.sub_0_r.
  split; [ now intros (_ & H) | intros H; split; [ lia | exact H ] ].
Qed.

Lemma hit_near c n mousePos acc x :
  distance mousePos (vertex c n (fst x) (snd x)) <= 15 ->
  hit c n mousePos acc x = Z.of_nat (fst x).
Proof.
  intros H. unfold hit.
  destruct (Rle_dec _ 15); [ reflexivity | contradiction ].
Qed.

Lemma hit_far c n mousePos acc x :
  ~ distance mousePos (vertex c n (fst x) (snd x)) <= 15 ->
  hit c n mousePos acc x = acc.
Proof.
  intros H. unfold hit.
  destruct (Rle_dec _ 15); [ contradiction | reflexivity ].
Qed.

(** No vertex within reach: [newHoveredIndex] keeps its initial value. *)
Lemma hit_fold_none c n mousePos l :
  (forall ia, In ia l ->
              ~ distance mousePos (vertex c n (fst ia) (snd ia)) <= 15) ->
  forall acc, fold_left (hit c n mousePos) l acc = acc.
Proof.
  induction l as [ | x rest IH ]; intros Hnone acc; simpl; [ reflexivity | ].
  rewrite hit_far by (apply Hnone; now left).
  apply IH. intros ia Hin. apply Hnone. now right.
Qed.

(** The last vertex within reach wins; when all vertices within reach
    carry the same index, that index is the result. *)
Lemma hit_fold c n mousePos i0 l :
  (forall ia, In ia l ->
              distance mousePos (vertex c n (fst ia) (snd ia)) <= 15 ->
              fst ia = i0) ->
  forall acc,
    fold_left (hit c n mousePos) l acc = Z.of_nat i0 \/
    forall ia, In ia l ->
               ~ distance mousePos (vertex c n (fst ia) (snd ia)) <= 15.
Proof.
  induction l as [ | x rest IH ]; intros Hsame acc; simpl.
  - right. contradiction.
  - assert (Hrest : forall ia, In ia rest ->
              distance mousePos (vertex c n (fst ia) (snd ia)) <= 15 ->
              fst ia = i0).
    { intros ia Hin. apply Hsame. now right. }
    destruct (Rle_dec (distance mousePos (vertex c n (fst x) (snd x))) 15)
      as [ Hnear | Hfar ].
    + left. rewrite (hit_near _ _ _ _ _ Hnear).
      rewrite (Hsame x (or_introl eq_refl) Hnear).
      destruct (IH Hrest (Z.of_nat i0)) as [ H | Hnone ]; [ exact H | ].
      now apply hit_fold_none.
    + rewrite (hit_far _ _ _ _ _ Hfar).
      destruct (IH Hrest acc) as [ H | Hnone ]; [ now left | ].
      right. intros ia [ <- | Hin ]; [ exact Hfar | now apply Hnone ].
Qed.

Lemma detectHover_index c abs mousePos hoveredIndex :
  fst (detectHover c abs mousePos hoveredIndex)
  = newHoveredIndex c abs mousePos.
Proof.
  unfold detectHover.
  destruct (Z.eqb_spec (newHoveredIndex c abs mousePos) hoveredIndex);
    simpl; congruence.
Qed.

(** C9.  When any two distinct vertices of the chart are more than 30px
    apart, a pointer within 15px of vertex [i] makes [detectHover] select
    [i] (and so no other vertex); a pointer farther than 15px from every
    vertex makes it select none: [hoveredIndex] becomes −1. *)
Theorem detectHover_selects_the_near_vertex c abs mousePos hoveredIndex :
  (forall i j a b,
      nth_error abs i = Some a -> nth_error abs j = Some b -> i <> j ->
      distance (vertex c (length abs) i a) (vertex c (length abs) j b) > 30) ->
  (forall i a,
      nth_error abs i = Some a ->
      distance mousePos (vertex c (length abs) i a) <= 15 ->
      fst (detectHover c abs mousePos hoveredIndex) = Z.of_nat i) /\
  ((forall i a,
       nth_error abs i = Some a ->
       distance mousePos (vertex c (length abs) i a) > 15) ->
   fst (detectHover c abs mousePos hoveredIndex) = (-1)%Z).
Proof.
  intros Hapart. rewrite detectHover_index. unfold newHoveredIndex. split.
  - intros i a Hi Hnear.
    destruct (hit_fold c (length abs) mousePos i (indexed abs))
      with (acc := (-1)%Z) as [ H | Hnone ].
    + intros [j b] Hin Hj. simpl in *. apply in_indexed in Hin.
      destruct (Nat.eq_dec j i) as [ E | Hne ]; [ exact E | exfalso ].
      specialize (Hapart j i b a Hin Hi Hne).
      pose proof (distance_triangle (vertex c (length abs) j b)
                    (vertex c (length abs) i a) mousePos) as Htri.
      rewrite (distance_sym (vertex c (length abs) j b) mousePos) in Htri.
      lra.
    + exact H.
    + exfalso. apply (Hnone (i, a)); [ now apply in_indexed | exact Hnear ].
  - intros Hfar. apply hit_fold_none.
    intros [j b] Hin. simpl. apply in_indexed in Hin.
    specialize (Hfar j b Hin). lra.
Qed.

Lemma square_geometry :
  centerX square = 200 /\ centerY square = 200 /\ radius square = 140.
Proof.
  assert (Hdpr : dpr square = 1).
  { unfold dpr, square. simpl. destruct (Req_dec_T 1 0); lra. }
  unfold radius, centerX, centerY. rewrite Hdpr. simpl.
  replace (400 / 1 / 2) with 200 by lra.
  rewrite Rmin_left by lra. repeat split; lra.
Qed.

Lemma two_vertices :
  vertex square 2 0 (mkAbility "A" 92) = (200, 71.2) /\
  vertex square 2 1 (mkAbility "B" 88) = (200, 323.2).
Proof.
  destruct square_geometry as (Hx & Hy & Hr).
  unfold vertex, polar, angle. rewrite Hx, Hy, Hr. simpl.
  replace (0 * 2 * PI / (1 + 1) - PI / 2) with (- (PI / 2)) by lra.
  replace (1 * 2 * PI / (1 + 1) - PI / 2) with (PI / 2) by lra.
  rewrite cos_neg, sin_neg, cos_PI2, sin_PI2.
  split; f_equal; lra.
Qed.

Lemma distance_vertical x y1 y2 : y1 <= y2 -> distance (x, y1) (x, y2) = y2 - y1.
Proof.
  intros H. unfold distance. cbn [fst snd].
  replace ((x - x) ^ 2 + (y1 - y2) ^ 2) with ((y2 - y1) ^ 2) by ring.
  apply sqrt_pow2. lra.
Qed.

Lemma detectHover_selects_the_near_vertex_witness :
  fst (detectHover square two_abilities (200, 80) (-1)%Z) = 0%Z /\
  fst (detectHover square two_abilities (200, 200) 0%Z) = (-1)%Z.
Proof.
  destruct two_vertices as (H0 & H1).
  assert (Hapart : forall i j a b,
             nth_error two_abilities i = Some a -> nth_error two_abilities j = Some b ->
             i <> j ->
             distance (vertex square (length two_abilities) i a)
                      (vertex square (length two_abilities) j b) > 30).
  { intros [ | [ | i ] ] [ | [ | j ] ] a b Ha Hb Hne; simpl in Ha, Hb;
      try congruence; try (now destruct i); try (now destruct j);
      injection Ha as <-; injection Hb as <-; simpl length.
    - rewrite H0, H1, distance_vertical; lra.
    - rewrite H0, H1, distance_sym, distance_vertical; lra. }
  split.
  - apply (proj1 (detectHover_selects_the_near_vertex
                      square two_abilities (200, 80) (-1)%Z Hapart)
                   0%nat (mkAbility "A" 92) eq_refl).
    simpl length. rewrite H0, distance_sym, distance_vertical; lra.
  - apply (proj2 (detectHover_selects_the_near_vertex
                      square two_abilities (200, 200) 0%Z Hapart)).
    intros [ | [ | i ] ] a Ha; simpl in Ha; try (now destruct i);
      injection Ha as <-; simpl length.
    + rewrite H0, distance_sym, distance_vertical; lra.
    + rewrite H1, distance_vertical; lra.
Defined.

End RadarProperties.

(* ================================================================= *)
(** * More properties of the merge *)

Module MergeProperties.
Import Json ChartConfig ManagerExtras JsonFacts.

Local Open Scope list_scope.

Lemma get_app_absent l1 l2 key :
  has_key l1 key = false -> get (l1 ++ l2) key = get l2 key.
Proof.
  induction l1 as [ | [k v] rest IH ]; [ reflexivity | ].
  rewrite has_key_cons, <- app_comm_cons, get_cons. intros H.
  apply Bool.orb_false_iff in H as [Hk Hrest].
  rewrite Hk. now apply IH.
Qed.

Lemma unique_keys_distinct ps : unique_keys (JObj ps) = true -> distinct ps = true.
Proof.
  induction ps as [ | [k v] rest IH ]; [ reflexivity | ].
  intros H. apply unique_keys_cons in H as (Hk & _ & Hrest).
  simpl. rewrite Hk. simpl. now apply IH.
Qed.

Lemma unique_keys_values ps :
  unique_keys (JObj ps) = true ->
  Forall (fun kv => unique_keys (snd kv) = true) ps.
Proof.
  induction ps as [ | [k v] rest IH ]; [ constructor | ].
  intros H. apply unique_keys_cons in H as (_ & Hv & Hrest).
  constructor; [ exact Hv | now apply IH ].
Qed.

Lemma get_in ps key v : get ps key = Some v -> In (key, v) ps.
Proof.
  induction ps as [ | [k w] rest IH ]; [ discriminate | ].
  rewrite get_cons.
  destruct (String.eqb_spec k key) as [ -> | _ ].
  - intros [= ->]. now left.
  - intros H. right. now apply IH.
Qed.

Lemma in_has_key ps key v : In (key, v) ps -> has_key ps key = true.
Proof.
  induction ps as [ | [k w] rest IH ]; [ contradiction | ].
  rewrite has_key_cons. intros [ [= -> ->] | H ].
  - now rewrite String.eqb_refl.
  - rewrite (IH H). apply Bool.orb_true_r.
Qed.

(** With distinct keys, every property is the one its key reads. *)
Lemma in_get ps key v :
  distinct ps = true -> In (key, v) ps -> get ps key = Some v.
Proof.
  induction ps as [ | [k w] rest IH ]; [ contradiction | ].
  intros Hd. cbn [distinct] in Hd.
  apply Bool.andb_true_iff in Hd as [Hk Hrest].
  apply Bool.negb_true_iff in Hk. rewrite get_cons.
  intros [ [= -> ->] | H ].
  - now rewrite String.eqb_refl.
  - destruct (String.eqb_spec k key) as [ -> | _ ]; [ | now apply IH ].
    apply in_has_key in H. congruence.
Qed.

Lemma unique_keys_get ps key v :
  unique_keys (JObj ps) = true -> get ps key = Some v -> unique_keys v = true.
Proof.
  intros Hu Hg. apply unique_keys_values in Hu.
  rewrite Forall_forall in Hu. exact (Hu _ (get_in _ _ _ Hg)).
Qed.

Lemma keys_overwrite ps key v : map fst (overwrite ps key v) = map fst ps.
Proof.
  induction ps as [ | [k w] rest IH ]; [ reflexivity | ].
  rewrite overwrite_cons.
  destruct (k =? key)%string; simpl; [ reflexivity | now rewrite IH ].
Qed.

Lemma distinct_keys ps qs :
  map fst ps = map fst qs -> distinct ps = distinct qs.
Proof.
  revert qs. induction ps as [ | [k v] rest IH ]; intros [ | [k' v'] rest' ];
    try discriminate; [ reflexivity | ].
  simpl. intros [= -> H]. rewrite (IH _ H). f_equal. f_equal.
  clear IH. revert rest' H.
  induction rest as [ | [a x] rest IH ]; intros [ | [a' x'] rest' ];
    try discriminate; [ reflexivity | ].
  simpl. intros [= -> H]. now rewrite (IH _ H).
Qed.

Lemma distinct_insert ps key v :
  has_key ps key = false -> distinct ps = true ->
  distinct (insert ps key v) = true.
Proof.
  induction ps as [ | [k w] rest IH ]; [ reflexivity | ].
  rewrite has_key_cons, insert_cons. intros Hk Hd.
  apply Bool.orb_false_iff in Hk as [Hne Hrest].
  cbn [distinct] in Hd. apply Bool.andb_true_iff in Hd as [Hkd Hdr].
  destruct (before key k); cbn [distinct].
  - rewrite has_key_cons, Hne, Hrest, Hkd, Hdr. reflexivity.
  - rewrite has_key_insert, (IH Hrest Hdr).
    apply Bool.negb_true_iff in Hkd. rewrite Hkd.
    rewrite String.eqb_sym, Hne. reflexivity.
Qed.

Lemma distinct_put ps key v : distinct ps = true -> distinct (put ps key v) = true.
Proof.
  intros Hd. unfold put. destruct (has_key ps key) eqn:E.
  - now rewrite (distinct_keys _ ps (keys_overwrite ps key v)).
  - now apply distinct_insert.
Qed.

Lemma unique_keys_all ps :
  unique_keys (JObj ps)
  = (distinct ps && forallb (fun kv => unique_keys (snd kv)) ps)%bool.
Proof.
  induction ps as [ | [k v] rest IH ]; [ reflexivity | ].
  change (negb (has_key rest k) && unique_keys v && unique_keys (JObj rest)
          = negb (has_key rest k) && distinct rest
            && (unique_keys v && forallb (fun kv => unique_keys (snd kv)) rest)).
  rewrite IH.
  destruct (negb (has_key rest k)), (unique_keys v), (distinct rest);
    reflexivity.
Qed.

Lemma values_overwrite (P : json -> bool) ps key v :
  P v = true -> forallb (fun kv => P (snd kv)) ps = true ->
  forallb (fun kv => P (snd kv)) (overwrite ps key v) = true.
Proof.
  intros Hv. induction ps as [ | [k w] rest IH ]; [ reflexivity | ].
  rewrite overwrite_cons. cbn [forallb snd]. intros H.
  apply Bool.andb_true_iff in H as [Hw Hrest].
  destruct (k =? key)%string; cbn [forallb snd].
  - now rewrite Hv, Hrest.
  - now rewrite Hw, IH.
Qed.

Lemma values_insert (P : json -> bool) ps key v :
  P v = true -> forallb (fun kv => P (snd kv)) ps = true ->
  forallb (fun kv => P (snd kv)) (insert ps key v) = true.
Proof.
  intros Hv. induction ps as [ | [k w] rest IH ].
  - intros _. cbn [insert forallb snd]. now rewrite Hv.
  - rewrite insert_cons. cbn [forallb snd]. intros H.
    apply Bool.andb_true_iff in H as [Hw Hrest].
    destruct (before key k); cbn [forallb snd].
    + now rewrite Hv, Hw, Hrest.
    + now rewrite Hw, IH.
Qed.

Lemma unique_keys_put ps key v :
  unique_keys (JObj ps) = true -> unique_keys v = true ->
  unique_keys (JObj (put ps key v)) = true.
Proof.
  rewrite !unique_keys_all. intros Hps Hv.
  apply Bool.andb_true_iff in Hps as [Hd Hvalues].
  rewrite (distinct_put _ _ _ Hd). unfold put.
  destruct (has_key ps key).
  - now apply values_overwrite.
  - now apply values_insert.
Qed.

Lemma distinct_split pre k x post :
  distinct (pre ++ (k, x) :: post) = true ->
  has_key pre k = false /\ has_key post k = false /\
  distinct pre = true /\ distinct post = true.
Proof.
  induction pre as [ | [k0 w] rest IH ].
  - cbn [app distinct]. intros H.
    apply Bool.andb_true_iff in H as [Hk Hd].
    apply Bool.negb_true_iff in Hk. auto.
  - rewrite <- app_comm_cons. cbn [distinct]. intros H.
    apply Bool.andb_true_iff in H as [Hk0 Hd].
    apply Bool.negb_true_iff in Hk0. rewrite has_key_app in Hk0.
    apply Bool.orb_false_iff in Hk0 as [Hk0 Hlast].
    rewrite has_key_cons in Hlast.
    apply Bool.orb_false_iff in Hlast as [Hne _].
    destruct (IH Hd) as (Hpre & Hpost & Hdpre & Hdpost).
    rewrite has_key_cons, String.eqb_sym, Hne, Hpre, Hk0, Hdpre. auto.
Qed.

(* ----------------------------------------------------------------- *)
(** ** Sources the target absorbs *)

(** One round of the loop on a property the source [absorbed]. *)
Lemma assign_key_absorbed ps key v :
  absorbed (get ps key) key v ->
  assign_key (fun child => merge child v) (JObj ps) key v
  = Normal (JObj (put ps key v)).
Proof.
  unfold absorbed, assign_key.
  destruct v as [ | b | n | | negative | s | items | sub ]; cbn [is_record].
  1-7: intros H; destruct (get ps key); [ reflexivity | ];
       destruct (String.eqb_spec key "__proto__") as [ E | _ ];
       [ now elim (H eq_refl) | reflexivity ].
  intros (Hnew & Hm). unfold merge_target in Hm.
  destruct (get ps key) as [ cur | ].
  - now rewrite Hm.
  - rewrite (Hnew eq_refl). now rewrite Hm.
Qed.

(** A round for a property the target holds already, with the same value,
    changes nothing. *)
Lemma assign_key_same ps key v :
  get ps key = Some v ->
  (is_record v = true -> merge v v = Normal v) ->
  assign_key (fun child => merge child v) (JObj ps) key v = Normal (JObj ps).
Proof.
  intros Hg Hself. unfold assign_key. rewrite Hg.
  destruct (is_record v) eqn:Hrec.
  - assert (truthy v = true) as -> by (now destruct v).
    rewrite (Hself eq_refl). simpl. now rewrite (put_get_same _ _ _ Hg).
  - now rewrite (put_get_same _ _ _ Hg).
Qed.

Lemma merge_props_same ps o :
  (forall key v, In (key, v) ps ->
                 get o key = Some v /\
                 (is_record v = true -> merge v v = Normal v)) ->
  merge_props ps (JObj o) = Normal (JObj o).
Proof.
  intros H. apply merge_props_fixed. apply Forall_forall.
  intros [key v] Hin. destruct (H _ _ Hin) as (Hg & Hself).
  now apply assign_key_same.
Qed.

(** An object with distinct keys at every depth absorbs itself. *)
Lemma merge_self v :
  unique_keys v = true -> is_record v = true -> merge v v = Normal v.
Proof.
  induction v as [ | | | | | | | ps IH ] using json_ind; try discriminate.
  intros Hu _. rewrite merge_obj. apply merge_props_same.
  intros key v Hin. split.
  - apply in_get; [ now apply unique_keys_distinct | exact Hin ].
  - rewrite Forall_forall in IH. apply (IH _ Hin).
    apply unique_keys_values in Hu. rewrite Forall_forall in Hu.
    exact (Hu _ Hin).
Qed.

(** The object absorbs itself with one property rewritten. *)
Lemma merge_props_edited o key x :
  unique_keys (JObj o) = true ->
  absorbed (get o key) key x ->
  merge_props (put o key x) (JObj o) = Normal (JObj (put o key x)).
Proof.
  intros Hu Hx.
  assert (Hd : distinct (put o key x) = true)
    by (apply distinct_put; now apply unique_keys_distinct).
  assert (Hself : forall k v,
             k <> key -> In (k, v) (put o key x) ->
             get o k = Some v /\
             (is_record v = true -> merge v v = Normal v)).
  { intros k v Hne Hin. apply (in_get _ _ _ Hd) in Hin.
    rewrite get_put_other in Hin by (now apply not_eq_sym).
    split; [ exact Hin | ].
    apply merge_self. exact (unique_keys_get _ _ _ Hu Hin). }
  destruct (in_split _ _ (get_in _ _ _ (get_put_same o key x)))
    as (pre & post & Hsplit).
  rewrite Hsplit in Hd.
  destruct (distinct_split _ _ _ _ Hd) as (Hpre & Hpost & _ & _).
  rewrite Hsplit at 1. rewrite merge_props_app.
  rewrite (merge_props_same pre o).
  - cbn [bind]. rewrite merge_props_cons, (assign_key_absorbed _ _ _ Hx).
    cbn [bind]. apply merge_props_same.
    intros k v Hin.
    assert (Hne : k <> key).
    { intros ->. apply in_has_key in Hin. congruence. }
    assert (Hin' : In (k, v) (put o key x)).
    { rewrite Hsplit. apply in_or_app. right. now right. }
    destruct (Hself _ _ Hne Hin') as (Hg & Hm).
    split; [ | exact Hm ].
    now rewrite get_put_other by (now apply not_eq_sym).
  - intros k v Hin.
    assert (Hne : k <> key).
    { intros ->. apply in_has_key in Hin. congruence. }
    apply (Hself _ _ Hne). rewrite Hsplit. apply in_or_app. now left.
Qed.

(* ----------------------------------------------------------------- *)
(** ** The order of the keys *)






(** A key that is no array index is added last. *)
Lemma insert_last ps key v :
  array_index key = None -> insert ps key v = ps ++ [(key, v)].
Proof.
  intros Hkey. induction ps as [ | [k w] rest IH ]; [ reflexivity | ].
  rewrite insert_cons. unfold before. rewrite Hkey.
  now rewrite IH.
Qed.

(** Where array indices are followed by other keys, a new key joins the
    array indices or goes last. *)
Lemma put_between front :
  forall ps key v middle back,
    map fst ps = front ++ middle ++ back ->
    Forall (fun k => array_index k <> None) front ->
    hd_error middle <> None ->
    (forall k, hd_error middle = Some k -> array_index k = None) ->
    exists front' back',
      map fst (put ps key v) = front' ++ middle ++ back' /\
      Forall (fun k => array_index k <> None) front'.
Proof.
  intros ps key v middle back Hkeys Hfront Hmiddle Hhead.
  unfold put. destruct (has_key ps key).
  { rewrite keys_overwrite. eauto. }
  destruct (array_index key) as [ n | ] eqn:Hkey.
  - revert ps Hkeys.
    induction Hfront as [ | f front Hf Hrest_front IH ]; intros ps Hkeys.
    + destruct middle as [ | m middle' ]; [ contradiction | ].
      destruct ps as [ | [k w] rest ]; [ discriminate | ].
      cbn [app map fst] in Hkeys. injection Hkeys as -> Hrest.
      rewrite insert_cons. unfold before.
      rewrite Hkey, (Hhead m eq_refl).
      exists [key], back. cbn [map fst app]. rewrite Hrest.
      split; [ reflexivity | ].
      constructor; [ congruence | constructor ].
    + destruct ps as [ | [k w] rest ]; [ discriminate | ].
      cbn [app map fst] in Hkeys. injection Hkeys as -> Hrest.
      rewrite insert_cons. destruct (before key f).
      * exists (key :: f :: front), back. cbn [map fst app].
        rewrite Hrest. split; [ reflexivity | ].
        constructor; [ congruence | ]. constructor; assumption.
      * destruct (IH _ Hrest) as (front' & back' & Hk & Hall).
        exists (f :: front'), back'. cbn [map fst app]. rewrite Hk.
        split; [ reflexivity | now constructor ].
  - rewrite (insert_last _ _ _ Hkey), map_app, Hkeys.
    exists front, (back ++ [key]). cbn [map fst].
    split; [ now rewrite <- !app_assoc | exact Hfront ].
Qed.

Lemma merge_props_between ps :
  forall o r front middle back,
    map fst o = front ++ middle ++ back ->
    Forall (fun k => array_index k <> None) front ->
    hd_error middle <> None ->
    (forall k, hd_error middle = Some k -> array_index k = None) ->
    merge_props ps (JObj o) = Normal r ->
    exists o' front' back',
      r = JObj o' /\
      map fst o' = front' ++ middle ++ back' /\
      Forall (fun k => array_index k <> None) front'.
Proof.
  induction ps as [ | [k v] rest IH ];
    intros o r front middle back Hkeys Hfront Hmiddle Hhead Hm.
  - injection Hm as <-. eauto 6.
  - rewrite merge_props_cons in Hm.
    apply bind_normal in Hm as (obj1 & H1 & H2).
    apply assign_key_normal in H1 as (o0 & x & [= <-] & -> & _).
    destruct (put_between front o k x middle back Hkeys Hfront Hmiddle Hhead)
      as (front1 & back1 & Hkeys1 & Hfront1).
    exact (IH _ _ _ _ _ Hkeys1 Hfront1 Hmiddle Hhead H2).
Qed.

(* ----------------------------------------------------------------- *)
(** ** The panel's edit of a copy *)

Lemma write_key_normal c key value c' :
  write_key c key value = Normal c' ->
  exists ps,
    c = JObj ps /\ c' = JObj (put ps key value) /\
    (get ps key = None -> key <> "__proto__").
Proof.
  unfold write_key. destruct c as [ | | | | | | | ps ]; try discriminate.
  intros H. exists ps. split; [ reflexivity | ].
  destruct (get ps key).
  - injection H as <-. split; [ reflexivity | discriminate ].
  - destruct (String.eqb_spec key "__proto__"); [ discriminate | ].
    injection H as <-. auto.
Qed.

Lemma assign_path_step c key next rest value c' :
  assign_path c key (next :: rest) value = Normal c' ->
  exists ps child child',
    c = JObj ps /\ get ps key = Some child /\
    assign_path child next rest value = Normal child' /\
    c' = JObj (put ps key child').
Proof.
  cbn [assign_path]. destruct c as [ | | | | | | | ps ]; try discriminate.
  destruct (get ps key) as [ child | ] eqn:Hg;
    [ | destruct (inherited key); discriminate ].
  intros H. apply bind_normal in H as (child' & Hchild & [= <-]).
  exists ps, child, child'. auto.
Qed.

Lemma assign_path_shape rest :
  forall c key value c',
    assign_path c key rest value = Normal c' ->
    exists ps ps', c = JObj ps /\ c' = JObj ps'.
Proof.
  destruct rest as [ | next rest' ]; intros c key value c' H.
  - apply write_key_normal in H as (ps & -> & -> & _). eauto.
  - apply assign_path_step in H as (ps & child & child' & -> & _ & _ & ->).
    eauto.
Qed.

(** The copy the panel edited is absorbed by the config it was copied
    from. *)
Lemma assign_path_absorbed rest :
  forall c key value c',
    unique_keys c = true -> is_record value = false ->
    assign_path c key rest value = Normal c' ->
    merge c c' = Normal c'.
Proof.
  induction rest as [ | next rest' IH ]; intros c key value c' Hu Hv H.
  - apply write_key_normal in H as (ps & -> & -> & Hnew).
    rewrite merge_obj. apply merge_props_edited; [ exact Hu | ].
    unfold absorbed. destruct value; try discriminate; exact Hnew.
  - apply assign_path_step in H
      as (ps & child & child' & -> & Hg & Hchild & ->).
    assert (Huc := unique_keys_get _ _ _ Hu Hg).
    destruct (assign_path_shape _ _ _ _ _ Hchild) as (o & o' & -> & ->).
    rewrite merge_obj. apply merge_props_edited; [ exact Hu | ].
    rewrite Hg. split; [ discriminate | ].
    exact (IH _ _ _ _ Huc Hv Hchild).
Qed.

Lemma assign_path_reads rest :
  forall c key value c',
    assign_path c key rest value = Normal c' ->
    path c' (key :: rest) = Some value.
Proof.
  induction rest as [ | next rest' IH ]; intros c key value c' H.
  - apply write_key_normal in H as (ps & -> & -> & _).
    cbn [path prop]. now rewrite get_put_same.
  - apply assign_path_step in H
      as (ps & child & child' & -> & Hg & Hchild & ->).
    change (path (JObj (put ps key child')) (key :: next :: rest'))
      with (match get (put ps key child') key with
            | Some ch => path ch (next :: rest')
            | None => None
            end).
    rewrite get_put_same. exact (IH _ _ _ _ Hchild).
Qed.

(** Every path that leaves the edited one at some key leads where it led
    before. *)
Lemma assign_path_frame before :
  forall c key rest value c' a b after after',
    assign_path c key rest value = Normal c' ->
    key :: rest = before ++ b :: after' ->
    a <> b ->
    path c' (before ++ a :: after) = path c (before ++ a :: after).
Proof.
  induction before as [ | k0 before' IH ];
    intros c key rest value c' a b after after' H Hsplit Hne.
  - injection Hsplit as -> ->.
    assert (Hprop : prop c' a = prop c a).
    { destruct after' as [ | next rest' ].
      - apply write_key_normal in H as (ps & -> & -> & _).
        cbn [prop]. apply get_put_other. congruence.
      - apply assign_path_step in H
          as (ps & child & child' & -> & _ & _ & ->).
        cbn [prop]. apply get_put_other. congruence. }
    rewrite !app_nil_l. cbn [path]. now rewrite Hprop.
  - rewrite <- app_comm_cons in Hsplit. injection Hsplit as -> Hrest.
    destruct rest as [ | next rest' ];
      [ now destruct before' | ].
    apply assign_path_step in H
      as (ps & child & child' & -> & Hg & Hchild & ->).
    rewrite <- !app_comm_cons. cbn [path prop]. rewrite get_put_same, Hg.
    exact (IH _ _ _ _ _ _ _ after _ Hchild Hrest Hne).
Qed.

(** The edit goes through whenever the path leads through objects. *)
Lemma assign_path_completes rest :
  forall c key value ps,
    path c (removelast (key :: rest)) = Some (JObj ps) ->
    last (key :: rest) EmptyString <> "__proto__" ->
    exists c', assign_path c key rest value = Normal c'.
Proof.
  induction rest as [ | next rest' IH ]; intros c key value ps Hp Hlast.
  - simpl in Hp. injection Hp as ->. cbn [last] in Hlast.
    cbn [assign_path write_key].
    destruct (get ps key); [ eauto | ].
    destruct (String.eqb_spec key "__proto__"); [ contradiction | eauto ].
  - change (removelast (key :: next :: rest'))
      with (key :: removelast (next :: rest')) in Hp.
    change (last (key :: next :: rest') EmptyString)
      with (last (next :: rest') EmptyString) in Hlast.
    cbn [path] in Hp.
    destruct c as [ | | | | | | | o ]; try discriminate.
    cbn [prop] in Hp. cbn [assign_path].
    destruct (get o key) as [ child | ]; [ | discriminate ].
    destruct (IH child next value ps Hp Hlast) as (child' & ->).
    simpl. eauto.
Qed.

End MergeProperties.

(* ================================================================= *)
(** * More properties of the manager and the settings panel *)

Module ManagerExtraProperties.
Import Json ChartConfig ManagerExtras Scenarios.
Import JsonFacts ConfigProperties MergeProperties.

Local Open Scope list_scope.


(** A merge over the defaults keeps their eight keys together: what the
    source adds goes in front, if it is an array index, and behind
    otherwise. *)
Lemma mergeConfig_defaults_keys source r :
  mergeConfig DEFAULT_CHART_CONFIG source = Normal r ->
  exists ps front added,
    r = JObj ps /\
    map fst ps
    = front
      ++ [ "chart"; "radar"; "series"; "labels"; "interaction";
           "animation"; "responsive"; "themes" ] ++ added /\
    Forall (fun k => array_index k <> None) front.
Proof.
  unfold mergeConfig. rewrite clone_defaults. intros H.
  destruct (is_record source) eqn:Hrec.
  - destruct source as [ | | | | | | | ps ]; try discriminate.
    unfold DEFAULT_CHART_CONFIG in H. rewrite merge_obj in H.
    eapply (merge_props_between ps _ r [] _ []); [ | | | | exact H ].
    + reflexivity.
    + constructor.
    + discriminate.
    + intros k [= <-]. reflexivity.
  - apply (merge_leaf _ _ _ Hrec) in H. subst r.
    eexists. exists [], []. split; [ reflexivity | ].
    split; [ reflexivity | constructor ].
Qed.

Lemma notified_config ev d w : config (notifyListeners ev d w) = config w.
Proof. now rewrite notifyListeners_eq. Qed.


(** X1.  The settings panel's [updateConfig(path, value)]: for a value
    that is no object and a dotted path whose every proper prefix leads to
    an object of the current config, the call completes and the config
    then holds [value] itself at the path.  Every path that branches off
    the edited one leads to the JSON copy of what it led to before: to the
    same value, unless that holds a NaN or an infinity, which the copy
    has as null. *)
Theorem panel_updateConfig_edits_one_path dotted key rest value w :
  split_dots dotted = (key, rest) ->
  unique_keys (config w) = true ->
  is_record value = false ->
  (exists ps, path (config w) (removelast (key :: rest)) = Some (JObj ps)) ->
  last (key :: rest) EmptyString <> "__proto__" ->
  exists w',
    panel_updateConfig dotted value w = Normal w' /\
    path (config w') (key :: rest) = Some value /\
    (forall before a b after after',
        key :: rest = before ++ b :: after' -> a <> b ->
        path (config w') (before ++ a :: after)
        = option_map JSON_clone (path (config w) (before ++ a :: after))) /\
    (forall before a b after after' v,
        key :: rest = before ++ b :: after' -> a <> b ->
        path (config w) (before ++ a :: after) = Some v ->
        finite v = true ->
        path (config w') (before ++ a :: after) = Some v).
Proof.
  intros Hsplit Hu Hv (ps & Hp) Hlast.
  assert (Hpc : path (JSON_clone (config w)) (removelast (key :: rest))
                = Some (JObj (clone_props ps)))
    by now rewrite path_clone, Hp.
  destruct (assign_path_completes rest _ key value _ Hpc Hlast)
    as (edited & Hedit).
  assert (Huc : unique_keys (JSON_clone (config w)) = true)
    by now rewrite unique_keys_clone.
  assert (Hm : mergeConfig (config w) edited = Normal edited)
    by exact (assign_path_absorbed _ _ _ _ _ Huc Hv Hedit).
  assert (Hframe : forall before a b after after',
             key :: rest = before ++ b :: after' -> a <> b ->
             path edited (before ++ a :: after)
             = option_map JSON_clone (path (config w) (before ++ a :: after))).
  { intros before a b after after' Hk Hne.
    rewrite <- path_clone.
    exact (assign_path_frame _ _ _ _ _ _ _ _ _ _ Hedit Hk Hne). }
  exists (notifyListeners "configUpdated" edited
            (saveConfig (set_config w edited))).
  split; [ | split; [ | split ] ].
  - unfold panel_updateConfig, getConfig. rewrite Hsplit, Hedit.
    simpl. now apply updateConfig_normal.
  - rewrite notified_config, saveConfig_config. simpl.
    exact (assign_path_reads _ _ _ _ _ Hedit).
  - intros before a b after after' Hk Hne.
    rewrite notified_config, saveConfig_config. simpl.
    exact (Hframe _ _ _ _ _ Hk Hne).
  - intros before a b after after' v Hk Hne Hread Hfinite.
    rewrite notified_config, saveConfig_config. simpl.
    rewrite (Hframe _ _ _ _ _ Hk Hne), Hread. simpl.
    now rewrite (finite_clone _ Hfinite).
Qed.

Lemma panel_updateConfig_edits_one_path_witness :
  exists w',
    panel_updateConfig "radar.levels" (JNum 7) (page roomy) = Normal w' /\
    path (config w') ["radar"; "levels"] = Some (JNum 7) /\
    path (config w') ["radar"; "maxValue"] = Some (JNum 100) /\
    path (config w') ["chart"; "width"] = Some (JNum 400).
Proof.
  destruct (panel_updateConfig_edits_one_path
              "radar.levels" "radar" ["levels"] (JNum 7) (page roomy))
    as (w' & Hw & Hset & Hframe & _).
  - reflexivity.
  - reflexivity.
  - reflexivity.
  - eexists. reflexivity.
  - discriminate.
  - exists w'. split; [ exact Hw | ]. split; [ exact Hset | ]. split.
    + etransitivity; [ | reflexivity ].
      apply (Hframe ["radar"] "maxValue" "levels" [] []);
        [ reflexivity | discriminate ].
    + etransitivity; [ | reflexivity ].
      apply (Hframe [] "chart" "radar" ["width"] ["levels"]);
        [ reflexivity | discriminate ].
Defined.

(** X2.  A manager absorbs its own config: [updateConfig(getConfig())]
    completes and leaves the JSON copy of the config, which is the config
    itself when it holds no NaN and no infinity.  So does importing a text
    that parses to that copy, as the text [exportConfig()] returned does;
    the import reports success. *)
Theorem own_config_is_absorbed :
  (forall w,
      unique_keys (config w) = true -> is_record (config w) = true ->
      exists w',
        updateConfig (getConfig w) w = Normal w' /\
        config w' = JSON_clone (config w) /\
        (finite (config w) = true -> config w' = config w)) /\
  (forall JSON_parse w,
      unique_keys (config w) = true -> is_record (config w) = true ->
      JSON_parse (exportConfig w) = Some (JSON_clone (config w)) ->
      exists w',
        importConfig JSON_parse (exportConfig w) w = Normal (w', true) /\
        config w' = JSON_clone (config w) /\
        (finite (config w) = true -> config w' = config w)).
Proof.
  assert (Hself : forall w,
             unique_keys (config w) = true -> is_record (config w) = true ->
             updateConfig (JSON_clone (config w)) w
             = Normal (notifyListeners "configUpdated" (JSON_clone (config w))
                         (saveConfig (set_config w (JSON_clone (config w)))))).
  { intros w Hu Hr. apply updateConfig_normal.
    unfold mergeConfig. apply merge_self.
    - now rewrite unique_keys_clone.
    - now rewrite is_record_clone. }
  assert (Hleft : forall w,
             config (notifyListeners "configUpdated" (JSON_clone (config w))
                       (saveConfig (set_config w (JSON_clone (config w)))))
             = JSON_clone (config w))
    by (intros w; now rewrite notified_config, saveConfig_config).
  split.
  - intros w Hu Hr. unfold getConfig. rewrite (Hself w Hu Hr).
    eexists. split; [ reflexivity | ]. rewrite Hleft.
    split; [ reflexivity | apply finite_clone ].
  - intros JSON_parse w Hu Hr Hparse. unfold importConfig.
    rewrite Hparse, (Hself w Hu Hr).
    eexists. split; [ reflexivity | ]. rewrite Hleft.
    split; [ reflexivity | apply finite_clone ].
Qed.

Lemma own_config_is_absorbed_witness :
  (exists w',
      updateConfig (getConfig (page roomy)) (page roomy) = Normal w' /\
      config w' = config (page roomy)) /\
  (exists w',
      importConfig
        (fun text => if (text =? exportConfig (page roomy))%string
                     then Some (config (page roomy)) else None)
        (exportConfig (page roomy)) (page roomy) = Normal (w', true) /\
      config w' = config (page roomy)).
Proof.
  destruct own_config_is_absorbed as (Hupdate & Himport).
  split.
  - destruct (Hupdate (page roomy) eq_refl eq_refl) as (w' & Hw & _ & Hc).
    exists w'. split; [ exact Hw | now apply Hc ].
  - destruct (Himport
                (fun text => if (text =? exportConfig (page roomy))%string
                             then Some (config (page roomy)) else None)
                (page roomy) eq_refl eq_refl) as (w' & Hw & _ & Hc).
    + now rewrite String.eqb_refl.
    + exists w'. split; [ exact Hw | now apply Hc ].
Defined.

Lemma JSON_stringify_not_empty v :
  (JSON_stringify v =? EmptyString)%string = false.
Proof.
  destruct v as [ | [ | ] | n | | negative | s | items | ps ];
    try reflexivity.
  simpl. unfold number_text.
  destruct (Z.to_int n) as [ d | d ]; [ | reflexivity ].
  now destruct d.
Qed.

Lemma loadConfig_of_saved JSON_parse s out c :
  getItem s storage_key = Some (JSON_stringify c) ->
  JSON_parse (JSON_stringify c) = Some (JSON_clone c) ->
  loadConfig JSON_parse s out
  = match mergeConfig DEFAULT_CHART_CONFIG (JSON_clone c) with
    | Normal merged => Normal (merged, out)
    | Throw e =>
        Normal (JSON_clone DEFAULT_CHART_CONFIG,
                out ++ [mkEntry Warn "加载图表配置失败，使用默认配置:" e])
    | Untracked => Untracked
    end.
Proof.
  intros Hget Hparse. unfold loadConfig.
  now rewrite Hget, JSON_stringify_not_empty, Hparse.
Qed.

(** X3.  What [saveConfig] stored is what the next [loadConfig] starts
    from, for a parser that reads the stored text back as the JSON copy of
    the config: the load answers with the defaults with that copy merged
    over them, and every array or primitive at the top of the saved config
    comes back as its copy (itself, unless it holds a NaN or an infinity,
    which come back as null). *)
Theorem saved_config_is_loaded_back JSON_parse w s out :
  setItem (localStorage w) storage_key (JSON_stringify (config w)) = Some s ->
  JSON_parse (JSON_stringify (config w)) = Some (JSON_clone (config w)) ->
  localStorage (saveConfig w) = s /\
  (forall c,
      mergeConfig DEFAULT_CHART_CONFIG (JSON_clone (config w)) = Normal c ->
      loadConfig JSON_parse s out = Normal (c, out) /\
      (forall key v,
          unique_keys (config w) = true ->
          prop (config w) key = Some v -> is_record v = false ->
          prop c key = Some (JSON_clone v)) /\
      (forall key v,
          unique_keys (config w) = true ->
          prop (config w) key = Some v -> is_record v = false ->
          finite v = true ->
          prop c key = Some v)).
Proof.
  intros Hs Hparse.
  assert (Hload := loadConfig_of_saved JSON_parse s out (config w)
                     (setItem_getItem _ _ _ _ Hs) Hparse).
  split; [ now rewrite (saveConfig_stored _ s) by exact Hs | ].
  intros c Hm. rewrite Hm in Hload. split; [ exact Hload | ].
  assert (Hcopy : forall key v,
             unique_keys (config w) = true ->
             prop (config w) key = Some v -> is_record v = false ->
             prop c key = Some (JSON_clone v)).
  { intros key v Hu Hprop Hv.
    destruct (config w) as [ | | | | | | | cf ]; try discriminate.
    unfold mergeConfig in Hm.
    rewrite clone_defaults, JSON_clone_obj, merge_obj in Hm.
    unfold DEFAULT_CHART_CONFIG in Hm.
    apply merge_props_merged in Hm as (o' & -> & Hat);
      [ | rewrite <- JSON_clone_obj; now rewrite unique_keys_clone ].
    specialize (Hat key). unfold merged_at in Hat.
    cbn [prop] in Hprop |- *. rewrite get_clone, Hprop in Hat.
    cbn [option_map] in Hat.
    destruct v; try discriminate; exact Hat. }
  split; [ exact Hcopy | ].
  intros key v Hu Hprop Hv Hfinite.
  now rewrite (Hcopy key v Hu Hprop Hv), (finite_clone _ Hfinite).
Qed.

Lemma saved_config_is_loaded_back_witness :
  exists c,
    mergeConfig DEFAULT_CHART_CONFIG three_levels = Normal c /\
    loadConfig
      (fun text => if (text =? JSON_stringify c)%string then Some c else None)
      (localStorage (saveConfig (mkState c [] roomy [] []))) []
    = Normal (c, []) /\
    prop c "labels" = prop DEFAULT_CHART_CONFIG "labels".
Proof.
  eexists. split; [ vm_compute; reflexivity | ].
  match goal with
  | |- loadConfig ?parse (localStorage (saveConfig ?w)) _ = _ /\ _ =>
      destruct (saved_config_is_loaded_back parse w
                  (localStorage (saveConfig w)) [])
        as (_ & Hback)
  end.
  - vm_compute. reflexivity.
  - now rewrite String.eqb_refl.
  - match type of Hback with
    | forall c, _ = Normal c -> _ =>
        destruct (Hback _ ltac:(vm_compute; reflexivity)) as (Hload & _)
    end.
    split; [ exact Hload | reflexivity ].
Defined.

(** X4.  [loadConfig] never raises, and what it returns is an object that
    holds the eight top-level keys of the defaults next to each other and
    in their order; before them come only keys that are array indices.
    With nothing stored it returns the defaults; with a stored text that
    does not parse, or whose merge raises, it returns the defaults and
    logs one warning. *)
Theorem loadConfig_answers_with_a_config JSON_parse s out :
  (forall e, loadConfig JSON_parse s out <> Throw e) /\
  (forall c out',
      loadConfig JSON_parse s out = Normal (c, out') ->
      exists ps front added,
        c = JObj ps /\
        map fst ps
        = front
          ++ [ "chart"; "radar"; "series"; "labels"; "interaction";
               "animation"; "responsive"; "themes" ] ++ added /\
        Forall (fun k => array_index k <> None) front) /\
  (getItem s storage_key = None ->
   loadConfig JSON_parse s out = Normal (DEFAULT_CHART_CONFIG, out)) /\
  (forall text,
      getItem s storage_key = Some text -> text <> EmptyString ->
      JSON_parse text = None ->
      loadConfig JSON_parse s out
      = Normal (DEFAULT_CHART_CONFIG,
                out ++ [mkEntry Warn "加载图表配置失败，使用默认配置:"
                                SyntaxError])) /\
  (forall text saved e,
      getItem s storage_key = Some text -> text <> EmptyString ->
      JSON_parse text = Some saved ->
      mergeConfig DEFAULT_CHART_CONFIG saved = Throw e ->
      loadConfig JSON_parse s out
      = Normal (DEFAULT_CHART_CONFIG,
                out ++ [mkEntry Warn "加载图表配置失败，使用默认配置:" e])).
Proof.
  assert (Hdefault : exists ps front added,
             DEFAULT_CHART_CONFIG = JObj ps /\
             map fst ps
             = front
               ++ [ "chart"; "radar"; "series"; "labels"; "interaction";
                    "animation"; "responsive"; "themes" ] ++ added /\
             Forall (fun k => array_index k <> None) front).
  { eexists. exists [], []. split; [ reflexivity | ].
    split; [ reflexivity | constructor ]. }
  unfold loadConfig. rewrite clone_defaults.
  split; [ | split; [ | split; [ | split ] ] ].
  - intros e.
    destruct (getItem s storage_key) as [ text | ]; [ | discriminate ].
    destruct (text =? EmptyString)%string; [ discriminate | ].
    destruct (JSON_parse text) as [ saved | ]; [ | discriminate ].
    destruct (mergeConfig DEFAULT_CHART_CONFIG saved); discriminate.
  - intros c out'.
    destruct (getItem s storage_key) as [ text | ];
      [ | intros [= <- _]; exact Hdefault ].
    destruct (text =? EmptyString)%string;
      [ intros [= <- _]; exact Hdefault | ].
    destruct (JSON_parse text) as [ saved | ];
      [ | intros [= <- _]; exact Hdefault ].
    destruct (mergeConfig DEFAULT_CHART_CONFIG saved) as [ merged | e | ] eqn:Hm;
      [ | intros [= <- _]; exact Hdefault | discriminate ].
    intros [= <- _]. exact (mergeConfig_defaults_keys _ _ Hm).
  - now intros ->.
  - intros text -> Hne ->.
    destruct (String.eqb_spec text EmptyString); [ contradiction | reflexivity ].
  - intros text saved e -> Hne -> ->.
    destruct (String.eqb_spec text EmptyString); [ contradiction | reflexivity ].
Qed.

Lemma loadConfig_answers_with_a_config_witness :
  loadConfig (fun _ => None) roomy [] = Normal (DEFAULT_CHART_CONFIG, []) /\
  loadConfig (fun _ => None) (mkStorage [ (storage_key, "{") ] 100) []
  = Normal (DEFAULT_CHART_CONFIG,
            [ mkEntry Warn "加载图表配置失败，使用默认配置:" SyntaxError ]) /\
  loadConfig
    (fun _ => Some (JObj [ ("chart", JObj [ ("width", JObj [ ("min", JNum 1) ]) ]) ]))
    (mkStorage [ (storage_key, "x") ] 100) []
  = Normal (DEFAULT_CHART_CONFIG,
            [ mkEntry Warn "加载图表配置失败，使用默认配置:" TypeError ]).
Proof.
  split; [ | split ].
  - destruct (loadConfig_answers_with_a_config (fun _ => None) roomy [])
      as (_ & _ & Hnothing & _).
    now apply Hnothing.
  - destruct (loadConfig_answers_with_a_config (fun _ => None)
                (mkStorage [ (storage_key, "{") ] 100) [])
      as (_ & _ & _ & Hgarbled & _).
    apply (Hgarbled "{"); [ reflexivity | discriminate | reflexivity ].
  - destruct (loadConfig_answers_with_a_config
                (fun _ => Some (JObj [ ("chart",
                                JObj [ ("width", JObj [ ("min", JNum 1) ]) ]) ]))
                (mkStorage [ (storage_key, "x") ] 100) [])
      as (_ & _ & _ & _ & Hraises).
    eapply (Hraises "x");
      [ reflexivity | discriminate | reflexivity | reflexivity ].
Defined.



Lemma accepted_validates c :
  accepted c -> validateConfig c = Normal (mkValidation true []).
Proof.
  intros (ch & ra & se & la & Hch & Hco & Hra & Hro & Hse & Hla & Hw & Hh).
  unfold validateConfig.
  destruct c as [ | | | | | | | cf ]; try discriminate Hch.
  rewrite Hch, Hra, Hse, Hla, Hco, Hro.
  assert (truthy ch = true) as ->
    by (destruct ch; try discriminate Hco; reflexivity).
  rewrite Hw, Hh. reflexivity.
Qed.

(** [validateConfig] answers [isValid: true] exactly on the [accepted]
    configs. *)
Lemma validateConfig_accepted c :
  (exists v, validateConfig c = Normal v /\ isValid v = true)
  <-> accepted c.
Proof.
  split.
  - intros (v & Hv & Hok). unfold validateConfig in Hv.
    destruct c as [ | | | | | | | cf ]; try discriminate Hv;
      try (cbn [prop] in Hv; injection Hv as <-; discriminate Hok).
    cbn [prop] in Hv. unfold accepted. cbn [prop].
    destruct (get cf "chart") as [ ch | ];
      [ | injection Hv as <-; discriminate Hok ].
    assert (Hstructure :
              forall es,
                (when (not_an_object (Some ch)) "缺少chart配置"
                 ++ when (not_an_object (get cf "radar")) "缺少radar配置"
                 ++ when (not_an_array (get cf "series")) "series必须是数组"
                 ++ when (not_an_array (get cf "labels")) "labels必须是数组")
                ++ es = [] ->
                not_an_object (Some ch) = false /\
                (exists ra, get cf "radar" = Some ra /\
                            not_an_object (Some ra) = false) /\
                (exists se, get cf "series" = Some (JArr se)) /\
                (exists la, get cf "labels" = Some (JArr la)) /\ es = []).
    { intros es H.
      destruct ch; try discriminate H;
        (destruct (get cf "radar") as [ [ | | | | | | | ] | ];
           try discriminate H;
         destruct (get cf "series") as [ [ | | | | | | | ] | ];
           try discriminate H;
         destruct (get cf "labels") as [ [ | | | | | | | ] | ];
           try discriminate H;
         simpl in H; subst es; repeat split; eauto). }
    destruct (truthy ch) eqn:Hch.
    + apply bind_normal in Hv as (wide & Hwide & Hv).
      apply bind_normal in Hv as (tall & Htall & Hv).
      injection Hv as <-. simpl in Hok.
      match type of Hok with
      | match ?l with _ => _ end = true => destruct l eqn:E; [ | discriminate ]
      end.
      apply Hstructure in E
        as (Hc & (ra & Hra & Hro) & (se & Hse) & (la & Hla) & Hes).
      destruct wide; [ discriminate Hes | ].
      destruct tall; [ discriminate Hes | ].
      exists ch, ra, se, la. repeat split; assumption.
    + injection Hv as <-. simpl in Hok.
      match type of Hok with
      | match ?l with _ => _ end = true => destruct l eqn:E; [ | discriminate ]
      end.
      rewrite <- (app_nil_r (_ ++ _)) in E.
      apply Hstructure in E as (Hc & _).
      destruct ch; try discriminate Hc; discriminate Hch.
  - intros H. exists (mkValidation true []).
    split; [ now apply accepted_validates | reflexivity ].
Qed.

(** A value that passed the range check passes it as its copy. *)
Lemma out_of_range_clone x :
  out_of_range x = Normal false ->
  out_of_range (option_map JSON_clone x) = Normal false.
Proof.
  destruct x as [ [ | b | n | | negative | s | items | ps ] | ];
    intros H; try discriminate H; try exact H; reflexivity.
Qed.

(** The copy of an accepted config is accepted. *)
Lemma accepted_clone c : accepted c -> accepted (JSON_clone c).
Proof.
  intros (ch & ra & se & la & Hch & Hco & Hra & Hro & Hse & Hla & Hw & Hh).
  assert (Hitems : forall items, exists items',
               JSON_clone (JArr items) = JArr items')
    by (intros items; eexists; reflexivity).
  destruct (Hitems se) as (se' & Hse').
  destruct (Hitems la) as (la' & Hla').
  exists (JSON_clone ch), (JSON_clone ra), se', la'.
  rewrite !prop_clone, Hch, Hra, Hse, Hla. cbn [option_map].
  rewrite Hse', Hla'.
  repeat split.
  - destruct ch; try discriminate Hco; reflexivity.
  - destruct ra; try discriminate Hro; reflexivity.
  - now apply out_of_range_clone.
  - now apply out_of_range_clone.
Qed.

(** A value that passed the range check still passes after an object has
    been merged over it. *)
Lemma out_of_range_merged cur sub child :
  (forall x, cur = Some x -> out_of_range (Some x) = Normal false) ->
  merge (merge_target cur) (JObj sub) = Normal child ->
  out_of_range (Some child) = Normal false.
Proof.
  intros Hcur Hm.
  destruct (merge_shape _ _ _ Hm) as [ -> | (? & ? & _ & ->) ];
    [ | reflexivity ].
  unfold merge_target. destruct cur as [ x | ]; [ | reflexivity ].
  destruct (truthy x); [ now apply Hcur | reflexivity ].
Qed.

(** A dimension of the chart after a merge of two accepted charts. *)
Lemma dimension_merged o sub o' key :
  (forall k, merged_at o sub o' k) ->
  out_of_range (get o key) = Normal false ->
  out_of_range (get sub key) = Normal false ->
  out_of_range (get o' key) = Normal false.
Proof.
  intros Hat Ho Hs. specialize (Hat key). unfold merged_at in Hat.
  destruct (get sub key) as [ v | ]; [ | now rewrite Hat ].
  destruct v as [ | b | n | | negative | s | items | sub2 ];
    try (rewrite Hat; exact Hs).
  destruct Hat as (child & -> & Hm).
  apply (out_of_range_merged (get o key) sub2); [ | exact Hm ].
  intros x E. now rewrite <- E.
Qed.

(** An accepted partial merged into an accepted object gives an accepted
    object. *)
Lemma merge_accepted c p r :
  unique_keys p = true ->
  accepted c -> accepted p ->
  merge c p = Normal r ->
  accepted r.
Proof.
  intros Hu Hc Hp Hup.
  destruct Hc as (ch & ra & se & la & Hch & Hco & Hra & Hro & _ & _ & Hw & Hh).
  destruct Hp as (pch & pra & pse & pla
                  & Hpch & Hpco & Hpra & Hpro & Hpse & Hpla & Hpw & Hph).
  destruct c as [ | | | | | | | cf ]; try discriminate Hch.
  destruct p as [ | | | | | | | pf ]; try discriminate Hpch.
  rewrite merge_obj in Hup.
  apply merge_props_merged in Hup as (rf & -> & Hat); [ | exact Hu ].
  cbn [prop] in *.
  assert (Hobject : forall key cv pv,
             get cf key = Some cv -> not_an_object (Some cv) = false ->
             get pf key = Some pv -> not_an_object (Some pv) = false ->
             exists rv, get rf key = Some rv /\
                        not_an_object (Some rv) = false).
  { intros key cv pv Hcv Hcvo Hpv Hpvo.
    specialize (Hat key). unfold merged_at in Hat. rewrite Hpv, Hcv in Hat.
    destruct pv as [ | | | | | | items | sub ]; try discriminate Hpvo.
    - eauto.
    - destruct Hat as (child & Hchild & Hm). exists child.
      split; [ exact Hchild | ].
      assert (Ht : merge_target (Some cv) = cv)
        by (destruct cv; try discriminate Hcvo; reflexivity).
      rewrite Ht in Hm.
      destruct (merge_shape _ _ _ Hm) as [ -> | (? & ? & _ & ->) ];
        [ exact Hcvo | reflexivity ]. }
  destruct (Hobject "chart" ch pch Hch Hco Hpch Hpco) as (rch & Hrch & Hrco).
  destruct (Hobject "radar" ra pra Hra Hro Hpra Hpro) as (rra & Hrra & Hrro).
  exists rch, rra, pse, pla.
  assert (Harray : forall key items,
             get pf key = Some (JArr items) ->
             get rf key = Some (JArr items)).
  { intros key items Hk. specialize (Hat key). unfold merged_at in Hat.
    now rewrite Hk in Hat. }
  repeat split; try assumption; try (now apply Harray).
  all: specialize (Hat "chart"); unfold merged_at in Hat;
    rewrite Hpch, Hch in Hat;
    destruct pch as [ | | | | | | items | sub ]; try discriminate Hpco;
    [ rewrite Hrch in Hat; injection Hat as ->; reflexivity | ];
    destruct Hat as (child & Hchild & Hm);
    rewrite Hrch in Hchild; injection Hchild as <-;
    destruct ch as [ | | | | | | items | o ]; try discriminate Hco;
    cbn [merge_target truthy] in Hm;
    [ destruct (merge_shape _ _ _ Hm) as [ -> | (? & ? & [=] & _) ];
      reflexivity | ];
    rewrite merge_obj in Hm;
    apply merge_props_merged in Hm as (o' & -> & Hin);
      [ | exact (unique_keys_get _ _ _ Hu Hpch) ];
    cbn [prop] in *; now apply (dimension_merged o sub o').
Qed.

(** X6.  [updateConfig] does not validate, but it keeps a valid config
    valid when the partial is valid too: if [validateConfig] accepts the
    current config and the partial, it accepts the config any completed
    [updateConfig(partial)] leaves, with no errors. *)
Theorem valid_update_keeps_config_valid p w w' :
  unique_keys p = true ->
  accepted (config w) ->
  accepted p ->
  updateConfig p w = Normal w' ->
  validateConfig (config w') = Normal (mkValidation true []) /\
  accepted (config w').
Proof.
  intros Hu Hc Hp Hup.
  assert (Hacc : accepted (config w')).
  { apply updateConfig_config in Hup. unfold mergeConfig in Hup.
    apply (merge_accepted (JSON_clone (config w)) p);
      [ exact Hu | now apply accepted_clone | exact Hp | exact Hup ]. }
  split; [ now apply accepted_validates | exact Hacc ].
Qed.

Lemma valid_update_keeps_config_valid_witness :
  exists w',
    updateConfig
      (JObj [ ("chart", JObj [ ("width", JNum 600) ]);
              ("radar", JObj [ ("levels", JNum 3) ]);
              ("series", JArr []);
              ("labels", JArr [ JStr "A"; JStr "B"; JStr "C" ]) ])
      (page roomy) = Normal w' /\
    validateConfig (config w') = Normal (mkValidation true []).
Proof.
  eexists. split; [ vm_compute; reflexivity | ].
  apply (valid_update_keeps_config_valid
           (JObj [ ("chart", JObj [ ("width", JNum 600) ]);
                   ("radar", JObj [ ("levels", JNum 3) ]);
                   ("series", JArr []);
                   ("labels", JArr [ JStr "A"; JStr "B"; JStr "C" ]) ])
           (page roomy)).
  - reflexivity.
  - apply validateConfig_accepted. eexists.
    split; [ vm_compute; reflexivity | reflexivity ].
  - apply validateConfig_accepted. eexists.
    split; [ vm_compute; reflexivity | reflexivity ].
  - vm_compute. reflexivity.
Defined.

(** X7.  [getResponsiveConfig(screenWidth)] with numeric breakpoints: a
    width up to and including the mobile breakpoint gets the mobile
    override (also when it is within the tablet breakpoint), a width above
    it and up to and including the tablet breakpoint gets the tablet
    override, and a wider screen gets the JSON copy of the config.
    Whatever override is picked, every top-level key it does not name is
    returned as the copy of what the config has: the same value, unless it
    holds a NaN or an infinity, which the copy has as null. *)
Theorem getResponsiveConfig_picks_by_width screenWidth w responsive breakpoints
  m t :
  prop (config w) "responsive" = Some (JObj responsive) ->
  get responsive "breakpoints" = Some (JObj breakpoints) ->
  get breakpoints "mobile" = Some (JNum m) ->
  get breakpoints "tablet" = Some (JNum t) ->
  (screenWidth <= m ->
   getResponsiveConfig screenWidth w
   = mergeConfig (config w) (or_empty (get responsive "mobileConfig"))) /\
  (m < screenWidth -> screenWidth <= t ->
   getResponsiveConfig screenWidth w
   = mergeConfig (config w) (or_empty (get responsive "tabletConfig"))) /\
  (m < screenWidth -> t < screenWidth ->
   getResponsiveConfig screenWidth w = Normal (JSON_clone (config w))) /\
  (forall override r key,
      responsive_override screenWidth (config w) = Normal (JObj override) ->
      getResponsiveConfig screenWidth w = Normal r ->
      has_key override key = false ->
      prop r key = option_map JSON_clone (prop (config w) key) /\
      forall v, prop (config w) key = Some v -> finite v = true ->
                prop r key = Some v).
Proof.
  intros Hr Hb Hm Ht.
  assert (Hc : exists cf, config w = JObj cf)
    by (destruct (config w); try discriminate Hr; eauto).
  destruct Hc as (cf & Hc).
  assert (Hpick : responsive_override screenWidth (config w)
                  = if screenWidth <=? m
                    then Normal (or_empty (get responsive "mobileConfig"))
                    else if screenWidth <=? t
                         then Normal (or_empty (get responsive "tabletConfig"))
                         else Normal (JObj [])).
  { unfold responsive_override.
    rewrite Hc in Hr |- *. cbn [prop] in Hr. cbn [member prop bind].
    rewrite Hr. cbn [member bind prop]. rewrite Hb. cbn [member bind prop].
    rewrite Hm, Ht. cbn [at_most bind].
    destruct (screenWidth <=? m); [ reflexivity | ].
    cbn [bind]. destruct (screenWidth <=? t); reflexivity. }
  unfold getResponsiveConfig. rewrite Hpick.
  split; [ | split; [ | split ] ].
  - intros H. apply Z.leb_le in H. now rewrite H.
  - intros H1 H2. apply Z.leb_gt in H1. apply Z.leb_le in H2.
    now rewrite H1, H2.
  - intros H1 H2. apply Z.leb_gt in H1. apply Z.leb_gt in H2.
    rewrite H1, H2. reflexivity.
  - intros override r key Hov Hres Hkey. rewrite Hov in Hres.
    cbn [bind] in Hres. unfold mergeConfig in Hres.
    rewrite Hc, JSON_clone_obj, merge_obj in Hres.
    apply merge_props_frame in Hres as (o' & -> & Hframe).
    assert (Hcopy : prop (JObj o') key
                    = option_map JSON_clone (prop (config w) key)).
    { rewrite Hc. cbn [prop]. rewrite (Hframe _ Hkey). apply get_clone. }
    split; [ exact Hcopy | ].
    intros v Hv Hfinite. rewrite Hcopy, Hv. simpl.
    now rewrite (finite_clone _ Hfinite).
Qed.

Lemma getResponsiveConfig_picks_by_width_witness :
  (exists r,
      getResponsiveConfig 480 (page roomy) = Normal r /\
      path r ["chart"; "width"] = Some (JNum 280) /\
      path r ["radar"; "levels"] = Some (JNum 4)) /\
  (exists r,
      getResponsiveConfig 481 (page roomy) = Normal r /\
      path r ["chart"; "width"] = Some (JNum 350) /\
      prop r "themes" = prop (config (page roomy)) "themes") /\
  getResponsiveConfig 769 (page roomy) = Normal (config (page roomy)).
Proof.
  assert (H : forall width,
             _ /\ _ /\ _ /\ _)
    by (intros width;
        exact (getResponsiveConfig_picks_by_width width (page roomy)
                 _ _ 480 768 eq_refl eq_refl eq_refl eq_refl)).
  split; [ | split ].
  - destruct (H 480) as (Hmobile & _). eexists.
    rewrite Hmobile by lia. split; [ vm_compute; reflexivity | ].
    split; reflexivity.
  - destruct (H 481) as (_ & Htablet & _ & Hframe). eexists.
    split; [ rewrite Htablet by lia; vm_compute; reflexivity | ].
    split; [ reflexivity | ].
    etransitivity; [ | reflexivity ].
    eapply proj1. eapply (Hframe _ _ "themes");
      [ vm_compute; reflexivity
      | rewrite Htablet by lia; vm_compute; reflexivity
      | reflexivity ].
  - destruct (H 769) as (_ & _ & Hwide & _).
    etransitivity; [ apply Hwide; lia | reflexivity ].
Defined.

Lemma remove_first_absent l ls :
  (forall x, In x ls -> lid x <> lid l) -> remove_first l ls = ls.
Proof.
  induction ls as [ | x rest IH ]; intros H; simpl; [ reflexivity | ].
  destruct (Nat.eqb_spec (lid x) (lid l)) as [ E | _ ].
  - elim (H x (or_introl eq_refl) E).
  - rewrite IH; [ reflexivity | ]. intros y Hy. apply H. now right.
Qed.

Lemma remove_first_found l before x after :
  lid x = lid l ->
  (forall y, In y before -> lid y <> lid l) ->
  remove_first l (before ++ x :: after) = before ++ after.
Proof.
  intros Hx. induction before as [ | y rest IH ]; intros H; simpl.
  - now rewrite Hx, Nat.eqb_refl.
  - destruct (Nat.eqb_spec (lid y) (lid l)) as [ E | _ ].
    + elim (H y (or_introl eq_refl) E).
    + rewrite IH; [ reflexivity | ]. intros z Hz. apply H. now right.
Qed.

(** X8.  [removeListener] takes away one registration, the earliest one
    of that listener, and leaves the others in their order; for a listener
    that is not registered it changes nothing.  So [addListener] followed
    by [removeListener] restores the registry of a listener that was not
    registered before, and a listener registered twice is still called,
    once, after one removal. *)
Theorem removeListener_takes_one_registration l w :
  ((forall x, In x (listeners w) -> lid x <> lid l) ->
   listeners (removeListener l w) = listeners w /\
   listeners (removeListener l (addListener l w)) = listeners w) /\
  (forall before x after,
      listeners w = before ++ x :: after ->
      lid x = lid l ->
      (forall y, In y before -> lid y <> lid l) ->
      listeners (removeListener l w) = before ++ after /\
      forall ev d,
        delivered (notifyListeners ev d (removeListener l w))
        = delivered w ++ fan_out ev d before ++ fan_out ev d after).
Proof.
  split.
  - intros H. simpl. split; [ now apply remove_first_absent | ].
    now rewrite (remove_first_found l (listeners w) l []), app_nil_r.
  - intros before x after Hl Hx Hbefore.
    assert (Hleft : listeners (removeListener l w) = before ++ after).
    { unfold removeListener, set_listeners. cbn [listeners].
      rewrite Hl. exact (remove_first_found l before x after Hx Hbefore). }
    split; [ exact Hleft | ].
    intros ev d. rewrite notifyListeners_eq. cbn [delivered].
    rewrite Hleft. unfold fan_out. now rewrite map_app.
Qed.

Lemma removeListener_takes_one_registration_witness :
  listeners (removeListener quiet
               (addListener quiet (mkState JNull [faulty] roomy [] [])))
  = [faulty] /\
  map receiver
    (delivered (notifyListeners "configSaved" JNull
                  (removeListener quiet
                     (mkState JNull [faulty; quiet; faulty; quiet]
                              roomy [] []))))
  = [2; 2; 1]%nat.
Proof.
  split.
  - apply (removeListener_takes_one_registration quiet
             (mkState JNull [faulty] roomy [] [])).
    intros x [ <- | [] ]. discriminate.
  - destruct (removeListener_takes_one_registration quiet
                (mkState JNull [faulty; quiet; faulty; quiet] roomy [] []))
      as (_ & Hfound).
    destruct (Hfound [faulty] quiet [faulty; quiet] eq_refl eq_refl)
      as (_ & Hcalls).
    + intros y [ <- | [] ]. discriminate.
    + rewrite Hcalls. reflexivity.
Defined.

(* ----------------------------------------------------------------- *)
(** ** Themes *)

(** X9.  Applying a theme that is an object with no [themes] entry of its
    own leaves the JSON copy of the catalogue of themes.  When the theme
    holds no NaN and no infinity, applying it again completes and changes
    nothing more in the config. *)
Theorem applyTheme_twice_is_once themeName w w1 ps themes tps :
  config w = JObj ps ->
  get ps "themes" = Some (JObj themes) ->
  get themes themeName = Some (JObj tps) ->
  unique_keys (JObj tps) = true ->
  has_key tps "themes" = false ->
  applyTheme themeName w = Normal w1 ->
  (exists ps1,
      config w1 = JObj ps1 /\
      get ps1 "themes" = Some (JSON_clone (JObj themes))) /\
  (finite (JObj tps) = true ->
   exists w2, applyTheme themeName w1 = Normal w2 /\ config w2 = config w1).
Proof.
  intros Hc Ht Hn Hu Hk H1.
  unfold applyTheme in H1. rewrite Hc, Ht, Hn in H1. cbn [truthy] in H1.
  unfold apply_overrides in H1.
  apply bind_normal in H1 as (c & Hm & Hw1).
  assert (Hc1 : config w1 = c).
  { injection Hw1 as <-. now rewrite notified_config, saveConfig_config. }
  rewrite Hc in Hm. pose proof Hm as Hframe.
  unfold mergeConfig in Hframe. rewrite JSON_clone_obj, merge_obj in Hframe.
  apply merge_props_frame in Hframe as (o' & -> & Hframe).
  assert (Hthemes : get o' "themes" = Some (JObj (clone_props themes)))
    by now rewrite (Hframe _ Hk), get_clone, Ht.
  split; [ now exists o' | ].
  intros Hfinite.
  unfold applyTheme. rewrite Hc1, Hthemes, get_clone, Hn.
  cbn [option_map]. rewrite (finite_clone _ Hfinite). cbn [truthy].
  unfold apply_overrides.
  rewrite Hc1, (mergeConfig_idempotent _ _ _ Hu Hm). cbn [bind].
  eexists. split; [ reflexivity | ].
  now rewrite notified_config, saveConfig_config.
Qed.

Lemma applyTheme_twice_is_once_witness :
  exists w1 w2,
    applyTheme "light" (page roomy) = Normal w1 /\
    applyTheme "light" w1 = Normal w2 /\
    config w2 = config w1.
Proof.
  destruct (applyTheme "light" (page roomy)) as [ w1 | | ] eqn:H1;
    [ | discriminate H1 | discriminate H1 ].
  exists w1.
  destruct (applyTheme_twice_is_once "light" (page roomy) w1
              _ _ _ eq_refl eq_refl eq_refl eq_refl eq_refl H1)
    as (_ & Hagain).
  destruct (Hagain eq_refl) as (w2 & H2 & Hsame).
  exists w2. split; [ reflexivity | ]. split; assumption.
Defined.

(* ----------------------------------------------------------------- *)
(** ** Removing labels in the settings panel *)

Lemma unique_keys_items items :
  unique_keys (JArr items) = forallb unique_keys items.
Proof.
  induction items as [ | x rest IH ]; [ reflexivity | ].
  change (unique_keys x && unique_keys (JArr rest)
          = unique_keys x && forallb unique_keys rest).
  now rewrite IH.
Qed.

Lemma without_unique index labels :
  unique_keys (JArr labels) = true ->
  unique_keys (JArr (without index labels)) = true.
Proof.
  rewrite !unique_keys_items, !forallb_forall. intros H x Hin.
  apply H. unfold without in Hin.
  apply in_map_iff in Hin as ([i y] & <- & Hin).
  apply filter_In in Hin as [Hin _]. now apply in_combine_r in Hin.
Qed.

(** The panel's [updateConfig('labels', value)] replaces the label list
    in the copy of the config. *)
Lemma panel_sets_labels value w ps :
  config w = JObj ps ->
  unique_keys (JObj ps) = true ->
  is_record value = false ->
  exists w',
    panel_updateConfig "labels" value w = Normal w' /\
    config w' = JObj (put (clone_props ps) "labels" value).
Proof.
  intros Hc Hu Hv.
  assert (Huc : unique_keys (JObj (clone_props ps)) = true)
    by now rewrite <- JSON_clone_obj, unique_keys_clone.
  assert (Hedit : assign_path (JObj (clone_props ps)) "labels" [] value
                  = Normal (JObj (put (clone_props ps) "labels" value))).
  { cbn [assign_path write_key]. now destruct (get _ "labels"). }
  assert (Hm : mergeConfig (config w)
                 (JObj (put (clone_props ps) "labels" value))
               = Normal (JObj (put (clone_props ps) "labels" value))).
  { unfold mergeConfig. rewrite Hc, JSON_clone_obj.
    exact (assign_path_absorbed _ _ _ _ _ Huc Hv Hedit). }
  exists (notifyListeners "configUpdated"
            (JObj (put (clone_props ps) "labels" value))
            (saveConfig
               (set_config w (JObj (put (clone_props ps) "labels" value))))).
  split.
  - unfold panel_updateConfig, getConfig.
    change (split_dots "labels") with ("labels", @nil string).
    rewrite Hc, JSON_clone_obj, Hedit. cbn [bind].
    apply updateConfig_normal. exact Hm.
  - now rewrite notified_config, saveConfig_config.
Qed.

(** X10.  The remove buttons of the settings panel work from the label
    list the panel was set up with, not from the one the manager holds:
    each click completes and leaves the manager with the original list
    less the one label clicked, so that a second removal brings the label
    removed first back. *)
Theorem label_removals_do_not_add_up snapshot labels w i j :
  prop snapshot "labels" = Some (JArr labels) ->
  unique_keys snapshot = true ->
  unique_keys (config w) = true ->
  is_record (config w) = true ->
  exists w1 w2,
    remove_label snapshot i w = Normal w1 /\
    remove_label snapshot j w1 = Normal w2 /\
    path (config w1) ["labels"] = Some (JArr (without i labels)) /\
    path (config w2) ["labels"] = Some (JArr (without j labels)).
Proof.
  intros Hlabels Hsnapshot Hu Hr.
  assert (Hitems : unique_keys (JArr labels) = true).
  { destruct snapshot as [ | | | | | | | sps ]; try discriminate Hlabels.
    exact (unique_keys_get _ _ _ Hsnapshot Hlabels). }
  destruct (config w) as [ | | | | | | | ps ] eqn:Hc; try discriminate Hr.
  destruct (panel_sets_labels (JArr (without i labels)) w ps Hc Hu eq_refl)
    as (w1 & H1 & Hc1).
  assert (Hu1 : unique_keys
                  (JObj (put (clone_props ps) "labels"
                             (JArr (without i labels)))) = true).
  { apply unique_keys_put; [ | now apply without_unique ].
    now rewrite <- JSON_clone_obj, unique_keys_clone. }
  destruct (panel_sets_labels (JArr (without j labels)) w1 _ Hc1 Hu1 eq_refl)
    as (w2 & H2 & Hc2).
  exists w1, w2. unfold remove_label. rewrite Hlabels.
  split; [ exact H1 | ]. split; [ exact H2 | ].
  rewrite Hc1, Hc2. cbn [path prop]. now rewrite !get_put_same.
Qed.

Lemma label_removals_do_not_add_up_witness :
  exists w1 w2,
    remove_label (getConfig (page roomy)) 0 (page roomy) = Normal w1 /\
    remove_label (getConfig (page roomy)) 1 w1 = Normal w2 /\
    path (config w2) ["labels"]
    = Some (JArr [ JStr "前端开发"; JStr "移动开发"; JStr "数据分析";
                   JStr "项目管理"; JStr "UI/UX设计" ]).
Proof.
  destruct (label_removals_do_not_add_up
              (getConfig (page roomy))
              [ JStr "前端开发"; JStr "后端开发"; JStr "移动开发";
                JStr "数据分析"; JStr "项目管理"; JStr "UI/UX设计" ]
              (page roomy) 0 1)
    as (w1 & w2 & H1 & H2 & _ & Hlabels);
    [ reflexivity | vm_compute; reflexivity | vm_compute; reflexivity
    | reflexivity | ].
  exists w1, w2. split; [ exact H1 | ]. split; [ exact H2 | ].
  exact Hlabels.
Defined.

End ManagerExtraProperties.

(* ================================================================= *)
(** * More properties of the chart script *)

Module RadarExtraProperties.
Import Radar RadarExtras Scenarios RadarProperties.

Local Open Scope R_scope.
Local Open Scope list_scope.

Lemma truncate_small x :
  0 <= x <= 2147483647 ->
  unsigned_long 300 x = IZR (Int_part x) /\
  unsigned_long 150 x = IZR (Int_part x).
Proof.
  intros [H0 H1]. unfold unsigned_long, truncate.
  destruct (Rle_dec 0 x) as [ _ | Hneg ]; [ | lra ].
  destruct (base_Int_part x) as [Hle Hgt].
  assert (Hlo : (0 <= Int_part x)%Z).
  { apply Z.lt_succ_r. apply lt_IZR. rewrite succ_IZR. lra. }
  assert (Hhi : (Int_part x <= 2147483647)%Z).
  { apply le_IZR. lra. }
  rewrite Z.mod_small by lia.
  destruct (Z.leb_spec (Int_part x) 2147483647); [ | lia ].
  split; reflexivity.
Qed.

(** X11.  [initCanvas] and the geometry [drawRadarChart] derives from it.
    For a container at least 40 wide the canvas is a square whose centre
    lies on the diagonal, at most half the display size
    [min(containerWidth − 40, 400)] from the corner and less than half a
    device pixel short of it (the canvas attributes keep whole pixels
    only), exactly there when the size in device pixels is whole; the
    radius is 60 less, and never more than 140. *)
Theorem initCanvas_centres_the_chart containerWidth ratio :
  40 <= containerWidth ->
  0 <= ratio ->
  canvas_size containerWidth * pixel_ratio ratio <= 2147483647 ->
  centerX (initCanvas containerWidth ratio)
  = centerY (initCanvas containerWidth ratio) /\
  canvas_size containerWidth / 2 - / (2 * pixel_ratio ratio)
  < centerX (initCanvas containerWidth ratio)
  <= canvas_size containerWidth / 2 /\
  radius (initCanvas containerWidth ratio)
  = centerX (initCanvas containerWidth ratio) - 60 /\
  radius (initCanvas containerWidth ratio) <= 140 /\
  (forall n : Z,
      canvas_size containerWidth * pixel_ratio ratio = IZR n ->
      centerX (initCanvas containerWidth ratio)
      = canvas_size containerWidth / 2).
Proof.
  intros Hwide Hratio Hrange.
  assert (Hsize : 0 <= canvas_size containerWidth <= 400).
  { unfold canvas_size, Rmin.
    destruct (Rle_dec (containerWidth - 40) 400); lra. }
  assert (Hscale : 0 < pixel_ratio ratio).
  { unfold pixel_ratio. destruct (Req_dec_T ratio 0); lra. }
  set (size := canvas_size containerWidth) in *.
  set (scale := pixel_ratio ratio) in *.
  assert (Hpixels : 0 <= size * scale <= 2147483647).
  { split; [ apply Rmult_le_pos; lra | exact Hrange ]. }
  destruct (truncate_small (size * scale) Hpixels) as [Hw Hh].
  assert (Hx : centerX (initCanvas containerWidth ratio)
               = IZR (Int_part (size * scale)) / scale / 2).
  { unfold centerX, dpr, initCanvas. cbn [width devicePixelRatio].
    fold size. fold scale. rewrite Hw. reflexivity. }
  assert (Hy : centerY (initCanvas containerWidth ratio)
               = IZR (Int_part (size * scale)) / scale / 2).
  { unfold centerY, dpr, initCanvas. cbn [height devicePixelRatio].
    fold size. fold scale. rewrite Hh. reflexivity. }
  assert (Hr : radius (initCanvas containerWidth ratio)
               = centerX (initCanvas containerWidth ratio) - 60).
  { unfold radius. rewrite Hy, <- Hx. now rewrite Rmin_left by lra. }
  destruct (base_Int_part (size * scale)) as [Hle Hgt].
  assert (Hupper : IZR (Int_part (size * scale)) / scale / 2 <= size / 2).
  { apply Rmult_le_compat_r; [ lra | ].
    apply Rmult_le_reg_r with scale; [ exact Hscale | ].
    replace (IZR (Int_part (size * scale)) / scale * scale)
      with (IZR (Int_part (size * scale))) by (field; lra).
    exact Hle. }
  assert (Hlower : size / 2 - / (2 * scale)
                   < IZR (Int_part (size * scale)) / scale / 2).
  { replace (size / 2 - / (2 * scale))
      with ((size * scale - 1) / scale / 2) by (field; lra).
    apply Rmult_lt_compat_r; [ lra | ].
    apply Rmult_lt_compat_r; [ now apply Rinv_0_lt_compat | lra ]. }
  split; [ now rewrite Hx, Hy | ].
  split; [ rewrite Hx; split; assumption | ].
  split; [ exact Hr | ].
  split; [ rewrite Hr, Hx; lra | ].
  intros n Hn. rewrite Hx, Hn.
  rewrite <- (Int_part_spec (IZR n) n) by lra.
  rewrite <- Hn. field. lra.
Qed.

Lemma initCanvas_centres_the_chart_witness :
  centerX (initCanvas 1000 2) = canvas_size 1000 / 2 /\
  radius (initCanvas 1000 2) <= 140.
Proof.
  assert (Hsize : canvas_size 1000 = 400).
  { unfold canvas_size, Rmin. destruct (Rle_dec (1000 - 40) 400); lra. }
  assert (Hscale : pixel_ratio 2 = 2).
  { unfold pixel_ratio. destruct (Req_dec_T 2 0); lra. }
  destruct (initCanvas_centres_the_chart 1000 2) as (_ & _ & _ & Hr & Hx);
    [ lra | lra | rewrite Hsize, Hscale; lra | ].
  split; [ | exact Hr ].
  apply (Hx 800%Z). rewrite Hsize, Hscale. lra.
Defined.

Lemma last_ring abs levels cx cy r :
  (0 < levels)%nat ->
  last (drawGrid abs levels cx cy r) []
  = map (fun j => polar cx cy (angle (length abs) j) r) (seq 0 (length abs)).
Proof.
  intros Hl. unfold drawGrid.
  destruct levels as [ | k ]; [ lia | ].
  rewrite seq_S, map_app. cbn [map]. rewrite last_last.
  apply map_ext. intros j. f_equal.
  replace (1 + k)%nat with (S k) by lia.
  field. apply not_0_INR. lia.
Qed.

(** X12.  [drawGrid] draws one polygon per level, ring [i] (counted from
    1) at [i/levels] of the radius, all with their corners on the axis
    directions; the outermost ring passes through the tips of the spokes
    [drawAxes] draws. *)
Theorem drawGrid_outer_ring_meets_the_spokes abs levels cx cy r :
  (0 < levels)%nat ->
  length (drawGrid abs levels cx cy r) = levels /\
  (forall i,
      (i < levels)%nat ->
      nth i (drawGrid abs levels cx cy r) []
      = map (fun j => polar cx cy (angle (length abs) j)
                        (r / INR levels * INR (S i)))
            (seq 0 (length abs))) /\
  last (drawGrid abs levels cx cy r) [] = map tip (drawAxes abs cx cy r).
Proof.
  intros Hl. split; [ | split ].
  - unfold drawGrid. now rewrite length_map, length_seq.
  - intros i Hi. unfold drawGrid.
    rewrite (nth_indep _ [] (map (fun j => polar cx cy (angle (length abs) j)
                                            (r / INR levels * INR 0))
                                 (seq 0 (length abs))))
      by now rewrite length_map, length_seq.
    rewrite (map_nth (fun i0 =>
               map (fun j => polar cx cy (angle (length abs) j)
                               (r / INR levels * INR i0))
                   (seq 0 (length abs))) (seq 1 levels) 0%nat i).
    now rewrite seq_nth by exact Hi.
  - rewrite drawAxes_tips. now apply last_ring.
Qed.

Lemma drawGrid_outer_ring_meets_the_spokes_witness :
  length (drawGrid two_abilities 5 200 200 140) = 5%nat /\
  last (drawGrid two_abilities 5 200 200 140) []
  = map tip (drawAxes two_abilities 200 200 140).
Proof.
  destruct (drawGrid_outer_ring_meets_the_spokes two_abilities 5 200 200 140)
    as (Hlen & _ & Hlast); [ lia | ].
  split; [ exact Hlen | exact Hlast ].
Defined.

Lemma distance_from_centre cx cy a d :
  distance (cx, cy) (polar cx cy a d) = Rabs d.
Proof.
  unfold distance, polar. cbn [fst snd].
  replace ((cx - (cx + cos a * d)) ^ 2 + (cy - (cy + sin a * d)) ^ 2)
    with (((sin a)² + (cos a)²) * d²) by (unfold Rsqr; ring).
  rewrite sin2_cos2, Rmult_1_l. apply sqrt_Rsqr_abs.
Qed.

Lemma abilities_values config :
  Forall (fun a => 80 <= value a <= 95) (abilities config).
Proof.
  unfold abilities. apply Forall_forall. intros a Hin.
  apply in_map_iff in Hin as ([index label] & <- & _). cbn [value].
  do 6 (destruct index as [ | index ]; [ simpl; lra | ]).
  destruct index; simpl; lra.
Qed.

(** X13.  The data polygon: every corner [drawData] computes for the
    chart's abilities lies within the outer grid ring (no farther from the
    centre than the radius) for every animation progress between 0 and 1,
    and at progress 1 the corners are exactly the points [detectHover]
    measures the pointer against. *)
Theorem data_polygon_stays_inside_the_grid c config progress :
  0 <= radius c ->
  0 <= progress <= 1 ->
  Forall (fun p => distance (centerX c, centerY c) p <= radius c)
         (drawData c (abilities config) progress) /\
  drawData c (abilities config) 1
  = map (fun ia : nat * ability =>
           vertex c (length (abilities config)) (fst ia) (snd ia))
        (indexed (abilities config)).
Proof.
  intros Hr Hp. split.
  - unfold drawData. apply Forall_forall. intros p Hin.
    apply in_map_iff in Hin as ([index a] & <- & Hin). cbn [fst snd].
    assert (Hv : 80 <= value a <= 95).
    { pose proof (abilities_values config) as Hall.
      rewrite Forall_forall in Hall. apply Hall.
      unfold indexed in Hin. now apply in_combine_r in Hin. }
    unfold data_point. rewrite distance_from_centre.
    assert (H0 : 0 <= value a / 100 * radius c * progress).
    { apply Rmult_le_pos; [ apply Rmult_le_pos | ]; lra. }
    rewrite Rabs_pos_eq by exact H0.
    assert (H1 : value a / 100 * radius c <= radius c).
    { rewrite <- (Rmult_1_l (radius c)) at 2.
      apply Rmult_le_compat_r; lra. }
    assert (H2 : value a / 100 * radius c * progress
                 <= value a / 100 * radius c * 1).
    { apply Rmult_le_compat_l; [ apply Rmult_le_pos; lra | lra ]. }
    lra.
  - unfold drawData. apply map_ext. intros [index a]. cbn [fst snd].
    unfold data_point, vertex. f_equal. ring.
Qed.

Lemma data_polygon_stays_inside_the_grid_witness :
  Forall (fun p => distance (centerX square, centerY square) p
                   <= radius square)
         (drawData square
            (abilities (mkChartConfig (Some ["A"; "B"; "C"]%string) true 2000))
            (1 / 2)).
Proof.
  destruct square_geometry as (_ & _ & Hr).
  apply (data_polygon_stays_inside_the_grid square
           (mkChartConfig (Some ["A"; "B"; "C"]%string) true 2000) (1 / 2));
    [ rewrite Hr | ]; lra.
Defined.

(* ----------------------------------------------------------------- *)
(** ** The entry animation, frame by frame *)

Lemma easeOutCubic_monotone p q :
  p <= q <= 1 -> easeOutCubic p <= easeOutCubic q.
Proof.
  intros Hpq. unfold easeOutCubic.
  assert (H : (1 - q) ^ 3 <= (1 - p) ^ 3) by (apply pow_incr; lra).
  lra.
Qed.

Lemma easeOutCubic_1 : easeOutCubic 1 = 1.
Proof. unfold easeOutCubic. ring. Qed.

(** What one frame callback does to an animation in flight: nothing, or
    it draws the chart with the eased value of the progress it leaves. *)
Lemma animate_cases t s :
  in_flight s ->
  animate t s = (s, Skipped) \/
  (snd (animate t s)
   = Drew (easeOutCubic (animationProgress (fst (animate t s)))) /\
   animationProgress s <= animationProgress (fst (animate t s)) <= 1 /\
   (isAnimating (fst (animate t s)) = false ->
    animationProgress (fst (animate t s)) = 1) /\
   (isAnimating (fst (animate t s)) = true -> in_flight (fst (animate t s)))).
Proof.
  intros (Hspeed & Hp & Hanim). unfold animate, in_flight.
  destruct (Rlt_dec (t - lastTime s) 16.67) as [ Hskip | Hdraw ];
    [ now left | right ].
  assert (Hstep : 0 < animationSpeed s * ((t - lastTime s) / 16.67)).
  { apply Rmult_lt_0_compat; [ exact Hspeed | lra ]. }
  destruct (Rge_dec
              (animationProgress s
               + animationSpeed s * ((t - lastTime s) / 16.67)) 1)
    as [ Hdone | Hmore ]; cbn [fst snd animationProgress isAnimating
                                 animationSpeed].
  - repeat split; try lra; discriminate.
  - repeat split; try lra; try assumption. congruence.
Qed.

Lemma shown_values_sorted ts :
  forall s,
    in_flight s ->
    Sorted Rle (easeOutCubic (animationProgress s)
                :: shown_values (frames ts s)) /\
    Forall (fun sf => isAnimating (fst sf) = false -> snd sf = Drew 1)
           (frames ts s).
Proof.
  induction ts as [ | t rest IH ]; intros s Hs.
  - split; [ | apply Forall_nil ].
    apply Sorted_cons; [ apply Sorted_nil | apply HdRel_nil ].
  - rewrite frames_cons.
    destruct (animate_cases t s Hs) as [ Hskip | (Hdrew & Hle & Hend & Hnext) ].
    + rewrite Hskip. cbn [fst snd rescheduled shown_values].
      destruct (IH s Hs) as (Hsorted & Hall).
      split; [ exact Hsorted | ].
      apply Forall_cons; [ | exact Hall ].
      cbn [fst]. destruct Hs as (_ & _ & Hanim). congruence.
    + destruct (animate t s) as [s1 f]. cbn [fst snd] in *. subst f.
      cbn [rescheduled shown_values].
      assert (Hup : easeOutCubic (animationProgress s)
                    <= easeOutCubic (animationProgress s1))
        by (apply easeOutCubic_monotone; lra).
      destruct (isAnimating s1) eqn:Ea.
      * destruct (IH s1 (Hnext eq_refl)) as (Hsorted & Hall).
        split.
        -- apply Sorted_cons; [ exact Hsorted | now apply HdRel_cons ].
        -- apply Forall_cons; [ | exact Hall ].
           cbn [fst]. congruence.
      * cbn [shown_values]. split.
        -- apply Sorted_cons; [ | now apply HdRel_cons ].
           apply Sorted_cons; [ apply Sorted_nil | apply HdRel_nil ].
        -- apply Forall_cons; [ | apply Forall_nil ].
           cbn [fst snd]. intros _.
           now rewrite (Hend eq_refl), easeOutCubic_1.
Qed.

(** X14.  What the entry animation shows: with a positive configured
    duration the progress handed to [drawRadarChart] (the eased value)
    never goes down from one drawn frame to the next, and the frame that
    ends the animation draws the chart at exactly full size. *)
Theorem drawn_progress_never_shrinks config now start ts :
  0 < updateDuration config ->
  startAnimation config now false = Some start ->
  Sorted Rle (shown_values (frames ts start)) /\
  Forall (fun sf => isAnimating (fst sf) = false -> snd sf = Drew 1)
         (frames ts start).
Proof.
  intros Hd Hstart.
  destruct (startAnimation_in_flight _ _ _ Hd Hstart) as (Hs & _).
  destruct (shown_values_sorted ts start Hs) as (Hsorted & Hall).
  split; [ | exact Hall ].
  now apply Sorted_inv in Hsorted.
Qed.

Lemma drawn_progress_never_shrinks_witness :
  Sorted Rle
    (shown_values (frames [10; 20; 1000; 3000]
                          (mkAnimation 0 true (1 / (2000 * 60 / 1000)) 0))).
Proof.
  apply (drawn_progress_never_shrinks (mkChartConfig None true 2000) 0
           (mkAnimation 0 true (1 / (2000 * 60 / 1000)) 0)
           [10; 20; 1000; 3000]).
  - simpl. lra.
  - unfold startAnimation, duration. simpl.
    destruct (Req_dec_T 2000 0); [ lra | reflexivity ].
Defined.

Lemma frames_on_the_clock D now ts :
  0 < D ->
  forall s,
    animationSpeed s = 1 / (D * 60 / 1000) ->
    isAnimating s = true ->
    animationProgress s = (lastTime s - now) / (1.0002 * D) ->
    Forall (fun sf =>
              if isAnimating (fst sf)
              then animationProgress (fst sf)
                   = (lastTime (fst sf) - now) / (1.0002 * D)
              else 1.0002 * D <= lastTime (fst sf) - now)
           (frames ts s).
Proof.
  intros HD. induction ts as [ | t rest IH ]; intros s Hspeed Hanim Hp;
    [ apply Forall_nil | ].
  rewrite frames_cons. unfold animate.
  destruct (Rlt_dec (t - lastTime s) 16.67) as [ Hskip | Hdraw ].
  - cbn [fst snd rescheduled].
    apply Forall_cons; [ cbn [fst]; now rewrite Hanim | now apply IH ].
  - assert (Hstep : animationProgress s
                    + animationSpeed s * ((t - lastTime s) / 16.67)
                    = (t - now) / (1.0002 * D)).
    { rewrite Hp, Hspeed.
      replace 1.0002 with (10002 / 10000) by lra.
      replace 16.67 with (1667 / 100) by lra.
      field. lra. }
    rewrite Hstep.
    destruct (Rge_dec ((t - now) / (1.0002 * D)) 1) as [ Hdone | Hmore ];
      cbn [fst snd rescheduled isAnimating].
    + apply Forall_cons; [ | apply Forall_nil ].
      cbn [fst isAnimating lastTime].
      apply Rmult_le_reg_r with (/ (1.0002 * D)).
      * apply Rinv_0_lt_compat. lra.
      * rewrite Rinv_r by lra. unfold Rdiv in Hdone. lra.
    + rewrite Hanim. apply Forall_cons.
      * cbn [fst isAnimating animationProgress lastTime]. reflexivity.
      * apply IH; cbn [animationSpeed isAnimating animationProgress lastTime];
          [ exact Hspeed | reflexivity | reflexivity ].
Qed.

(** X15.  The entry animation keeps wall-clock time whatever the frame
    rate: with a positive configured duration, after every frame callback
    of a running animation the progress is the time from the start to the
    last drawn frame divided by 1.0002 times the configured duration, and
    the animation has ended only once that much time has passed. *)
Theorem animation_keeps_wall_clock_time config now start ts :
  0 < updateDuration config ->
  startAnimation config now false = Some start ->
  Forall (fun sf =>
            if isAnimating (fst sf)
            then animationProgress (fst sf)
                 = (lastTime (fst sf) - now)
                   / (1.0002 * updateDuration config)
            else 1.0002 * updateDuration config <= lastTime (fst sf) - now)
         (frames ts start).
Proof.
  intros Hd. unfold startAnimation.
  destruct (false || negb (enableEntryAnimation config)); [ discriminate | ].
  intros [= <-].
  assert (Hduration : duration config = updateDuration config).
  { unfold duration. destruct (Req_dec_T (updateDuration config) 0); lra. }
  rewrite Hduration.
  apply frames_on_the_clock;
    cbn [animationSpeed isAnimating animationProgress lastTime];
    [ exact Hd | reflexivity | reflexivity | ].
  unfold Rdiv. ring.
Qed.

Lemma animation_keeps_wall_clock_time_witness :
  Forall (fun sf =>
            if isAnimating (fst sf)
            then animationProgress (fst sf)
                 = (lastTime (fst sf) - 0) / (1.0002 * 2000)
            else 1.0002 * 2000 <= lastTime (fst sf) - 0)
         (frames [10; 20; 1000; 3000]
                 (mkAnimation 0 true (1 / (2000 * 60 / 1000)) 0)).
Proof.
  apply (animation_keeps_wall_clock_time (mkChartConfig None true 2000) 0
           (mkAnimation 0 true (1 / (2000 * 60 / 1000)) 0)
           [10; 20; 1000; 3000]).
  - simpl. lra.
  - unfold startAnimation, duration. simpl.
    destruct (Req_dec_T 2000 0); [ lra | reflexivity ].
Defined.

Lemma easeOutCubic_below p : p <= 0 -> easeOutCubic p <= 0.
Proof.
  intros Hp. unfold easeOutCubic.
  assert (H : 1 ^ 3 <= (1 - p) ^ 3) by (apply pow_incr; lra).
  rewrite pow1 in H. lra.
Qed.

Lemma frames_backwards ts :
  forall s,
    animationSpeed s < 0 ->
    animationProgress s <= 0 ->
    isAnimating s = true ->
    length (frames ts s) = length ts /\
    Forall (fun sf =>
              isAnimating (fst sf) = true /\
              animationProgress (fst sf) <= 0 /\
              match snd sf with
              | Drew shown => shown <= 0
              | Skipped => True
              end) (frames ts s).
Proof.
  induction ts as [ | t rest IH ]; intros s Hspeed Hp Hanim;
    [ split; [ reflexivity | apply Forall_nil ] | ].
  rewrite frames_cons. unfold animate.
  destruct (Rlt_dec (t - lastTime s) 16.67) as [ Hskip | Hdraw ].
  - cbn [fst snd rescheduled].
    destruct (IH s Hspeed Hp Hanim) as (Hlen & Hall).
    split; [ cbn [length]; now rewrite Hlen | ].
    apply Forall_cons; [ | exact Hall ].
    cbn [fst snd]. auto.
  - assert (Hstep : animationSpeed s * ((t - lastTime s) / 16.67) < 0).
    { rewrite Rmult_comm. apply Rmult_pos_neg; lra. }
    destruct (Rge_dec
                (animationProgress s
                 + animationSpeed s * ((t - lastTime s) / 16.67)) 1)
      as [ Hdone | Hmore ]; [ lra | ].
    cbn [fst snd rescheduled isAnimating]. rewrite Hanim.
    destruct (IH (mkAnimation
                    (animationProgress s
                     + animationSpeed s * ((t - lastTime s) / 16.67))
                    true (animationSpeed s) t)) as (Hlen & Hall);
      cbn [animationSpeed isAnimating animationProgress];
      [ exact Hspeed | lra | reflexivity | ].
    split; [ cbn [length]; now rewrite Hlen | ].
    apply Forall_cons; [ | exact Hall ].
    cbn [fst snd isAnimating animationProgress].
    split; [ reflexivity | ]. split; [ lra | ].
    apply easeOutCubic_below. lra.
Qed.

(** X16.  A negative configured duration makes the entry animation run
    backwards for ever: every frame callback asks for the next one, the
    animation never ends, and the progress, like the value the chart is
    drawn with, never rises above 0. *)
Theorem negative_duration_never_ends config now start ts :
  updateDuration config < 0 ->
  startAnimation config now false = Some start ->
  length (frames ts start) = length ts /\
  Forall (fun sf =>
            isAnimating (fst sf) = true /\
            animationProgress (fst sf) <= 0 /\
            match snd sf with
            | Drew shown => shown <= 0
            | Skipped => True
            end) (frames ts start).
Proof.
  intros Hd. unfold startAnimation.
  destruct (false || negb (enableEntryAnimation config)); [ discriminate | ].
  intros [= <-].
  assert (Hduration : duration config = updateDuration config).
  { unfold duration. destruct (Req_dec_T (updateDuration config) 0); lra. }
  rewrite Hduration.
  apply frames_backwards;
    cbn [animationSpeed isAnimating animationProgress];
    [ | lra | reflexivity ].
  unfold Rdiv. rewrite Rmult_1_l.
  apply Rinv_lt_0_compat. lra.
Qed.

Lemma negative_duration_never_ends_witness :
  length (frames [10; 20; 1000; 300000]
                 (mkAnimation 0 true (1 / (-2000 * 60 / 1000)) 0))
  = 4%nat.
Proof.
  apply (negative_duration_never_ends (mkChartConfig None true (-2000)) 0
           (mkAnimation 0 true (1 / (-2000 * 60 / 1000)) 0)
           [10; 20; 1000; 300000]).
  - simpl. lra.
  - unfold startAnimation, duration. simpl.
    destruct (Req_dec_T (-2000) 0); [ lra | reflexivity ].
Defined.

(* ----------------------------------------------------------------- *)
(** ** Hovering where the markers overlap *)

Lemma hit_fold_last c n mousePos (abs : list ability) :
  forall start acc i a,
    (start <= i)%nat ->
    nth_error abs (i - start) = Some a ->
    distance mousePos (vertex c n i a) <= 15 ->
    (forall j b,
        (i < j)%nat ->
        nth_error abs (j - start) = Some b ->
        distance mousePos (vertex c n j b) > 15) ->
    fold_left (hit c n mousePos) (combine (seq start (length abs)) abs) acc
    = Z.of_nat i.
Proof.
  induction abs as [ | x rest IH ]; intros start acc i a Hle Hi Hnear Hlast.
  - now destruct (i - start)%nat.
  - cbn [length seq combine fold_left].
    destruct (Nat.eq_dec i start) as [ -> | Hne ].
    + rewrite Nat.sub_diag in Hi. injection Hi as ->.
      rewrite (hit_near c n mousePos acc (start, a)) by exact Hnear.
      cbn [fst]. apply hit_fold_none.
      intros [j b] Hin. cbn [fst snd].
      apply in_indexed_from in Hin as (Hj & Hnth).
      assert (Hfar : distance mousePos (vertex c n j b) > 15).
      { apply Hlast; [ lia | ].
        replace (j - start)%nat with (S (j - S start)) by lia. exact Hnth. }
      lra.
    + apply (IH (S start) _ i a); [ lia | | exact Hnear | ].
      * replace (i - start)%nat with (S (i - S start)) in Hi by lia.
        exact Hi.
      * intros j b Hj Hnth. apply Hlast; [ exact Hj | ].
        replace (j - start)%nat with (S (j - S start)) by lia. exact Hnth.
Qed.

Lemma hit_fold_range c n mousePos (bound : Z) l :
  (forall ia, In ia l -> (Z.of_nat (fst ia) < bound)%Z) ->
  forall acc,
    (-1 <= acc < bound)%Z ->
    (-1 <= fold_left (hit c n mousePos) l acc < bound)%Z.
Proof.
  induction l as [ | x rest IH ]; intros Hl acc Hacc; [ exact Hacc | ].
  cbn [fold_left]. apply IH; [ intros ia Hin; apply Hl; now right | ].
  unfold hit. destruct (Rle_dec _ 15); [ | exact Hacc ].
  split; [ lia | apply Hl; now left ].
Qed.

(** X17.  Where several markers are within 15px of the pointer,
    [detectHover] selects the one with the highest index; and whatever the
    pointer position, the index it selects is −1 or the index of an
    ability. *)
Theorem detectHover_prefers_the_last_in_reach c abs mousePos hoveredIndex :
  (forall i a,
      nth_error abs i = Some a ->
      distance mousePos (vertex c (length abs) i a) <= 15 ->
      (forall j b,
          (i < j)%nat ->
          nth_error abs j = Some b ->
          distance mousePos (vertex c (length abs) j b) > 15) ->
      fst (detectHover c abs mousePos hoveredIndex) = Z.of_nat i) /\
  (-1 <= fst (detectHover c abs mousePos hoveredIndex)
   < Z.of_nat (length abs))%Z.
Proof.
  rewrite detectHover_index. unfold newHoveredIndex, indexed. split.
  - intros i a Hi Hnear Hlast.
    apply (hit_fold_last c (length abs) mousePos abs 0%nat _ i a);
      [ lia | now rewrite Nat.sub_0_r | exact Hnear | ].
    intros j b Hj Hnth. rewrite Nat.sub_0_r in Hnth. now apply (Hlast j b).
  - apply hit_fold_range; [ | lia ].
    intros [j b] Hin. cbn [fst].
    apply in_indexed_from in Hin as (_ & Hnth).
    assert (Hlt : (j - 0 < length abs)%nat).
    { apply nth_error_Some. congruence. }
    lia.
Qed.

Lemma collapsed_vertex n index a :
  vertex (mkCanvas 120 120 1) n index a = (60, 60).
Proof.
  assert (Hdpr : dpr (mkCanvas 120 120 1) = 1).
  { unfold dpr. cbn [devicePixelRatio]. destruct (Req_dec_T 1 0); lra. }
  assert (Hx : centerX (mkCanvas 120 120 1) = 60).
  { unfold centerX. rewrite Hdpr. cbn [width]. lra. }
  assert (Hy : centerY (mkCanvas 120 120 1) = 60).
  { unfold centerY. rewrite Hdpr. cbn [height]. lra. }
  assert (Hr : radius (mkCanvas 120 120 1) = 0).
  { unfold radius. rewrite Hx, Hy, Rmin_left by lra. lra. }
  unfold vertex, polar. rewrite Hx, Hy, Hr. f_equal; ring.
Qed.

Lemma distance_same p : distance p p = 0.
Proof.
  unfold distance.
  replace ((fst p - fst p) ^ 2 + (snd p - snd p) ^ 2) with 0 by ring.
  apply sqrt_0.
Qed.

Lemma detectHover_prefers_the_last_in_reach_witness :
  fst (detectHover (mkCanvas 120 120 1) two_abilities (60, 60) (-1)%Z) = 1%Z.
Proof.
  apply (proj1 (detectHover_prefers_the_last_in_reach
                  (mkCanvas 120 120 1) two_abilities (60, 60) (-1)%Z)
               1%nat (mkAbility "B" 88)).
  - reflexivity.
  - rewrite collapsed_vertex, distance_same. lra.
  - intros [ | [ | j ] ] b Hj Hnth; [ lia | lia | ].
    simpl in Hnth. now destruct j.
Defined.

Lemma highlighted_count {A B : Type} (g : nat * A -> B) (h : Z)
  (xs : list A) :
  forall start,
    length (filter snd
              (map (fun ia => (g ia, (h =? Z.of_nat (fst ia))%Z))
                   (combine (seq start (length xs)) xs)))
    = if ((Z.of_nat start <=? h)%Z
          && (h <? Z.of_nat (start + length xs))%Z)%bool
      then 1%nat else 0%nat.
Proof.
  induction xs as [ | x rest IH ]; intros start.
  - cbn [length seq combine map filter].
    destruct (Z.leb_spec (Z.of_nat start) h);
      destruct (Z.ltb_spec h (Z.of_nat (start + 0))); simpl; lia.
  - cbn [length seq combine map filter fst snd]. specialize (IH (S start)).
    destruct (Z.eqb_spec h (Z.of_nat start)) as [ E | Hne ].
    + cbn [length]. rewrite IH.
      destruct (Z.leb_spec (Z.of_nat (S start)) h); [ lia | ].
      destruct (Z.leb_spec (Z.of_nat start) h); [ | lia ].
      destruct (Z.ltb_spec h (Z.of_nat (start + S (length rest))));
        [ reflexivity | lia ].
    + rewrite IH.
      destruct (Z.leb_spec (Z.of_nat (S start)) h);
        destruct (Z.leb_spec (Z.of_nat start) h); try lia;
        destruct (Z.ltb_spec h (Z.of_nat (S start + length rest)));
        destruct (Z.ltb_spec h (Z.of_nat (start + S (length rest))));
        simpl; lia.
Qed.

(** X18.  Hovering and the markers: [drawDataPoints] puts its markers on
    the corners of the polygon [drawData] draws, and with the index
    [detectHover] has selected exactly one marker is drawn highlighted,
    none when it has selected none (−1). *)
Theorem hover_highlights_one_marker c abs mousePos hoveredIndex progress :
  map fst (drawDataPoints c abs progress
             (fst (detectHover c abs mousePos hoveredIndex)))
  = drawData c abs progress /\
  length (filter snd
            (drawDataPoints c abs progress
               (fst (detectHover c abs mousePos hoveredIndex))))
  = if (fst (detectHover c abs mousePos hoveredIndex) =? -1)%Z
    then 0%nat else 1%nat.
Proof.
  split.
  - unfold drawDataPoints, drawData. rewrite map_map. now apply map_ext.
  - assert (Hrange : (-1 <= fst (detectHover c abs mousePos hoveredIndex)
                      < Z.of_nat (length abs))%Z).
    { rewrite detectHover_index. unfold newHoveredIndex, indexed.
      apply hit_fold_range; [ | lia ].
      intros [j b] Hin. cbn [fst].
      apply in_indexed_from in Hin as (_ & Hnth).
      assert (Hlt : (j - 0 < length abs)%nat).
      { apply nth_error_Some. congruence. }
      lia. }
    set (h := fst (detectHover c abs mousePos hoveredIndex)) in *.
    unfold drawDataPoints, indexed.
    rewrite (highlighted_count
               (fun ia => data_point c (length abs) (fst ia) (snd ia) progress)
               h abs 0).
    destruct (Z.eqb_spec h (-1));
      destruct (Z.leb_spec (Z.of_nat 0) h);
      destruct (Z.ltb_spec h (Z.of_nat (0 + length abs))); simpl; lia.
Qed.

(* ----------------------------------------------------------------- *)
(** ** Counting a number up *)

Lemma round_IZR z : round (IZR z) = z.
Proof. unfold round. symmetry. apply Int_part_spec. lra. Qed.

Lemma round_monotone x y : x <= y -> (round x <= round y)%Z.
Proof.
  intros Hxy. unfold round.
  destruct (base_Int_part (x + / 2)) as [Hx _].
  destruct (base_Int_part (y + / 2)) as [_ Hy].
  apply Z.lt_succ_r. apply lt_IZR. rewrite succ_IZR. lra.
Qed.

Lemma easeOutQuart_monotone p q :
  p <= q <= 1 -> easeOutQuart p <= easeOutQuart q.
Proof.
  intros Hpq. unfold easeOutQuart.
  assert (H : (1 - q) ^ 4 <= (1 - p) ^ 4) by (apply pow_incr; lra).
  lra.
Qed.

Lemma easeOutQuart_0 : easeOutQuart 0 = 0.
Proof. unfold easeOutQuart. ring. Qed.

Lemma easeOutQuart_1 : easeOutQuart 1 = 1.
Proof. unfold easeOutQuart. ring. Qed.

Lemma share_monotone duration x y :
  0 < duration -> x <= y -> Rmin (x / duration) 1 <= Rmin (y / duration) 1.
Proof.
  intros Hd Hxy.
  assert (H : x / duration <= y / duration).
  { apply Rmult_le_compat_r; [ | exact Hxy ].
    apply Rlt_le. now apply Rinv_0_lt_compat. }
  apply Rle_min_compat_r. exact H.
Qed.

Lemma share_full duration x :
  0 < duration -> duration <= x -> Rmin (x / duration) 1 = 1.
Proof.
  intros Hd Hx. apply Rmin_right.
  apply Rmult_le_reg_r with duration; [ exact Hd | ].
  replace (x / duration * duration) with x by (field; lra). lra.
Qed.

Lemma share_part duration x :
  0 < duration -> x < duration -> Rmin (x / duration) 1 = x / duration /\
                                  x / duration < 1.
Proof.
  intros Hd Hx.
  assert (H : x / duration < 1).
  { apply Rmult_lt_reg_r with duration; [ exact Hd | ].
    replace (x / duration * duration) with x by (field; lra). lra. }
  split; [ apply Rmin_left; lra | exact H ].
Qed.

(** X19.  [animateNumber] with a positive duration, counting between whole
    numbers: a frame at or after the end of the duration writes exactly
    [end] and asks for no further frame, an earlier frame asks for the
    next one, and a frame at the start time writes [start].  When counting
    up ([start <= end]) the number written never goes down as time goes
    on, and from the start time onwards it stays between [start] and
    [end]. *)
Theorem animateNumber_settles_on_the_target start finish duration startTime :
  0 < duration ->
  (forall t,
      duration <= t - startTime ->
      update start finish duration startTime t = (finish, false)) /\
  (forall t,
      t - startTime < duration ->
      snd (update start finish duration startTime t) = true) /\
  fst (update start finish duration startTime startTime) = start /\
  ((start <= finish)%Z ->
   (forall t1 t2,
       t1 <= t2 ->
       (fst (update start finish duration startTime t1)
        <= fst (update start finish duration startTime t2))%Z) /\
   (forall t,
       startTime <= t ->
       (start <= fst (update start finish duration startTime t)
        <= finish)%Z)).
Proof.
  intros Hd.
  assert (Hdone : forall t,
             duration <= t - startTime ->
             update start finish duration startTime t = (finish, false)).
  { intros t Ht. unfold update. rewrite (share_full duration) by assumption.
    rewrite easeOutQuart_1, Rmult_1_r.
    replace (IZR start + (IZR finish - IZR start)) with (IZR finish) by ring.
    rewrite round_IZR.
    destruct (Rlt_dec 1 1); [ lra | reflexivity ]. }
  assert (Hfirst : fst (update start finish duration startTime startTime)
                   = start).
  { unfold update. cbn [fst].
    replace (startTime - startTime) with 0 by ring.
    destruct (share_part duration 0 Hd Hd) as [-> _].
    replace (0 / duration) with 0 by (unfold Rdiv; ring).
    rewrite easeOutQuart_0, Rmult_0_r, Rplus_0_r. apply round_IZR. }
  assert (Hup : (start <= finish)%Z ->
                forall t1 t2,
                  t1 <= t2 ->
                  (fst (update start finish duration startTime t1)
                   <= fst (update start finish duration startTime t2))%Z).
  { intros Horder t1 t2 Ht. unfold update. cbn [fst].
    apply round_monotone. apply Rplus_le_compat_l.
    apply Rmult_le_compat_l.
    - apply IZR_le in Horder. lra.
    - apply easeOutQuart_monotone. split; [ | apply Rmin_r ].
      apply share_monotone; [ exact Hd | lra ]. }
  split; [ exact Hdone | ].
  split.
  - intros t Ht. unfold update. cbn [snd].
    destruct (share_part duration (t - startTime) Hd Ht) as [-> Hlt].
    destruct (Rlt_dec _ 1); [ reflexivity | contradiction ].
  - split; [ exact Hfirst | ].
    intros Horder. split; [ now apply Hup | ].
    intros t Ht. split.
    + rewrite <- Hfirst at 1. now apply Hup.
    + replace finish
        with (fst (update start finish duration startTime
                          (Rmax t (startTime + duration)))) at 2.
      * apply Hup; [ exact Horder | apply Rmax_l ].
      * rewrite Hdone; [ reflexivity | ].
        pose proof (Rmax_r t (startTime + duration)). lra.
Qed.

Lemma animateNumber_settles_on_the_target_witness :
  update 0 85 1500 100 1600 = (85%Z, false) /\
  snd (update 0 85 1500 100 850) = true /\
  (0 <= fst (update 0 85 1500 100 850) <= 85)%Z.
Proof.
  destruct (animateNumber_settles_on_the_target 0 85 1500 100)
    as (Hdone & Hmore & _ & Hcount); [ lra | ].
  split; [ apply Hdone; lra | ].
  split; [ apply Hmore; lra | ].
  apply Hcount; [ lia | lra ].
Defined.

(* ----------------------------------------------------------------- *)
(** ** Throttled handlers *)

Lemma throttle_called {A : Type} (args : A) rest :
  throttle (Called args :: rest) false
  = (args :: fst (throttle rest true), snd (throttle rest true)).
Proof. cbn [throttle]. now destruct (throttle rest true). Qed.

Lemma throttle_pending {A : Type} (calls : list A) :
  throttle (map Called calls) true = ([], true).
Proof.
  induction calls as [ | args rest IH ]; [ reflexivity | exact IH ].
Qed.

(** X20.  A throttled handler runs at most once more than its timer has
    expired, and not even that while the timer is pending at the outset;
    every run is one of the calls that were made, with the arguments of
    that call.  Of a burst of calls with no expiry in between, the first
    is run and the others are dropped. *)
Theorem throttle_runs_once_per_interval {A : Type}
  (l : list (happening A)) (inThrottle : bool) :
  (length (fst (throttle l inThrottle))
   <= expirations l + (if inThrottle then 0 else 1))%nat /\
  (forall args, In args (fst (throttle l inThrottle)) -> In (Called args) l) /\
  (forall (first : A) (others : list A),
      throttle (map Called (first :: others)) false = ([first], true)).
Proof.
  split; [ | split ].
  - revert inThrottle.
    induction l as [ | [ args | ] rest IH ]; intros inThrottle.
    + cbn [throttle fst length expirations]. lia.
    + destruct inThrottle.
      * cbn [throttle expirations]. exact (IH true).
      * rewrite throttle_called. cbn [fst length expirations].
        specialize (IH true). cbn beta iota in IH. lia.
    + cbn [throttle expirations]. specialize (IH false).
      destruct inThrottle; cbn beta iota in *; lia.
  - revert inThrottle.
    induction l as [ | [ args | ] rest IH ]; intros inThrottle a.
    + cbn [throttle fst]. contradiction.
    + destruct inThrottle.
      * cbn [throttle]. intros Ha. right. exact (IH true a Ha).
      * rewrite throttle_called. cbn [fst].
        intros [ <- | Ha ]; [ now left | right; exact (IH true a Ha) ].
    + cbn [throttle]. intros Ha. right. exact (IH false a Ha).
  - intros first others. cbn [map]. rewrite throttle_called.
    now rewrite throttle_pending.
Qed.

(* ----------------------------------------------------------------- *)
(** ** Debounced handlers *)

Lemma debounce_expired {A : Type} (args : A) rest :
  debounce (Expired :: rest) (Some args)
  = (args :: fst (debounce rest None), snd (debounce rest None)).
Proof. cbn [debounce]. now destruct (debounce rest None). Qed.

Lemma debounce_burst {A : Type} (calls : list A) :
  forall (last : A) rest pending,
    debounce (map Called (calls ++ [last]) ++ rest) pending
    = debounce rest (Some last).
Proof.
  induction calls as [ | args calls' IH ]; intros last rest pending.
  - reflexivity.
  - cbn [app map debounce]. apply IH.
Qed.

(** X21.  A debounced handler runs no more often than its timer has
    expired, and each run has the arguments of a call that was made or of
    the call that was pending at the outset.  Of a burst of calls followed
    by one expiry only the last call is run, whatever was pending
    before. *)
Theorem debounce_runs_the_last_call {A : Type}
  (l : list (happening A)) (pending : option A) :
  (length (fst (debounce l pending)) <= expirations l)%nat /\
  (forall args,
      In args (fst (debounce l pending)) ->
      In (Called args) l \/ pending = Some args) /\
  (forall (calls : list A) (last : A),
      debounce (map Called (calls ++ [last]) ++ [Expired]) pending
      = ([last], None)).
Proof.
  split; [ | split ].
  - revert pending.
    induction l as [ | [ args | ] rest IH ]; intros pending.
    + cbn [debounce fst length]. lia.
    + cbn [debounce expirations]. apply IH.
    + destruct pending as [ args | ].
      * rewrite debounce_expired. cbn [fst length expirations].
        specialize (IH None). lia.
      * cbn [debounce expirations]. specialize (IH None). lia.
  - revert pending.
    induction l as [ | [ args | ] rest IH ]; intros pending a.
    + cbn [debounce fst]. contradiction.
    + cbn [debounce]. intros Ha.
      destruct (IH _ a Ha) as [ Hin | [= ->] ];
        left; [ now right | now left ].
    + destruct pending as [ args | ].
      * rewrite debounce_expired. cbn [fst].
        intros [ <- | Ha ]; [ now right | ].
        destruct (IH _ a Ha) as [ Hin | Hnone ];
          [ left; now right | discriminate ].
      * cbn [debounce]. intros Ha.
        destruct (IH _ a Ha) as [ Hin | Hnone ];
          [ left; now right | discriminate ].
  - intros calls last. rewrite debounce_burst. reflexivity.
Qed.

(* ----------------------------------------------------------------- *)
(** ** What the two charts paint *)

Lemma draw_app calls1 calls2 ctx :
  draw (calls1 ++ calls2) ctx = draw calls2 (draw calls1 ctx).
Proof. apply fold_left_app. Qed.

Lemma draw_lines {A : Type} (f : nat * A -> R * R) (xs : list A) :
  forall start ctx,
    (0 < start)%nat ->
    current ctx <> [] ->
    draw (map (fun ia => join (fst ia) (f ia))
              (combine (seq start (length xs)) xs)) ctx
    = mkContext (current ctx
                 ++ map Line (map f (combine (seq start (length xs)) xs)))
                (painted ctx).
Proof.
  induction xs as [ | x rest IH ]; intros start ctx Hstart Hcur.
  - cbn [length seq combine map draw fold_left].
    rewrite app_nil_r. now destruct ctx.
  - cbn [length seq combine map]. unfold draw. cbn [fold_left].
    fold (draw (map (fun ia => join (fst ia) (f ia))
                    (combine (seq (S start) (length rest)) rest))
               (issue ctx (join (fst (start, x)) (f (start, x))))).
    rewrite IH.
    + cbn [fst]. unfold join.
      destruct (Nat.eqb_spec start 0) as [ E | _ ]; [ lia | ].
      cbn [issue current painted].
      destruct (current ctx) as [ | piece0 pieces ] eqn:E;
        [ contradiction | ].
      now rewrite <- app_assoc.
    + lia.
    + cbn [fst]. unfold join.
      destruct (Nat.eqb_spec start 0) as [ E | _ ]; [ lia | ].
      cbn [issue current]. now destruct (current ctx).
Qed.

Lemma draw_polygon {A : Type} (f : nat * A -> R * R) (xs : list A) ctx :
  painted (draw ([beginPath]
                 ++ map (fun ia => join (fst ia) (f ia))
                        (combine (seq 0 (length xs)) xs)
                 ++ [closePath; stroke; fill]) ctx)
  = painted ctx
    ++ [ (Stroked, polygon (map f (combine (seq 0 (length xs)) xs)));
         (Filled, polygon (map f (combine (seq 0 (length xs)) xs))) ].
Proof.
  rewrite !draw_app.
  change (draw [beginPath] ctx) with (mkContext [] (painted ctx)).
  destruct xs as [ | x rest ].
  - unfold draw.
    cbn [length seq combine map fold_left issue current painted polygon app].
    now rewrite <- app_assoc.
  - cbn [length seq combine map].
    unfold draw at 2. cbn [fold_left].
    fold (draw (map (fun ia => join (fst ia) (f ia))
                    (combine (seq 1 (length rest)) rest))
               (issue (mkContext [] (painted ctx))
                      (join (fst (0%nat, x)) (f (0%nat, x))))).
    cbn [fst join Nat.eqb issue current painted app].
    rewrite draw_lines; [ | lia | discriminate ].
    cbn [current painted polygon app].
    unfold draw. cbn [fold_left issue current painted].
    now rewrite <- app_assoc.
Qed.

(** X22.  [drawData] of the core ability chart strokes and then fills one
    path: the closed polygon through the data points of all abilities, in
    order, and nothing else. *)
Theorem drawData_paints_the_polygon c abs progress ctx :
  painted (draw (drawData_calls c abs progress) ctx)
  = painted ctx
    ++ [ (Stroked, polygon (drawData c abs progress));
         (Filled, polygon (drawData c abs progress)) ].
Proof.
  unfold drawData_calls, drawData, indexed.
  exact (draw_polygon
           (fun ia : nat * ability =>
              data_point c (length abs) (fst ia) (snd ia) progress)
           abs ctx).
Qed.

Lemma last_cons {A : Type} (l : list A) :
  forall a d, last (a :: l) d = last l a.
Proof.
  induction l as [ | b rest IH ]; intros a d; [ reflexivity | ].
  change (last (a :: b :: rest) d) with (last (b :: rest) d).
  now rewrite !IH.
Qed.

Lemma draw_marks centerX centerY n (l : list (nat * ability)) :
  forall ctx,
    draw (flat_map (SkillsRadar.mark centerX centerY n) l) ctx
    = mkContext
        (last (map (fun entry =>
                      [Circle (SkillsRadar.skill_point centerX centerY n
                                 (fst entry) (snd entry)) 4]) l)
              (current ctx))
        (painted ctx
         ++ map (fun entry =>
                   (Filled,
                    [Circle (SkillsRadar.skill_point centerX centerY n
                               (fst entry) (snd entry)) 4])) l).
Proof.
  induction l as [ | entry rest IH ]; intros ctx.
  - cbn [flat_map map last draw fold_left].
    rewrite app_nil_r. now destruct ctx.
  - cbn [flat_map]. rewrite draw_app, IH.
    assert (Hmark : draw (SkillsRadar.mark centerX centerY n entry) ctx
                    = mkContext
                        [Circle (SkillsRadar.skill_point centerX centerY n
                                   (fst entry) (snd entry)) 4]
                        (painted ctx
                         ++ [(Filled,
                              [Circle (SkillsRadar.skill_point
                                         centerX centerY n
                                         (fst entry) (snd entry)) 4])])).
    { unfold SkillsRadar.mark, draw, join. cbn [fold_left].
      destruct (Nat.eqb (fst entry) 0); reflexivity. }
    rewrite Hmark. cbn [current painted map].
    rewrite last_cons, <- app_assoc. reflexivity.
Qed.

(** X23.  [drawData] of the skills chart never paints the polygon of the
    skills.  The marker of every skill starts a new path, so that all
    that is painted is the filled marker of each skill and, stroked and
    filled at the end, the closed circle of the last marker: no painted
    path holds a line between two skill points. *)
Theorem skills_polygon_is_never_painted skills centerX centerY ctx :
  painted (draw (SkillsRadar.drawData skills centerX centerY) ctx)
  = painted ctx
    ++ map (fun entry =>
              (Filled,
               [Circle (SkillsRadar.skill_point centerX centerY
                          (length skills) (fst entry) (snd entry)) 4]))
           (indexed skills)
    ++ (let outline :=
          last (map (fun entry =>
                       [Circle (SkillsRadar.skill_point centerX centerY
                                  (length skills) (fst entry) (snd entry)) 4])
                    (indexed skills)) []
          ++ [Close] in
        [ (Stroked, outline); (Filled, outline) ]) /\
  forall kind outline p,
    In (kind, outline)
       (painted (draw (SkillsRadar.drawData skills centerX centerY)
                      (mkContext [] []))) ->
    ~ In (Line p) outline.
Proof.
  assert (Hpainted : forall ctx0,
    painted (draw (SkillsRadar.drawData skills centerX centerY) ctx0)
    = painted ctx0
      ++ map (fun entry =>
                (Filled,
                 [Circle (SkillsRadar.skill_point centerX centerY
                            (length skills) (fst entry) (snd entry)) 4]))
             (indexed skills)
      ++ (let outline :=
            last (map (fun entry =>
                         [Circle (SkillsRadar.skill_point centerX centerY
                                    (length skills) (fst entry) (snd entry))
                                 4])
                      (indexed skills)) []
            ++ [Close] in
          [ (Stroked, outline); (Filled, outline) ])).
  { intros ctx0. unfold SkillsRadar.drawData.
    rewrite !draw_app, draw_marks.
    change (draw [beginPath] ctx0) with (mkContext [] (painted ctx0)).
    cbn [current painted]. unfold draw.
    cbn [fold_left issue current painted].
    now rewrite <- !app_assoc. }
  split; [ apply Hpainted | ].
  intros kind outline p Hin. rewrite Hpainted in Hin.
  cbn [painted] in Hin. rewrite app_nil_l in Hin.
  assert (Hlast : forall l : list (nat * ability),
             ~ In (Line p)
                  (last (map (fun entry =>
                                [Circle (SkillsRadar.skill_point
                                           centerX centerY (length skills)
                                           (fst entry) (snd entry)) 4]) l)
                        [])).
  { intros l. induction l as [ | entry rest IH ]; [ intros [] | ].
    cbn [map]. rewrite last_cons.
    destruct rest as [ | entry' rest' ].
    - cbn [map last]. intros [ H | [] ]. discriminate H.
    - cbn [map] in IH |- *. rewrite last_cons in IH.
      now rewrite last_cons. }
  apply in_app_or in Hin as [ Hin | Hin ].
  - apply in_map_iff in Hin as (entry & [= _ <-] & _).
    intros [ H | [] ]. discriminate H.
  - cbn beta zeta in Hin.
    assert (Houtline :
              outline
              = last (map (fun entry =>
                             [Circle (SkillsRadar.skill_point
                                        centerX centerY (length skills)
                                        (fst entry) (snd entry)) 4])
                          (indexed skills)) [] ++ [Close]).
    { destruct Hin as [ [= _ <-] | [ [= _ <-] | [] ] ]; reflexivity. }
    rewrite Houtline. intros H. apply in_app_or in H as [ H | [ H | [] ] ].
    + exact (Hlast _ H).
    + discriminate H.
Qed.

End RadarExtraProperties.
